(** * extsort.c: the on-disk sort of bcftools, embedded and verified

    The engine buffers fixed-size records, spills sorted runs to anonymous
    temporary files, and merges the runs through a binary heap.  The file
    follows extsort.c function by function: [extsort_alloc], [extsort_set],
    [extsort_init], [_buf_flush], [extsort_push], [_blk_read],
    [extsort_sort], [extsort_shift].

    Conventions of the embedding
    - [size_t] values are integers reduced modulo 2^64 ([wrap_size]); the
      conversion to [int] is [to_int].  An LP64 target is assumed, so
      [sizeof(void* )] is 8.
    - [nbuf], [nblk] and the heap's [ndat] count live cells of arrays that
      the process holds in memory; they are the lengths of the lists that
      model those arrays.  The pointer [buf] is NULL or points to an array
      with room for [mbuf] cells, of which the first [nbuf] are live.
    - a record is the byte string behind the pointer handed to
      [extsort_push]; the comparator reads the records it is given.
    - the temporary file behind [blk->fd] belongs to one block only (it is
      created by [mkstemp] and unlinked at once), so its bytes and its
      offset are kept beside the descriptor.  Reads and writes on it behave
      as on a regular file; failures of the operating system are outside
      the model.
    - [error(...)] and a failing [assert] abort the process: [Fatal]
      (assertions are compiled in).  A call or a dereference through NULL
      is [Undefined]. *)

From Stdlib Require Import ZArith List Lia Bool Permutation Sorted Arith.
From Stdlib.Strings Require Import Byte.
From Stdlib.Strings Require String.
Import String.StringSyntax.
Import ListNotations.
Abbreviation string := String.string.
Delimit Scope string_scope with string.
Open Scope Z_scope.

(** ** Machine arithmetic *)

Definition wrap_size (x : Z) : Z := x mod 2 ^ 64.
Definition to_int (x : Z) : Z := (x + 2 ^ 31) mod 2 ^ 32 - 2 ^ 31.
Definition INT_MAX : Z := 2 ^ 31 - 1.
Definition sizeof_voidp : Z := 8.

(** ** Outcomes of a call *)

Inductive result (A : Type) : Type :=
| Ok (a : A)
| Fatal (msg : string)
| Undefined.
Arguments Ok {A} a.
Arguments Fatal {A} msg%_string.
Arguments Undefined {A}.

Definition bind {A B : Type} (m : result A) (k : A -> result B) : result B :=
  match m with
  | Ok a => k a
  | Fatal s => Fatal s
  | Undefined => Undefined
  end.

Notation "x <- m ;; k" := (bind m (fun x => k))
  (at level 61, m at next level, right associativity).
Notation "' p <- m ;; k" := (bind m (fun x => let p := x in k))
  (at level 61, p pattern, m at next level, right associativity).

(** ** Arrays as lists *)

Fixpoint array_set {A : Type} (l : list A) (i : nat) (x : A) : list A :=
  match l, i with
  | [], _ => []
  | _ :: t, O => x :: t
  | a :: t, S j => a :: array_set t j x
  end.

(** ** The heap of kheap.h

    extsort.c instantiates the heap with [KHEAP_INIT(blk, blk_t*,
    blk_is_smaller)] and uses [khp_init], [khp_insert], [khp_delete], the
    count [ndat] and the root [dat[0]].  kheap.h itself is not among the
    sources; sections 2 and 4.5 of the specification call it a binary
    min-heap keyed by the comparison it is instantiated with.  The
    definitions of this module are that heap in its array form, root at
    index 0, the list holding the [ndat] live cells. *)

Module KHeap.
Section Heap.
Context {A : Type}.
Variable d : A.
Variable is_smaller : A -> A -> bool.

(** Modelled from the spec: the index arithmetic of a binary heap stored in
    an array (kheap.h is absent). *)
Definition khp_parent (i : nat) : nat := ((i - 1) / 2)%nat.

(** Modelled from the spec: the left child in the array form of the binary
    heap (kheap.h is absent). *)
Definition khp_lchild (i : nat) : nat := (2 * i + 1)%nat.

(** Modelled from the spec: the right child in the array form of the
    binary heap (kheap.h is absent). *)
Definition khp_rchild (i : nat) : nat := (2 * i + 2)%nat.

(** Modelled from the spec: exchange of two cells of the heap array
    (kheap.h is absent). *)
Definition khp_swap (h : list A) (i j : nat) : list A :=
  array_set (array_set h i (nth j h d)) j (nth i h d).

(** Modelled from the spec: the sift-up of an insertion into a binary
    min-heap (kheap.h is absent).  The hole at [i] climbs while the new
    element is smaller than the parent of the hole; the index halves at
    each step, so [i] steps of fuel are enough. *)
Fixpoint sift_up (fuel : nat) (h : list A) (i : nat) (x : A) : list A :=
  match fuel with
  | O => array_set h i x
  | S fuel' =>
      if (i =? 0)%nat then array_set h i x
      else if is_smaller x (nth (khp_parent i) h d)
           then sift_up fuel' (array_set h i (nth (khp_parent i) h d))
                        (khp_parent i) x
           else array_set h i x
  end.

(** Modelled from the spec: the sift-down of a binary min-heap (kheap.h is
    absent).  The cell at [i] is exchanged with its smallest child while
    one is smaller; the index grows at each step and stays below the
    length, so [length h] steps of fuel are enough. *)
Fixpoint khp_heapify (fuel : nat) (h : list A) (i : nat) : list A :=
  match fuel with
  | O => h
  | S fuel' =>
      let n := length h in
      let extreme :=
        if ((khp_lchild i <? n)%nat
            && is_smaller (nth (khp_lchild i) h d) (nth i h d))%bool
        then khp_lchild i else i in
      let extreme :=
        if ((khp_rchild i <? n)%nat
            && is_smaller (nth (khp_rchild i) h d) (nth extreme h d))%bool
        then khp_rchild i else extreme in
      if (extreme =? i)%nat then h
      else khp_heapify fuel' (khp_swap h i extreme) extreme
  end.

(** Modelled from the spec: khp_init of kheap.h, the empty heap. *)
Definition khp_init : list A := [].

(** Modelled from the spec: the field [ndat] of the heap of kheap.h, the
    number of cells in the heap. *)
Definition ndat (h : list A) : nat := length h.

(** Modelled from the spec: khp_insert of kheap.h, insertion into the
    binary min-heap.  The new cell is appended and the element sifted up
    from the last index. *)
Definition khp_insert (h : list A) (x : A) : list A :=
  sift_up (length h) (h ++ [x]) (length h) x.

(** Modelled from the spec: khp_delete of kheap.h, removal of the minimum
    of the binary min-heap.  The last cell replaces the root and is sifted
    down. *)
Definition khp_delete (h : list A) : list A :=
  match h with
  | [] => []
  | _ :: _ =>
      khp_heapify (length h) (array_set (removelast h) 0 (last h d)) 0
  end.

(** [a] is not after [b]: [b] is not smaller than [a]. *)
Definition not_after (a b : A) : Prop := is_smaller b a = false.

(** The heap order: no cell is smaller than its parent. *)
Definition heap_ordered (h : list A) : Prop :=
  forall j, (0 < j < length h)%nat ->
    not_after (nth (khp_parent j) h d) (nth j h d).

(** The heap order everywhere but between [i] and its parent, the
    children of [i] being in order with that parent too. *)
Definition ordered_above (h : list A) (i : nat) : Prop :=
  (forall j, (0 < j < length h)%nat -> j <> i ->
     not_after (nth (khp_parent j) h d) (nth j h d)) /\
  (forall j, (0 < j < length h)%nat -> khp_parent j = i -> (0 < i)%nat ->
     not_after (nth (khp_parent i) h d) (nth j h d)).

(** The heap order everywhere but between [i] and its children, these
    being in order with the parent of [i]. *)
Definition ordered_below (h : list A) (i : nat) : Prop :=
  (forall j, (0 < j < length h)%nat -> khp_parent j <> i ->
     not_after (nth (khp_parent j) h d) (nth j h d)) /\
  (forall j, (0 < j < length h)%nat -> khp_parent j = i -> (0 < i)%nat ->
     not_after (nth (khp_parent i) h d) (nth j h d)).
End Heap.
End KHeap.

(** ** Data of extsort.c *)

Definition record : Type := list byte.
Definition extsort_cmp_f : Type := record -> record -> Z.

(** [blk_t].  [f_data] and [f_pos] are the content and the offset of the
    file open on [fd]; the back pointer [es] is the session the block is
    stored in. *)
Record blk_t : Type := mk_blk {
  fd : Z;
  fname : string;
  dat : record;
  f_data : list byte;
  f_pos : nat
}.

Definition blk_null : blk_t := mk_blk (-1) String.EmptyString [] [] 0.

(** [struct _extsort_t].  [blk] holds the [nblk] blocks; [buf] is NULL
    ([None]) or the array of the buffered records, of which the list holds
    the [nbuf] live cells, and [mbuf] is the number of cells the array was
    last allocated for; the heap [bhp] holds block pointers, here indices
    into [blk]; NULL is [None]. *)
Record extsort_t : Type := mk_es {
  dat_size : Z;
  mem : Z;
  max_mem : Z;
  tmp_prefix : option string;
  cmp : option extsort_cmp_f;
  mbuf : Z;
  blk : list blk_t;
  buf : option (list record);
  tmp_dat : record;
  bhp : option (list nat)
}.

(** The records in the live cells of [buf]; there is none behind NULL. *)
Definition buffered (es : extsort_t) : list record :=
  match buf es with
  | Some l => l
  | None => []
  end.
Arguments buffered : simpl nomatch.

Definition nbuf (es : extsort_t) : nat := length (buffered es).
Definition nblk (es : extsort_t) : nat := length (blk es).

Definition set_dat_size v es :=
  mk_es v (mem es) (max_mem es) (tmp_prefix es) (cmp es) (mbuf es) (blk es)
        (buf es) (tmp_dat es) (bhp es).
Definition set_mem v es :=
  mk_es (dat_size es) v (max_mem es) (tmp_prefix es) (cmp es) (mbuf es)
        (blk es) (buf es) (tmp_dat es) (bhp es).
Definition set_max_mem v es :=
  mk_es (dat_size es) (mem es) v (tmp_prefix es) (cmp es) (mbuf es) (blk es)
        (buf es) (tmp_dat es) (bhp es).
Definition set_tmp_prefix v es :=
  mk_es (dat_size es) (mem es) (max_mem es) v (cmp es) (mbuf es) (blk es)
        (buf es) (tmp_dat es) (bhp es).
Definition set_cmp v es :=
  mk_es (dat_size es) (mem es) (max_mem es) (tmp_prefix es) v (mbuf es)
        (blk es) (buf es) (tmp_dat es) (bhp es).
Definition set_mbuf v es :=
  mk_es (dat_size es) (mem es) (max_mem es) (tmp_prefix es) (cmp es) v
        (blk es) (buf es) (tmp_dat es) (bhp es).
Definition set_blk v es :=
  mk_es (dat_size es) (mem es) (max_mem es) (tmp_prefix es) (cmp es) (mbuf es)
        v (buf es) (tmp_dat es) (bhp es).
Definition set_buf v es :=
  mk_es (dat_size es) (mem es) (max_mem es) (tmp_prefix es) (cmp es) (mbuf es)
        (blk es) v (tmp_dat es) (bhp es).
Definition set_tmp_dat v es :=
  mk_es (dat_size es) (mem es) (max_mem es) (tmp_prefix es) (cmp es) (mbuf es)
        (blk es) (buf es) v (bhp es).
Definition set_bhp v es :=
  mk_es (dat_size es) (mem es) (max_mem es) (tmp_prefix es) (cmp es) (mbuf es)
        (blk es) (buf es) (tmp_dat es) v.

Definition set_fd v b := mk_blk v (fname b) (dat b) (f_data b) (f_pos b).
Definition set_dat v b := mk_blk (fd b) (fname b) v (f_data b) (f_pos b).

(** ** The file behind a descriptor *)

(** [read(fd, dat, count)]: the bytes available at the offset, at most
    [count] of them, overwrite the front of [dat]; the offset advances. *)
Definition sys_read (b : blk_t) (count : Z) : Z * blk_t :=
  let bytes := firstn (Z.to_nat count) (skipn (f_pos b) (f_data b)) in
  let n := length bytes in
  (Z.of_nat n,
   mk_blk (fd b) (fname b) (bytes ++ skipn n (dat b)) (f_data b)
          (f_pos b + n)%nat).

(** [write(fd, src, count)]: [count] bytes of the record go to the file at
    the offset.  A record that holds fewer bytes yields a short count. *)
Definition sys_write (b : blk_t) (src : record) (count : Z) : Z * blk_t :=
  let bytes := firstn (Z.to_nat count) src in
  let n := length bytes in
  (Z.of_nat n,
   mk_blk (fd b) (fname b) (dat b)
          (firstn (f_pos b) (f_data b) ++ bytes
             ++ skipn (f_pos b + n) (f_data b))
          (f_pos b + n)%nat).

(** [lseek(fd, 0, SEEK_SET)]: the new offset, or -1 on a closed
    descriptor. *)
Definition sys_rewind (b : blk_t) : Z * blk_t :=
  if fd b =? -1 then (-1, b)
  else (0, mk_blk (fd b) (fname b) (dat b) (f_data b) 0).

(** [malloc(n)]: a buffer of [n] bytes (its content is indeterminate in C;
    nothing below reads it before it is written). *)
Definition malloc (n : Z) : record := repeat x00 (Z.to_nat n).

(** [mkstemp]: the descriptor of the [n]-th temporary file; 0, 1 and 2 are
    the standard streams. *)
Definition mkstemp_fd (n : nat) : Z := 3 + Z.of_nat n.

(** The rounding of htslib's [hts_expand] ([kroundup32], later
    [kroundup_size_t]): the next power of two. *)
Definition kroundup (n : Z) : Z := 2 ^ Z.log2_up n.

(** [hts_expand(void*, n, es->mbuf, es->buf)], the macro of htslib's hts.h
    that [extsort_push] grows its buffer with: if [n] exceeds the capacity
    [mbuf], the capacity becomes [n] rounded up and [realloc] gives [buf]
    that many cells, keeping the live ones (a NULL [buf] is allocated);
    otherwise neither is touched, and a NULL [buf] stays NULL. *)
Definition hts_expand (n : Z) (es : extsort_t) : extsort_t :=
  if n >? mbuf es
  then set_buf (Some (buffered es)) (set_mbuf (kroundup n) es)
  else es.

(** ** The engine *)

(** [extsort_opt_t] of extsort.h, and the value behind the [void*] that
    [extsort_set] receives. *)
Inductive extsort_opt_t : Type := DAT_SIZE | MAX_MEM | TMP_PREFIX | FUNC_CMP.

Inductive opt_value : Type :=
| VSize (n : Z)
| VStr (s : option string)
| VCmp (f : option extsort_cmp_f).

Section Engine.

(** [qsort] of the C library: it receives the comparator and the array. *)
Variable qsort : extsort_cmp_f -> list record -> list record.

(** [parse_mem_string] is declared in extsort.c and defined elsewhere. *)
Variable parse_mem_string : string -> Z.

(** The comparison the heap is instantiated with.  [a] and [b] point to
    cells of the heap, which hold pointers to blocks of the session.  The
    heap has cells only after a flush, which needs the comparator; the
    answer without one is never asked for. *)
Definition blk_is_smaller (es : extsort_t) (a b : nat) : bool :=
  match cmp es with
  | Some f =>
      let ret := f (dat (nth a (blk es) blk_null))
                   (dat (nth b (blk es) blk_null)) in
      if ret <? 0 then true else false
  | None => false
  end.

Definition _init_tmp_prefix (es : extsort_t) (prefix : option string)
  : extsort_t :=
  match prefix with
  | Some p => set_tmp_prefix (Some (String.append p "XXXXXX"%string)) es
  | None => set_tmp_prefix (Some "/tmp/bcftools-sort.XXXXXX"%string) es
  end.

Definition extsort_set (es : extsort_t) (key : extsort_opt_t)
           (value : opt_value) : result extsort_t :=
  match key, value with
  | DAT_SIZE, VSize n => Ok (set_dat_size (wrap_size n) es)
  | MAX_MEM, VStr (Some s) =>
      let es := set_max_mem (wrap_size (parse_mem_string s)) es in
      if max_mem es <=? 0
      then Fatal "Could not parse the memory string, expected positive number"
      else Ok es
  | TMP_PREFIX, VStr p => Ok (_init_tmp_prefix es p)
  | FUNC_CMP, VCmp f => Ok (set_cmp f es)
  | _, _ => Undefined
  end.

Definition extsort_alloc : extsort_t :=
  mk_es 0 0 100000000 None None 0 [] None [] None.

Definition extsort_init (es : extsort_t) : result extsort_t :=
  match cmp es with
  | None => Fatal "Assertion `es->cmp' failed"
  | Some _ =>
      if dat_size es =? 0 then Fatal "Assertion `es->dat_size' failed"
      else
        let es := match tmp_prefix es with
                  | None => _init_tmp_prefix es None
                  | Some _ => es
                  end in
        Ok (set_tmp_dat (malloc (dat_size es)) es)
  end.

(** The write loop of [_buf_flush] over the sorted buffer. *)
Fixpoint write_loop (sz : Z) (b : blk_t) (rs : list record) : result blk_t :=
  match rs with
  | [] => Ok b
  | r :: rest =>
      let '(n, b') := sys_write b r sz in
      if negb (n =? sz) then Fatal "Error: failed to write to the temporary file"
      else write_loop sz b' rest
  end.

(** [qsort] arranges the live cells in place; [nbuf = 0] at the end leaves
    the array allocated and none of its cells live. *)
Definition _buf_flush (es : extsort_t) : result extsort_t :=
  if (nbuf es =? 0)%nat then Ok es
  else
    match cmp es, tmp_prefix es with
    | Some f, Some prefix =>
        let es := set_buf (Some (qsort f (buffered es))) es in
        let b := mk_blk (mkstemp_fd (nblk es)) prefix (malloc (dat_size es))
                        [] 0 in
        b <- write_loop (dat_size es) b (buffered es) ;;
        let '(off, b) := sys_rewind b in
        if negb (off =? 0)
        then Fatal "Error: failed to lseek() to the start of the temporary file"
        else Ok (set_mem 0 (set_buf (Some []) (set_blk (blk es ++ [b]) es)))
    | _, _ => Undefined
    end.

(** [n] is [es->nbuf] after [es->nbuf++].  The store [es->buf[nbuf-1] = dat]
    goes through the pointer [buf]: through NULL it is undefined, which is
    the case when [hts_expand] found capacity enough and allocated
    nothing. *)
Definition extsort_push (es : extsort_t) (dat : record) : result extsort_t :=
  let delta := to_int (wrap_size (sizeof_voidp + dat_size es)) in
  es <- (if (negb (nbuf es =? 0)%nat
             && (wrap_size (mem es + wrap_size delta) >? max_mem es))%bool
         then _buf_flush es else Ok es) ;;
  let n := Z.of_nat (nbuf es + 1) in
  let es := set_mem (wrap_size (mem es + wrap_size delta)) es in
  let es := hts_expand n es in
  match buf es with
  | Some cells => Ok (set_buf (Some (cells ++ [dat])) es)
  | None => Undefined
  end.

(** The number of bytes read comes back with the block as it is after
    the call. *)
Definition _blk_read (es : extsort_t) (b : blk_t) : result (Z * blk_t) :=
  if fd b =? -1 then Ok (0, b)
  else
    let '(ret, b) := sys_read b (dat_size es) in
    if ret <? 0 then Fatal "Error: failed to read from the temporary file"
    else if ret =? 0 then Ok (ret, set_fd (-1) b)
    else if ret <? dat_size es
         then Fatal "Error: failed to read from the temporary file"
         else Ok (ret, b).

(** One round of the loop of [extsort_sort], for the block at index [i]. *)
Definition sort_step (es : extsort_t) (i : nat) : result extsort_t :=
  let b := nth i (blk es) blk_null in
  let '(off, b) := sys_rewind b in
  if negb (off =? 0)
  then Fatal "Error: failed to lseek() to the start of the temporary file"
  else
    '(ret, b) <- _blk_read es b ;;
    let es := set_blk (array_set (blk es) i b) es in
    if negb (to_int ret =? 0)
    then
      match bhp es with
      | Some h =>
          Ok (set_bhp (Some (KHeap.khp_insert 0%nat (blk_is_smaller es) h i)) es)
      | None => Undefined
      end
    else Ok es.

Fixpoint sort_loop (es : extsort_t) (idx : list nat) : result extsort_t :=
  match idx with
  | [] => Ok es
  | i :: rest => es <- sort_step es i ;; sort_loop es rest
  end.

(** [free(es->buf); es->buf = NULL] leaves [mbuf] as it is. *)
Definition extsort_sort (es : extsort_t) : result extsort_t :=
  es <- _buf_flush es ;;
  let es := set_buf None es in
  let es := set_bhp (Some KHeap.khp_init) es in
  sort_loop es (seq 0 (nblk es)).

(** NULL is [None]; a record comes back as the bytes of the scratch slot. *)
Definition extsort_shift (es : extsort_t)
  : result (option record * extsort_t) :=
  match bhp es with
  | None => Undefined
  | Some h =>
      if (KHeap.ndat h =? 0)%nat then Ok (None, es)
      else
        let i := nth 0 h 0%nat in
        let b := nth i (blk es) blk_null in
        let tmp := tmp_dat es in
        let es := set_tmp_dat (dat b) es in
        let es := set_blk (array_set (blk es) i (set_dat tmp b)) es in
        let h := KHeap.khp_delete 0%nat (blk_is_smaller es) h in
        '(ret, b) <- _blk_read es (nth i (blk es) blk_null) ;;
        let es := set_blk (array_set (blk es) i b) es in
        let h := if negb (to_int ret =? 0)
                 then KHeap.khp_insert 0%nat (blk_is_smaller es) h i
                 else h in
        Ok (Some (tmp_dat es), set_bhp (Some h) es)
  end.

(** ** Driving a session *)

Fixpoint push_all (es : extsort_t) (l : list record) : result extsort_t :=
  match l with
  | [] => Ok es
  | r :: rest => es <- extsort_push es r ;; push_all es rest
  end.

(** At most [n] calls of [extsort_shift], stopping at NULL; the records
    returned, in order, and the session left. *)
Fixpoint pull_n (n : nat) (es : extsort_t)
  : result (list record * extsort_t) :=
  match n with
  | O => Ok ([], es)
  | S n' =>
      '(r, es') <- extsort_shift es ;;
      match r with
      | None => Ok ([], es')
      | Some x =>
          '(out, es'') <- pull_n n' es' ;;
          Ok (x :: out, es'')
      end
  end.

End Engine.

(** ** Notions the statements use *)

(** [a] is not after [b] under the comparator. *)
Definition cmp_le (f : extsort_cmp_f) (a b : record) : Prop := f a b <= 0.

(** A comparator that orders the records: swapping the arguments swaps the
    sign, and "not after" is transitive.  Ties are allowed. *)
Record total_order (f : extsort_cmp_f) : Prop := {
  cmp_flip : forall a b, Z.sgn (f b a) = - Z.sgn (f a b);
  cmp_trans : forall a b c, f a b <= 0 -> f b c <= 0 -> f a c <= 0
}.

(** What [qsort] promises for such a comparator: the array comes back
    rearranged and in order. *)
Definition sorts (qsort : extsort_cmp_f -> list record -> list record) : Prop :=
  forall f l, total_order f ->
    Permutation (qsort f l) l /\ StronglySorted (cmp_le f) (qsort f l).

(** The byte string [l] cut into pieces of [sz] bytes. *)
Fixpoint chunks_aux (fuel sz : nat) (l : list byte) : list record :=
  match fuel with
  | O => []
  | S fuel' =>
      match l with
      | [] => []
      | _ :: _ => firstn sz l :: chunks_aux fuel' sz (skipn sz l)
      end
  end.

Definition chunks (sz : nat) (l : list byte) : list record :=
  chunks_aux (length l) sz l.

Definition rec_len (es : extsort_t) : nat := Z.to_nat (dat_size es).

(** The records stored in the file of a block, and those past its offset. *)
Definition stored (es : extsort_t) (b : blk_t) : list record :=
  chunks (rec_len es) (f_data b).
Definition unread (es : extsort_t) (b : blk_t) : list record :=
  chunks (rec_len es) (skipn (f_pos b) (f_data b)).

(** A Run is open while its descriptor is. *)
Definition is_open (b : blk_t) : bool := negb (fd b =? -1).

(** The records of the open Runs that no pull has returned: the head of
    each Run and what its file still holds. *)
Definition not_yet_returned (es : extsort_t) : list record :=
  flat_map (fun b => dat b :: unread es b) (filter is_open (blk es)).

(** The record at the minimum of the heap. *)
Definition heap_min (es : extsort_t) (h : list nat) : record :=
  dat (nth (nth 0 h 0%nat) (blk es) blk_null).

(** The estimate [extsort_push] adds for one record, and the test it makes. *)
Definition delta_of (es : extsort_t) : Z :=
  to_int (wrap_size (sizeof_voidp + dat_size es)).
Definition over_budget (es : extsort_t) : bool :=
  (negb (nbuf es =? 0)%nat
   && (wrap_size (mem es + wrap_size (delta_of es)) >? max_mem es))%bool.

(** A session as [extsort_init] leaves it, before the first push.  The
    record size fits an [int], the type in which [extsort_sort] and
    [extsort_shift] keep the count that [_blk_read] returns.  Nothing is
    buffered; the buffer is allocated or, if it is NULL, no capacity is
    recorded for it, so that the first push allocates it.  The scratch
    slot has the [dat_size] bytes that [extsort_init] allocates. *)
Record fresh (f : extsort_cmp_f) (es : extsort_t) : Prop := {
  fresh_cmp : cmp es = Some f;
  fresh_prefix : tmp_prefix es <> None;
  fresh_size : 0 < dat_size es <= INT_MAX;
  fresh_buf : buffered es = [];
  fresh_mbuf : buf es = None -> mbuf es = 0;
  fresh_blk : blk es = [];
  fresh_mem : mem es = 0;
  fresh_tmp : length (tmp_dat es) = rec_len es
}.

(** The sessions reached from [es] by pulls. *)
Inductive pulled (es : extsort_t) : extsort_t -> Prop :=
| pulled_none : pulled es es
| pulled_more es1 es2 r :
    pulled es es1 -> extsort_shift es1 = Ok (r, es2) -> pulled es es2.

(** Exactly [n] calls of [extsort_shift]; what each returned. *)
Fixpoint shift_times (n : nat) (es : extsort_t)
  : result (list (option record) * extsort_t) :=
  match n with
  | O => Ok ([], es)
  | S n' =>
      '(r, es1) <- extsort_shift es ;;
      '(rs, es2) <- shift_times n' es1 ;;
      Ok (r :: rs, es2)
  end.

(** ** A concrete comparator and a concrete sort *)

Module Sample.
(** Records of two bytes ordered by their first byte. *)
Definition key (r : record) : Z := Z.of_N (Byte.to_N (hd x00 r)).
Definition by_key : extsort_cmp_f := fun a b => key a - key b.

Fixpoint place (f : extsort_cmp_f) (x : record) (l : list record)
  : list record :=
  match l with
  | [] => [x]
  | y :: t => if f x y <=? 0 then x :: y :: t else y :: place f x t
  end.

Fixpoint insertion_sort (f : extsort_cmp_f) (l : list record) : list record :=
  match l with
  | [] => []
  | x :: t => place f x (insertion_sort f t)
  end.

Definition no_parse (s : string) : Z := 0.

Definition prefix : string := "/tmp/bcftools-sort.XXXXXX"%string.

(** alloc, DAT_SIZE = 2, FUNC_CMP = by_key, a budget of [budget] bytes,
    init. *)
Definition session (budget : Z) : extsort_t :=
  mk_es 2 0 budget (Some prefix) (Some by_key) 0 [] None [x00; x00] None.

(** The session of budget 20 after pushing r5 and r3. *)
Definition after_two : extsort_t :=
  mk_es 2 20 20 (Some prefix) (Some by_key) 2 []
        (Some [[x05; x00]; [x03; x00]]) [x00; x00] None.

(** The session of budget 20 after pushing r5, r3 and r4: the third push
    found the estimate at 20 and flushed r3 and r5 into the first Run. *)
Definition after_three : extsort_t :=
  mk_es 2 10 20 (Some prefix) (Some by_key) 2
        [mk_blk 3 prefix [x00; x00] [x03; x00; x05; x00] 0]
        (Some [[x04; x00]]) [x00; x00] None.

(** An open Run whose file holds one whole record, then one byte. *)
Definition torn_run : blk_t :=
  mk_blk 3 prefix [x00; x00] [x07; x00; x09] 0.

(** The same Run after one read. *)
Definition torn_next : blk_t :=
  mk_blk 3 prefix [x07; x00] [x07; x00; x09] 2.

Definition r5 : record := [x05; x00].
Definition r3 : record := [x03; x00].
Definition r4 : record := [x04; x00].
Definition r1 : record := [x01; x00].
Definition r2 : record := [x02; x00].
End Sample.

(** ** Invariants of the two phases *)

(** A Run as [_buf_flush] leaves it: open, rewound, holding whole records
    in order, at least one. *)
Definition run_written (f : extsort_cmp_f) (sz : nat) (b : blk_t) : Prop :=
  fd b <> -1 /\ f_pos b = 0%nat /\ (length (dat b) <= sz)%nat /\
  exists rs, rs <> [] /\ f_data b = concat rs /\
             Forall (fun r => length r = sz) rs /\
             StronglySorted (cmp_le f) rs.

(** A Run in the heap: open, its head not after the whole records that
    follow the offset, which are in order. *)
Definition run_merging (f : extsort_cmp_f) (sz : nat) (b : blk_t) : Prop :=
  fd b <> -1 /\
  exists rs, skipn (f_pos b) (f_data b) = concat rs /\
             Forall (fun r => length r = sz) rs /\
             StronglySorted (cmp_le f) (dat b :: rs).

(** The head of block [i] and the records left in its file. *)
Definition run_rest (es : extsort_t) (i : nat) : list record :=
  let b := nth i (blk es) blk_null in dat b :: unread es b.

(** The records the heap [h] still has to deliver. *)
Definition remaining (es : extsort_t) (h : list nat) : list record :=
  flat_map (run_rest es) h.

(** Between pushes. *)
Record ingesting (f : extsort_cmp_f) (es : extsort_t) : Prop := {
  ing_cmp : cmp es = Some f;
  ing_prefix : tmp_prefix es <> None;
  ing_size : 0 < dat_size es <= INT_MAX;
  ing_buf : Forall (fun r => length r = rec_len es) (buffered es);
  ing_mbuf : buf es = None -> mbuf es = 0;
  ing_blk : Forall (run_written f (rec_len es)) (blk es);
  ing_tmp : (length (tmp_dat es) <= rec_len es)%nat
}.

(** The heap [h] over the blocks of [es]: in heap order, without
    repetition, each cell a Run being merged. *)
Record heap_runs (f : extsort_cmp_f) (es : extsort_t) (h : list nat)
  : Prop := {
  hr_cmp : cmp es = Some f;
  hr_size : 0 < dat_size es <= INT_MAX;
  hr_nodup : NoDup h;
  hr_heap : KHeap.heap_ordered 0%nat (blk_is_smaller es) h;
  hr_in : forall i, In i h ->
            (i < nblk es)%nat /\
            run_merging f (rec_len es) (nth i (blk es) blk_null)
}.

(** Between pulls; [k] blocks have been opened by [extsort_sort] (all of
    them once it returns).  The blocks outside the heap are closed. *)
Record merging (f : extsort_cmp_f) (es : extsort_t) (h : list nat) (k : nat)
  : Prop := {
  mrg_runs : heap_runs f es h;
  mrg_lt : forall i, In i h -> (i < k)%nat;
  mrg_out : forall i, (i < k)%nat -> ~ In i h ->
              fd (nth i (blk es) blk_null) = -1;
  mrg_later : forall i, (k <= i < nblk es)%nat ->
                run_written f (rec_len es) (nth i (blk es) blk_null);
  mrg_bound : (k <= nblk es)%nat;
  mrg_dat : forall i, (i < nblk es)%nat ->
              (length (dat (nth i (blk es) blk_null)) <= rec_len es)%nat;
  mrg_tmp : (length (tmp_dat es) <= rec_len es)%nat
}.

(** ** The rest of the interface *)

(** [extsort_destroy].  The loop over the blocks closes every descriptor
    that is still open; what comes back is the list of the descriptors
    handed to [close], in the order of the calls.  The memory it frees is
    not modelled. *)
Fixpoint destroy_loop (bs : list blk_t) : list Z :=
  match bs with
  | [] => []
  | b :: rest =>
      (if negb (fd b =? -1) then [fd b] else []) ++ destroy_loop rest
  end.

Definition extsort_destroy (es : extsort_t) : list Z := destroy_loop (blk es).

(** A sequence of [extsort_set] calls, up to the first that does not
    return. *)
Fixpoint set_all (parse : string -> Z) (es : extsort_t)
         (kvs : list (extsort_opt_t * opt_value)) : result extsort_t :=
  match kvs with
  | [] => Ok es
  | (key, value) :: rest =>
      es <- extsort_set parse es key value ;; set_all parse es rest
  end.

(** At most [n] calls of [_blk_read] on one block, up to the first that
    returns 0: the heads read, in order, and the block left. *)
Fixpoint read_run (n : nat) (es : extsort_t) (b : blk_t)
  : result (list record * blk_t) :=
  match n with
  | O => Ok ([], b)
  | S n' =>
      '(ret, b1) <- _blk_read es b ;;
      if ret =? 0 then Ok ([], b1)
      else
        '(rs, b2) <- read_run n' es b1 ;;
        Ok (dat b1 :: rs, b2)
  end.

(** ** Notions of the further statements *)

(** The number of records a Run written while pushing holds: as many as
    fit the budget, and one at least. *)
Definition run_capacity (es : extsort_t) : nat :=
  Z.to_nat (Z.max 1 (max_mem es / (dat_size es + sizeof_voidp))).

(** No two different records of [l] tie under the comparator. *)
Definition tie_free (f : extsort_cmp_f) (l : list record) : Prop :=
  forall a b, In a l -> In b l -> f a b = 0 -> a = b.

(** [es'] has the blocks of [es], with the same files; a descriptor is
    the same or closed. *)
Definition same_files (es es' : extsort_t) : Prop :=
  nblk es' = nblk es /\
  forall i,
    f_data (nth i (blk es') blk_null) = f_data (nth i (blk es) blk_null) /\
    (fd (nth i (blk es') blk_null) = fd (nth i (blk es) blk_null) \/
     fd (nth i (blk es') blk_null) = -1).

(** The configuration of a session: what [extsort_set] writes. *)
Definition same_config (es es' : extsort_t) : Prop :=
  dat_size es' = dat_size es /\ max_mem es' = max_mem es /\
  cmp es' = cmp es /\ tmp_prefix es' = tmp_prefix es.

(** The descriptor of an open block is the one [mkstemp] gave it. *)
Definition descriptors_in_place (es : extsort_t) : Prop :=
  forall i, (i < nblk es)%nat ->
    fd (nth i (blk es) blk_null) = mkstemp_fd i \/
    fd (nth i (blk es) blk_null) = -1.

(** The Runs while pushing, [n] records having been pushed into the
    session [es0]: every Run holds [run_capacity es0] records, the buffer
    the rest, with the estimate kept to the record. *)
Definition filling (f : extsort_cmp_f) (es0 es : extsort_t) (n : nat)
  : Prop :=
  ingesting f es /\ same_config es0 es /\
  n = (nblk es * run_capacity es0 + nbuf es)%nat /\
  (nbuf es <= run_capacity es0)%nat /\
  ((0 < n)%nat -> (1 <= nbuf es)%nat) /\
  mem es = Z.of_nat (nbuf es) * (dat_size es0 + sizeof_voidp) /\
  Forall (fun b => length (stored es b) = run_capacity es0) (blk es).

(** A session between [extsort_alloc] and [extsort_init]: nothing is
    buffered or spilled, and the budget is a positive [size_t]. *)
Definition unstarted (es : extsort_t) : Prop :=
  buf es = None /\ mbuf es = 0 /\ blk es = [] /\ mem es = 0 /\
  bhp es = None /\
  0 < max_mem es < 2 ^ 64 /\ 0 <= dat_size es < 2 ^ 64.

(** * Proofs *)

(** ** Facts on arrays *)

Section ArrayFacts.
Context {A : Type}.
Variable d : A.
Local Open Scope nat_scope.

Lemma array_set_length (l : list A) i x : length (array_set l i x) = length l.
Proof.
  revert i; induction l as [|a l IH]; intros [|i]; simpl; auto.
Qed.

Lemma nth_array_set_eq (l : list A) i x :
  i < length l -> nth i (array_set l i x) d = x.
Proof.
  revert i; induction l as [|a l IH]; intros [|i]; simpl; intros; try lia; auto.
  apply IH; lia.
Qed.

Lemma nth_array_set_neq (l : list A) i j x :
  i <> j -> nth j (array_set l i x) d = nth j l d.
Proof.
  revert i j; induction l as [|a l IH]; intros [|i] [|j]; simpl; intros;
    try lia; auto.
Qed.

Lemma array_set_same (l : list A) i : array_set l i (nth i l d) = l.
Proof.
  revert i; induction l as [|a l IH]; intros [|i]; simpl; auto.
  now rewrite IH.
Qed.

Lemma array_set_twice (l : list A) i x y :
  array_set (array_set l i x) i y = array_set l i y.
Proof.
  revert i; induction l as [|a l IH]; intros [|i]; simpl; auto.
  now rewrite IH.
Qed.

Lemma array_set_last (l : list A) x y :
  array_set (l ++ [y]) (length l) x = l ++ [x].
Proof.
  induction l as [|a l IH]; simpl; auto. now rewrite IH.
Qed.

Lemma array_set_perm (l : list A) i x :
  i < length l -> Permutation (nth i l d :: array_set l i x) (x :: l).
Proof.
  revert i; induction l as [|a l IH]; intros [|i]; simpl; intros; try lia.
  - apply perm_swap.
  - rewrite perm_swap. rewrite (IH i) by lia. apply perm_swap.
Qed.

Lemma array_set_move_perm (l : list A) i p x :
  i < length l -> p < length l -> i <> p ->
  Permutation (array_set (array_set l i (nth p l d)) p x) (array_set l i x).
Proof.
  intros Hi Hp Hne.
  apply Permutation_cons_inv with (a := nth i l d).
  apply Permutation_cons_inv with (a := nth p l d).
  assert (Hp' : p < length (array_set l i (nth p l d)))
    by now rewrite array_set_length.
  pose proof (array_set_perm _ p x Hp') as H1.
  rewrite nth_array_set_neq in H1 by assumption.
  pose proof (array_set_perm l i (nth p l d) Hi) as H2.
  pose proof (array_set_perm l i x Hi) as H3.
  transitivity (x :: nth p l d :: l).
  - rewrite perm_swap, H1, perm_swap, H2. reflexivity.
  - rewrite H3. apply perm_swap.
Qed.

Lemma nth_removelast (l : list A) j :
  S j < length l -> nth j (removelast l) d = nth j l d.
Proof.
  revert j; induction l as [|a l IH]; simpl; intros j Hj; try lia.
  destruct l as [|b l]; simpl in *; try lia.
  destruct j; auto. apply IH. lia.
Qed.

Lemma removelast_length (l : list A) : length (removelast l) = length l - 1.
Proof.
  induction l as [|a l IH]; simpl; auto.
  destruct l; simpl in *; auto. rewrite IH. lia.
Qed.

Lemma root_moved_perm (l : list A) :
  l <> [] ->
  Permutation (nth 0 l d :: array_set (removelast l) 0 (last l d)) l.
Proof.
  destruct l as [|a t]; [congruence|]. intros _.
  destruct t as [|b t]; [reflexivity|].
  change (removelast (a :: b :: t)) with (a :: removelast (b :: t)).
  change (last (a :: b :: t) d) with (last (b :: t) d).
  cbn [nth array_set]. apply perm_skip.
  pose proof (app_removelast_last d (l := b :: t) ltac:(congruence)) as E.
  transitivity (removelast (b :: t) ++ [last (b :: t) d]).
  - apply Permutation_cons_append.
  - rewrite <- E. reflexivity.
Qed.

Lemma skipn_array_set (l : list A) i n x :
  i < n -> skipn n (array_set l i x) = skipn n l.
Proof.
  revert i n; induction l as [|a l IH]; intros [|i] [|n] H; simpl;
    try lia; auto.
  apply IH. lia.
Qed.

Lemma skipn_nth_cons (l : list A) n :
  n < length l -> skipn n l = nth n l d :: skipn (S n) l.
Proof.
  revert n; induction l as [|a l IH]; intros [|n] H; simpl in *;
    try lia; auto.
  apply IH. lia.
Qed.
End ArrayFacts.

(** ** Facts on the heap *)

Module KHeapFacts.
Import KHeap.
Local Open Scope nat_scope.

Lemma parent_child (j : nat) :
  0 < j -> j = khp_lchild (khp_parent j) \/ j = khp_rchild (khp_parent j).
Proof.
  intros Hj. unfold khp_lchild, khp_rchild, khp_parent.
  pose proof (Nat.div_mod_eq (j - 1) 2) as E.
  pose proof (Nat.mod_upper_bound (j - 1) 2) as B.
  lia.
Qed.

Lemma parent_below (j : nat) : 0 < j -> khp_parent j < j.
Proof.
  intros Hj. destruct (parent_child j Hj) as [E|E];
    unfold khp_lchild, khp_rchild in E; lia.
Qed.

Section Order.
Context {A : Type}.
Variable d : A.
Variable is_smaller : A -> A -> bool.

Hypothesis smaller_is_not_after :
  forall a b, is_smaller a b = true -> not_after is_smaller a b.
Hypothesis not_after_chain :
  forall a b c, not_after is_smaller a b -> not_after is_smaller b c ->
                not_after is_smaller a c.

Local Notation "a <<= b" := (not_after is_smaller a b) (at level 70).
Local Abbreviation ordered := (heap_ordered d is_smaller).
Local Abbreviation above := (ordered_above d is_smaller).
Local Abbreviation below := (ordered_below d is_smaller).

Lemma not_after_refl a : a <<= a.
Proof.
  unfold not_after. destruct (is_smaller a a) eqn:E; auto.
  pose proof (smaller_is_not_after _ _ E) as E'. unfold not_after in E'.
  congruence.
Qed.

Lemma root_minimal (h : list A) :
  ordered h -> forall j, j < length h -> nth 0 h d <<= nth j h d.
Proof.
  intros Hh j. induction j as [j IH] using lt_wf_ind. intros Hj.
  destruct (Nat.eq_dec j 0) as [->|Hne]; [apply not_after_refl|].
  pose proof (parent_below j ltac:(lia)) as Hp.
  apply not_after_chain with (b := nth (khp_parent j) h d).
  - apply IH; lia.
  - apply Hh. lia.
Qed.

Ltac nth_set :=
  repeat first
    [ rewrite array_set_length in *
    | rewrite nth_array_set_eq by (rewrite ?array_set_length; lia)
    | rewrite nth_array_set_neq by lia ].

Lemma sift_up_ordered fuel : forall (h : list A) i x,
  i <= fuel -> i < length h ->
  above (array_set h i x) i -> ordered (sift_up d is_smaller fuel h i x).
Proof.
  induction fuel as [|fuel IH]; intros h i x Hfuel Hi [P1 P2]; simpl.
  - assert (i = 0) by lia; subst i.
    intros j Hj. apply P1; [exact Hj | lia].
  - destruct (Nat.eqb_spec i 0) as [->|Hi0].
    { intros j Hj. apply P1; [exact Hj | lia]. }
    pose proof (parent_below i ltac:(lia)) as Hp.
    set (p := khp_parent i) in *.
    destruct (is_smaller x (nth p h d)) eqn:Hlt.
    + apply smaller_is_not_after in Hlt.
      rewrite array_set_length in P1, P2.
      apply IH; [lia | rewrite array_set_length; lia |].
      split; nth_set.
      * intros j Hj Hjp.
        destruct (Nat.eq_dec j i) as [->|Hji].
        { fold p. nth_set. exact Hlt. }
        pose proof (parent_below j ltac:(lia)) as Hpj.
        specialize (P1 j Hj Hji). specialize (P2 j Hj).
        destruct (Nat.eq_dec (khp_parent j) i) as [Epi|Npi].
        { rewrite Epi in *. nth_set. fold p in P2. revert P2. nth_set.
          intros P2. apply P2; auto; lia. }
        destruct (Nat.eq_dec (khp_parent j) p) as [Epp|Npp].
        { rewrite Epp in *. revert P1. nth_set. intros P1.
          eapply not_after_chain; [exact Hlt | exact P1]. }
        revert P1. nth_set. auto.
      * intros j Hj Epj Hp0.
        pose proof (parent_below p Hp0) as Hpp.
        pose proof (parent_below j ltac:(lia)) as Hpj.
        assert (P1p := P1 p ltac:(lia) ltac:(lia)). revert P1p. nth_set.
        intros P1p.
        destruct (Nat.eq_dec j i) as [->|Hji]; nth_set; [exact P1p|].
        assert (P1j := P1 j Hj Hji). rewrite Epj in P1j. revert P1j.
        nth_set. intros P1j.
        eapply not_after_chain; [exact P1p | exact P1j].
    + intros j Hj. rewrite array_set_length in Hj, P1.
      destruct (Nat.eq_dec j i) as [->|Hji].
      * fold p. nth_set. exact Hlt.
      * apply P1; auto.
Qed.

Lemma sift_up_perm fuel : forall (h : list A) i x,
  i < length h ->
  Permutation (sift_up d is_smaller fuel h i x) (array_set h i x).
Proof.
  induction fuel as [|fuel IH]; intros h i x Hi; simpl; [reflexivity|].
  destruct (Nat.eqb_spec i 0) as [->|Hi0]; [reflexivity|].
  pose proof (parent_below i ltac:(lia)) as Hp.
  destruct (is_smaller x (nth (khp_parent i) h d)); [|reflexivity].
  rewrite IH by (rewrite array_set_length; lia).
  apply array_set_move_perm; lia.
Qed.

Lemma khp_insert_perm (h : list A) x :
  Permutation (khp_insert d is_smaller h x) (x :: h).
Proof.
  unfold khp_insert. rewrite sift_up_perm by (rewrite length_app; simpl; lia).
  rewrite array_set_last. symmetry. apply Permutation_cons_append.
Qed.

Lemma khp_insert_ordered (h : list A) x :
  ordered h -> ordered (khp_insert d is_smaller h x).
Proof.
  intros Hh. unfold khp_insert.
  apply sift_up_ordered; [lia | rewrite length_app; simpl; lia |].
  rewrite array_set_last. split.
  - intros j Hj Hne. rewrite length_app in Hj; simpl in Hj.
    pose proof (parent_below j ltac:(lia)).
    rewrite !app_nth1 by lia. apply Hh; lia.
  - intros j Hj Epj _. rewrite length_app in Hj; simpl in Hj.
    pose proof (parent_below j ltac:(lia)). lia.
Qed.

Lemma khp_swap_perm (h : list A) i e :
  i < length h -> e < length h -> i <> e ->
  Permutation (khp_swap d h i e) h.
Proof.
  intros Hi He Hne. unfold khp_swap.
  rewrite array_set_move_perm by assumption.
  now rewrite array_set_same.
Qed.

Lemma khp_heapify_perm fuel : forall (h : list A) i,
  Permutation (khp_heapify d is_smaller fuel h i) h.
Proof.
  induction fuel as [|fuel IH]; intros h i; simpl; [reflexivity|].
  unfold khp_lchild, khp_rchild.
  destruct (Nat.ltb_spec (2 * i + 1) (length h)) as [Hl|Hl];
    destruct (Nat.ltb_spec (2 * i + 2) (length h)) as [Hr|Hr]; simpl;
    repeat match goal with
           | |- context [if is_smaller ?a ?b then _ else _] =>
               destruct (is_smaller a b)
           | |- context [(?a =? ?b)] => destruct (Nat.eqb_spec a b)
           end;
    try reflexivity; try lia;
    (rewrite IH; apply khp_swap_perm; lia).
Qed.

Lemma khp_heapify_ordered fuel : forall (h : list A) i,
  length h <= fuel + i -> i < length h ->
  below h i -> ordered (khp_heapify d is_smaller fuel h i).
Proof.
  induction fuel as [|fuel IH]; intros h i Hfuel Hi [Q1 Q2]; simpl; [lia|].
  set (l := khp_lchild i). set (r := khp_rchild i).
  assert (Hl : l = 2 * i + 1) by reflexivity.
  assert (Hr : r = 2 * i + 2) by reflexivity.
  assert (Hkids : forall j, 0 < j -> khp_parent j = i -> j = l \/ j = r).
  { intros j Hj E. destruct (parent_child j Hj) as [C|C];
      rewrite E in C; auto. }
  (* the cell chosen among [i] and its children is not after the others *)
  assert (Hsel : forall e,
    e = (if (r <? length h) &&
            is_smaller (nth r h d)
              (nth (if (l <? length h) && is_smaller (nth l h d) (nth i h d)
                    then l else i) h d)
         then r
         else if (l <? length h) && is_smaller (nth l h d) (nth i h d)
              then l else i) ->
    (e = i \/ ((e = l \/ e = r) /\ e < length h)) /\
    nth e h d <<= nth i h d /\
    (l < length h -> nth e h d <<= nth l h d) /\
    (r < length h -> nth e h d <<= nth r h d)).
  { intros e He.
    destruct (Nat.ltb_spec l (length h)) as [Ll|Ll];
      destruct (Nat.ltb_spec r (length h)) as [Lr|Lr]; simpl in He;
      try lia.
    - destruct (is_smaller (nth l h d) (nth i h d)) eqn:Sl;
        [ destruct (is_smaller (nth r h d) (nth l h d)) eqn:Sr
        | destruct (is_smaller (nth r h d) (nth i h d)) eqn:Sr ];
        subst e;
        repeat match goal with
               | H : is_smaller _ _ = true |- _ =>
                   apply smaller_is_not_after in H
               end;
        (split; [auto|]); repeat split; intros;
        eauto using not_after_refl.
    - destruct (is_smaller (nth l h d) (nth i h d)) eqn:Sl; subst e;
        repeat match goal with
               | H : is_smaller _ _ = true |- _ =>
                   apply smaller_is_not_after in H
               end;
        (split; [auto|]); repeat split; intros; try lia;
        eauto using not_after_refl.
    - subst e. (split; [auto|]); repeat split; intros; try lia.
      apply not_after_refl. }
  match goal with
  | |- ordered (if (?e0 =? i) then _ else _) => remember e0 as e eqn:Ee
  end.
  destruct (Hsel e eq_refl) as (Hcase & Hei & Hel & Her).
  clear Hsel Ee.
  destruct (Nat.eqb_spec e i) as [->|Hne].
  - intros j Hj.
    destruct (Nat.eq_dec (khp_parent j) i) as [E|N]; [|apply Q1; auto].
    rewrite E. destruct (Hkids j ltac:(lia) E) as [->| ->];
      [apply Hel | apply Her]; lia.
  - destruct Hcase as [?|[Hlr He]]; [contradiction|].
    assert (Hie : i < e) by lia.
    assert (Epe : khp_parent e = i).
    { pose proof (parent_child e ltac:(lia)) as C.
      unfold khp_lchild, khp_rchild in C. lia. }
    apply IH; unfold khp_swap;
      [rewrite !array_set_length; lia | rewrite !array_set_length; lia |].
    split; rewrite !array_set_length.
    + intros j Hj Npj.
      pose proof (parent_below j ltac:(lia)) as Hpj.
      destruct (Nat.eq_dec (khp_parent j) i) as [E|N].
      * rewrite E.
        rewrite (nth_array_set_neq d _ e i) by lia.
        rewrite nth_array_set_eq by lia.
        destruct (Nat.eq_dec j e) as [->|Nje].
        -- rewrite nth_array_set_eq by (rewrite array_set_length; lia).
           exact Hei.
        -- rewrite !nth_array_set_neq by lia.
           destruct (Hkids j ltac:(lia) E) as [->| ->];
             [apply Hel | apply Her]; lia.
      * rewrite (nth_array_set_neq d _ e (khp_parent j)) by lia.
        rewrite (nth_array_set_neq d _ i (khp_parent j)) by lia.
        destruct (Nat.eq_dec j e) as [->|Nje]; [congruence|].
        rewrite (nth_array_set_neq d _ e j) by lia.
        destruct (Nat.eq_dec j i) as [->|Nji].
        -- rewrite nth_array_set_eq by lia.
           apply Q2; auto; lia.
        -- rewrite nth_array_set_neq by lia. apply Q1; auto.
    + intros j Hj Epj _.
      pose proof (parent_below j ltac:(lia)) as Hpj.
      rewrite Epe.
      rewrite (nth_array_set_neq d _ e i) by lia.
      rewrite nth_array_set_eq by lia.
      rewrite !nth_array_set_neq by lia.
      rewrite <- Epj. apply Q1; [exact Hj | lia].
Qed.

Lemma delete_start (h : list A) :
  ordered h -> below (array_set (removelast h) 0 (last h d)) 0.
Proof.
  intros Hh. split; rewrite array_set_length, removelast_length.
  - intros j Hj Npj.
    pose proof (parent_below j ltac:(lia)) as Hpj.
    rewrite !nth_array_set_neq by lia.
    rewrite !(nth_removelast d) by lia.
    apply Hh. lia.
  - intros; lia.
Qed.

Lemma khp_delete_ordered_from (h : list A) :
  below (array_set (removelast h) 0 (last h d)) 0 ->
  ordered (khp_delete d is_smaller h).
Proof.
  intros Hb. unfold khp_delete. destruct h as [|a t].
  - intros j Hj; simpl in Hj; lia.
  - remember (array_set (removelast (a :: t)) 0 (last (a :: t) d)) as h1.
    assert (Hlen : length h1 = length t).
    { subst h1. rewrite array_set_length, removelast_length. simpl. lia. }
    destruct h1 as [|b h1].
    + simpl. intros j Hj; simpl in Hj; lia.
    + apply khp_heapify_ordered; simpl in *; try lia. exact Hb.
Qed.

Lemma khp_delete_perm (h : list A) :
  h <> [] -> Permutation (nth 0 h d :: khp_delete d is_smaller h) h.
Proof.
  intros Hne. unfold khp_delete. destruct h as [|a t]; [congruence|].
  rewrite khp_heapify_perm. apply root_moved_perm. exact Hne.
Qed.
End Order.

Section Agree.
Context {A : Type}.
Variable d : A.
Variables f g : A -> A -> bool.

Lemma ordered_below_agree (h : list A) i :
  (forall a b, In a h -> In b h -> f a b = g a b) ->
  ordered_below d f h i -> ordered_below d g h i.
Proof.
  intros Hfg [Q1 Q2]. split; unfold not_after in *.
  - intros j Hj Hp. pose proof (parent_below j ltac:(lia)).
    rewrite <- Hfg by (apply nth_In; lia). apply Q1; auto.
  - intros j Hj Hp Hi. pose proof (parent_below j ltac:(lia)).
    pose proof (parent_below i Hi).
    rewrite <- Hfg by (apply nth_In; lia). apply Q2; auto.
Qed.

Lemma heap_ordered_agree (h : list A) :
  (forall a b, In a h -> In b h -> f a b = g a b) ->
  heap_ordered d f h -> heap_ordered d g h.
Proof.
  intros Hfg Hh j Hj. specialize (Hh j Hj). unfold not_after in *.
  pose proof (parent_below j ltac:(lia)).
  rewrite <- Hfg by (apply nth_In; lia). exact Hh.
Qed.
End Agree.
End KHeapFacts.

Local Open Scope Z_scope.

(** ** Facts on the machine arithmetic *)

Lemma to_int_small (x : Z) : - 2 ^ 31 <= x <= INT_MAX -> to_int x = x.
Proof.
  unfold to_int, INT_MAX. intros H.
  rewrite Z.mod_small by lia. lia.
Qed.

Lemma wrap_size_small (x : Z) : 0 <= x < 2 ^ 64 -> wrap_size x = x.
Proof. unfold wrap_size. intros H. apply Z.mod_small. exact H. Qed.

Lemma wrap_size_range (x : Z) : 0 <= wrap_size x < 2 ^ 64.
Proof. unfold wrap_size. apply Z.mod_pos_bound. lia. Qed.

(** ** Facts on files *)

Lemma chunks_aux_concat (sz : nat) (rs : list record) : forall fuel,
  (0 < sz)%nat -> Forall (fun r => length r = sz) rs ->
  (length rs <= fuel)%nat -> chunks_aux fuel sz (concat rs) = rs.
Proof.
  induction rs as [|r rs IH]; intros fuel Hsz Hall Hfuel.
  - destruct fuel; reflexivity.
  - inversion Hall as [|? ? Hr Hrs]; subst.
    destruct fuel as [|fuel]; [simpl in Hfuel; lia|].
    simpl. destruct (r ++ concat rs) as [|c l] eqn:E.
    + destruct r; [simpl in Hsz; lia | discriminate].
    + rewrite <- E. rewrite firstn_app, Nat.sub_diag, firstn_O, app_nil_r.
      rewrite firstn_all. rewrite skipn_app, Nat.sub_diag, skipn_all. simpl.
      rewrite IH; auto. simpl in Hfuel. lia.
Qed.

Lemma chunks_concat (sz : nat) (rs : list record) :
  (0 < sz)%nat -> Forall (fun r => length r = sz) rs ->
  chunks sz (concat rs) = rs.
Proof.
  intros Hsz Hall. unfold chunks. apply chunks_aux_concat; auto.
  clear - Hsz Hall. induction Hall as [|r rs Hr Hrs IH]; simpl; [lia|].
  rewrite length_app. lia.
Qed.

Ltac proj :=
  cbn [dat_size mem max_mem tmp_prefix cmp mbuf blk buf buffered tmp_dat bhp
       set_dat_size set_mem set_max_mem set_tmp_prefix set_cmp set_mbuf
       set_blk set_buf set_tmp_dat set_bhp fd fname dat f_data f_pos set_fd
       set_dat bind] in *.

(** ** The store of a push *)

Lemma kroundup_ge (n : Z) : 0 < n -> n <= kroundup n.
Proof.
  intros H. unfold kroundup.
  destruct (Z.eq_dec n 1) as [->|N]; [cbn; lia|].
  apply Z.log2_up_spec. lia.
Qed.

Lemma push_inv (qsort : extsort_cmp_f -> list record -> list record)
      (es es' : extsort_t) (r : record) :
  extsort_push qsort es r = Ok es' ->
  exists es1 c,
    (if over_budget es then _buf_flush qsort es else Ok es) = Ok es1 /\
    es' = set_buf (Some (buffered es1 ++ [r]))
            (set_mbuf c
               (set_mem (wrap_size (mem es1 + wrap_size (delta_of es))) es1)).
Proof.
  unfold extsort_push. fold (delta_of es). fold (over_budget es).
  destruct (if over_budget es then _buf_flush qsort es else Ok es)
    as [es1| |]; cbn [bind]; try discriminate.
  intros E. exists es1. unfold hts_expand in E. proj.
  destruct (Z.of_nat (nbuf es1 + 1) >? mbuf es1).
  - proj. inversion E; subst es'. eexists. split; reflexivity.
  - proj. unfold buffered. destruct es1 as [d m mm tp c0 mb bl [cells|] td bh];
      proj; [|discriminate].
    inversion E; subst es'. exists mb. split; reflexivity.
Qed.

Lemma push_run (qsort : extsort_cmp_f -> list record -> list record)
      (es es1 : extsort_t) (r : record) :
  (if over_budget es then _buf_flush qsort es else Ok es) = Ok es1 ->
  (buf es1 = None -> mbuf es1 = 0) ->
  exists c,
    extsort_push qsort es r =
    Ok (set_buf (Some (buffered es1 ++ [r]))
          (set_mbuf c
             (set_mem (wrap_size (mem es1 + wrap_size (delta_of es))) es1))).
Proof.
  intros E Hroom.
  unfold extsort_push. fold (delta_of es). fold (over_budget es).
  rewrite E. cbn [bind]. unfold hts_expand. proj.
  destruct (Z.of_nat (nbuf es1 + 1) >? mbuf es1) eqn:En.
  - proj. eexists. reflexivity.
  - proj. unfold nbuf, buffered in *.
    destruct es1 as [d m mm tp c0 mb bl [cells|] td bh]; proj.
    + exists mb. reflexivity.
    + rewrite Hroom in En by reflexivity. cbn in En. discriminate.
Qed.

Section EngineFacts.
Variable qsort : extsort_cmp_f -> list record -> list record.
Hypothesis qsort_sorts : sorts qsort.

Variable f : extsort_cmp_f.
Hypothesis f_order : total_order f.

Lemma write_loop_appends (sz : Z) (rs : list record) : forall b,
  0 <= sz ->
  Forall (fun r => length r = Z.to_nat sz) rs ->
  f_pos b = length (f_data b) ->
  write_loop sz b rs =
    Ok (mk_blk (fd b) (fname b) (dat b) (f_data b ++ concat rs)
               (length (f_data b ++ concat rs))).
Proof.
  induction rs as [|r rs IH]; intros b Hsz Hall Hpos.
  - simpl. rewrite app_nil_r, <- Hpos. destruct b; reflexivity.
  - inversion Hall as [|? ? Hr Hrs]; subst. simpl.
    rewrite firstn_all2 by lia.
    replace (Z.of_nat (length r) =? sz) with true
      by (symmetry; apply Z.eqb_eq; lia).
    simpl. rewrite IH; auto; simpl.
    + rewrite Hpos, firstn_all, skipn_all2 by lia.
      rewrite app_nil_r, <- app_assoc. reflexivity.
    + rewrite Hpos, firstn_all, skipn_all2 by lia.
      rewrite app_nil_r, length_app. reflexivity.
Qed.

Lemma blk_read_record (es : extsort_t) (b : blk_t) (r : record) rest :
  0 < dat_size es ->
  fd b <> -1 ->
  length r = rec_len es ->
  (length (dat b) <= rec_len es)%nat ->
  skipn (f_pos b) (f_data b) = r ++ rest ->
  _blk_read es b =
    Ok (dat_size es,
        mk_blk (fd b) (fname b) r (f_data b) (f_pos b + rec_len es)).
Proof.
  intros Hsz Hfd Hr Hdat Hfile. unfold _blk_read, sys_read.
  destruct (Z.eqb_spec (fd b) (-1)) as [?|_]; [contradiction|].
  rewrite Hfile. fold (rec_len es). rewrite <- Hr.
  rewrite firstn_app, Nat.sub_diag, firstn_O, app_nil_r, firstn_all.
  rewrite skipn_all2 by lia. rewrite app_nil_r.
  assert (E : Z.of_nat (length r) = dat_size es)
    by (rewrite Hr; unfold rec_len; lia).
  rewrite E.
  destruct (Z.ltb_spec (dat_size es) 0); [lia|].
  destruct (Z.eqb_spec (dat_size es) 0); [lia|].
  rewrite Z.ltb_irrefl. reflexivity.
Qed.

Lemma blk_read_eof (es : extsort_t) (b : blk_t) :
  fd b <> -1 ->
  skipn (f_pos b) (f_data b) = [] ->
  _blk_read es b =
    Ok (0, mk_blk (-1) (fname b) (dat b) (f_data b) (f_pos b)).
Proof.
  intros Hfd Hfile. unfold _blk_read, sys_read.
  destruct (Z.eqb_spec (fd b) (-1)) as [?|_]; [contradiction|].
  rewrite Hfile, firstn_nil. simpl.
  rewrite Nat.add_0_r. reflexivity.
Qed.

Lemma mkstemp_fd_open (n : nat) : (mkstemp_fd n =? -1) = false.
Proof. apply Z.eqb_neq. unfold mkstemp_fd. lia. Qed.

Lemma buf_flush_run (es : extsort_t) (p : string) :
  cmp es = Some f -> tmp_prefix es = Some p -> 0 <= dat_size es ->
  buffered es <> [] ->
  Forall (fun r => length r = rec_len es) (buffered es) ->
  _buf_flush qsort es =
    Ok (set_mem 0 (set_buf (Some []) (set_blk
         (blk es ++ [mk_blk (mkstemp_fd (nblk es)) p (malloc (dat_size es))
                            (concat (qsort f (buffered es))) 0]) es))).
Proof.
  intros Hcmp Hpre Hsz Hne Hall. unfold _buf_flush.
  unfold nbuf. destruct (buffered es) as [|r0 l0] eqn:Ebuf; [congruence|].
  simpl Nat.eqb. cbv iota. rewrite Hcmp, Hpre.
  cbn [dat_size set_buf buf buffered nblk blk].
  destruct (qsort_sorts f (r0 :: l0) f_order) as [Hperm _].
  rewrite write_loop_appends.
  - proj. unfold sys_rewind. proj. rewrite mkstemp_fd_open. reflexivity.
  - exact Hsz.
  - eapply Permutation_Forall; [symmetry; exact Hperm | exact Hall].
  - reflexivity.
Qed.

(** *** The comparator and the order of the heap *)

Lemma cmp_le_flip a b : 0 <= f b a -> cmp_le f a b.
Proof.
  unfold cmp_le. pose proof (cmp_flip f f_order a b) as E.
  destruct (Z.sgn_spec (f a b)) as [[? ?]|[[? ?]|[? ?]]];
    destruct (Z.sgn_spec (f b a)) as [[? ?]|[[? ?]|[? ?]]]; lia.
Qed.

Lemma cmp_le_not_smaller a b : cmp_le f a b -> 0 <= f b a.
Proof.
  unfold cmp_le. pose proof (cmp_flip f f_order a b) as E.
  destruct (Z.sgn_spec (f a b)) as [[? ?]|[[? ?]|[? ?]]];
    destruct (Z.sgn_spec (f b a)) as [[? ?]|[[? ?]|[? ?]]]; lia.
Qed.

Lemma cmp_le_refl a : cmp_le f a a.
Proof.
  unfold cmp_le. pose proof (cmp_flip f f_order a a) as E.
  destruct (Z.sgn_spec (f a a)) as [[? ?]|[[? ?]|[? ?]]]; lia.
Qed.

Lemma not_after_cmp_le (es : extsort_t) a b :
  cmp es = Some f ->
  (KHeap.not_after (blk_is_smaller es) a b <->
   cmp_le f (dat (nth a (blk es) blk_null)) (dat (nth b (blk es) blk_null))).
Proof.
  intros Hcmp. unfold KHeap.not_after, blk_is_smaller. rewrite Hcmp.
  destruct (Z.ltb_spec (f (dat (nth b (blk es) blk_null))
                          (dat (nth a (blk es) blk_null))) 0) as [L|L].
  - split; [discriminate|]. intros H. apply cmp_le_not_smaller in H. lia.
  - split; [|reflexivity]. intros _. apply cmp_le_flip. exact L.
Qed.

Lemma smaller_not_after (es : extsort_t) :
  cmp es = Some f ->
  forall a b, blk_is_smaller es a b = true ->
              KHeap.not_after (blk_is_smaller es) a b.
Proof.
  intros Hcmp a b H. apply not_after_cmp_le; auto.
  unfold blk_is_smaller in H. rewrite Hcmp in H.
  destruct (Z.ltb_spec (f (dat (nth a (blk es) blk_null))
                          (dat (nth b (blk es) blk_null))) 0) as [L|L];
    [|discriminate].
  unfold cmp_le. lia.
Qed.

Lemma not_after_trans (es : extsort_t) :
  cmp es = Some f ->
  forall a b c, KHeap.not_after (blk_is_smaller es) a b ->
                KHeap.not_after (blk_is_smaller es) b c ->
                KHeap.not_after (blk_is_smaller es) a c.
Proof.
  intros Hcmp a b c. rewrite !not_after_cmp_le by assumption.
  apply (cmp_trans f f_order).
Qed.

(** Blocks that agree on the cells of a heap order it alike. *)
Lemma smaller_agree (es es' : extsort_t) (h : list nat) :
  cmp es' = cmp es ->
  (forall i, In i h -> nth i (blk es') blk_null = nth i (blk es) blk_null) ->
  forall a b, In a h -> In b h ->
              blk_is_smaller es a b = blk_is_smaller es' a b.
Proof.
  intros Hcmp Hblk a b Ha Hb. unfold blk_is_smaller.
  rewrite Hcmp, (Hblk a Ha), (Hblk b Hb). reflexivity.
Qed.

(** *** Ingestion *)

Lemma stored_written (es : extsort_t) (b : blk_t) (rs : list record) :
  0 < dat_size es -> f_data b = concat rs ->
  Forall (fun r => length r = rec_len es) rs -> stored es b = rs.
Proof.
  intros Hsz E Hall. unfold stored. rewrite E.
  apply chunks_concat; auto. unfold rec_len. lia.
Qed.

Lemma stored_same_size (es es' : extsort_t) (l : list blk_t) :
  dat_size es' = dat_size es ->
  flat_map (stored es') l = flat_map (stored es) l.
Proof.
  intros E. apply flat_map_ext. intros b. unfold stored, rec_len.
  now rewrite E.
Qed.

Lemma flush_ingesting (es : extsort_t) :
  ingesting f es ->
  exists es', _buf_flush qsort es = Ok es' /\ ingesting f es' /\
              buffered es' = [] /\ dat_size es' = dat_size es /\
              Permutation (flat_map (stored es') (blk es'))
                          (flat_map (stored es) (blk es) ++ buffered es).
Proof.
  intros [Hcmp Hpre Hsz Hbuf Hroom Hblk Htmp].
  destruct (buffered es) as [|r0 l0] eqn:Ebuf.
  - exists es. unfold _buf_flush, nbuf. rewrite Ebuf. simpl.
    split; [reflexivity|]. split; [|split; [reflexivity|split; [reflexivity|]]].
    + constructor; auto. rewrite Ebuf. constructor.
    + rewrite app_nil_r. reflexivity.
  - destruct (tmp_prefix es) as [p|] eqn:Epre; [|congruence].
    rewrite buf_flush_run with (p := p); auto;
      try lia; try (rewrite Ebuf; auto; congruence).
    rewrite Ebuf.
    destruct (qsort_sorts f (r0 :: l0) f_order) as [Hperm Hsorted].
    set (rs := qsort f (r0 :: l0)) in *.
    assert (Hlen : Forall (fun r => length r = rec_len es) rs)
      by (eapply Permutation_Forall; [symmetry; exact Hperm | exact Hbuf]).
    eexists. split; [reflexivity|].
    split; [|split; [reflexivity | split; [reflexivity|]]].
    + constructor; change (rec_len _) with (rec_len es); proj; auto;
        try congruence.
      apply Forall_app. split; [exact Hblk|].
      constructor; [|constructor].
      unfold run_written; proj. unfold mkstemp_fd, malloc.
      rewrite repeat_length. fold (rec_len es).
      repeat split; try lia.
      exists rs. repeat split; auto.
      intros E. rewrite E in Hperm. apply Permutation_nil in Hperm.
      discriminate.
    + proj.
      rewrite flat_map_app. cbn [flat_map]. rewrite app_nil_r.
      apply Permutation_app.
      * rewrite (stored_same_size es) by reflexivity. reflexivity.
      * erewrite stored_written; [exact Hperm | proj; lia | reflexivity
                                  | exact Hlen].
Qed.

Lemma push_ingesting (es : extsort_t) (r : record) :
  ingesting f es -> length r = rec_len es ->
  exists es', extsort_push qsort es r = Ok es' /\ ingesting f es' /\
              dat_size es' = dat_size es /\
              Permutation (flat_map (stored es') (blk es') ++ buffered es')
                          (r :: flat_map (stored es) (blk es) ++ buffered es).
Proof.
  intros Hing Hr. destruct (over_budget es) eqn:Eover.
  - destruct (flush_ingesting es Hing)
      as (es1 & Ef & [Hcmp Hpre Hsz Hbuf Hroom Hblk Htmp] & Ebuf & Esz & Hperm).
    assert (Erl : rec_len es1 = rec_len es) by (unfold rec_len; congruence).
    destruct (push_run qsort es es1 r) as (c & ->);
      [rewrite Eover; exact Ef | exact Hroom |].
    eexists. split; [reflexivity|]. split; [|split].
    + constructor; change (rec_len _) with (rec_len es1); proj; auto;
        try discriminate.
      rewrite Ebuf. constructor; [|constructor]. congruence.
    + proj. exact Esz.
    + proj. rewrite Ebuf. cbn [app].
      rewrite (stored_same_size es1) by reflexivity.
      rewrite <- Permutation_cons_append. apply perm_skip.
      rewrite Hperm. reflexivity.
  - destruct Hing as [Hcmp Hpre Hsz Hbuf Hroom Hblk Htmp].
    destruct (push_run qsort es es r) as (c & ->);
      [rewrite Eover; reflexivity | exact Hroom |].
    eexists. split; [reflexivity|]. split; [|split].
    + constructor; change (rec_len _) with (rec_len es); proj; auto;
        try discriminate.
      apply Forall_app. split; [exact Hbuf|].
      constructor; [exact Hr|constructor].
    + reflexivity.
    + proj. rewrite (stored_same_size es) by reflexivity.
      rewrite app_assoc. rewrite <- Permutation_cons_append.
      apply perm_skip. reflexivity.
Qed.

Lemma push_all_ingesting (l : list record) : forall es,
  ingesting f es -> Forall (fun r => length r = rec_len es) l ->
  exists es', push_all qsort es l = Ok es' /\ ingesting f es' /\
              dat_size es' = dat_size es /\
              Permutation (flat_map (stored es') (blk es') ++ buffered es')
                          (l ++ flat_map (stored es) (blk es) ++ buffered es).
Proof.
  induction l as [|r l IH]; intros es Hing Hall.
  - exists es.
    split; [reflexivity | split; [exact Hing | split; reflexivity]].
  - inversion Hall as [|? ? Hr Hl]; subst.
    destruct (push_ingesting es r Hing Hr)
      as (es1 & E1 & Hing1 & Esz & Hperm1).
    destruct (IH es1 Hing1) as (es2 & E2 & Hing2 & Esz2 & Hperm2).
    { unfold rec_len in *. rewrite Esz. exact Hl. }
    exists es2. cbn [push_all]. rewrite E1. cbn [bind].
    split; [exact E2 | split; [exact Hing2 | split; [congruence|]]].
    rewrite Hperm2, Hperm1. symmetry. apply Permutation_middle.
Qed.

(** *** Retrieval *)

Lemma run_rest_agree (es es' : extsort_t) (j : nat) :
  dat_size es' = dat_size es ->
  nth j (blk es') blk_null = nth j (blk es) blk_null ->
  run_rest es' j = run_rest es j.
Proof.
  intros Esz Eb. unfold run_rest, unread, rec_len. now rewrite Esz, Eb.
Qed.

Lemma remaining_agree (es es' : extsort_t) (h : list nat) :
  dat_size es' = dat_size es ->
  (forall j, In j h -> nth j (blk es') blk_null = nth j (blk es) blk_null) ->
  remaining es' h = remaining es h.
Proof.
  intros Esz Eb. unfold remaining.
  induction h as [|a h IH]; [reflexivity|]. cbn [flat_map].
  rewrite (run_rest_agree es es' a Esz) by (apply Eb; now left).
  rewrite IH; [reflexivity|]. intros j Hj. apply Eb. now right.
Qed.

Lemma heap_runs_agree (es es' : extsort_t) (h : list nat) :
  cmp es' = cmp es -> dat_size es' = dat_size es ->
  length (blk es') = length (blk es) ->
  (forall j, In j h -> nth j (blk es') blk_null = nth j (blk es) blk_null) ->
  heap_runs f es h -> heap_runs f es' h.
Proof.
  intros Ecmp Esz Elen Eb [Hcmp Hsz Hnd Hheap Hin].
  constructor; try congruence.
  - eapply KHeapFacts.heap_ordered_agree; [|exact Hheap].
    apply smaller_agree; assumption.
  - intros j Hj. destruct (Hin j Hj) as [Hlt Hrun].
    unfold nblk, rec_len in *. rewrite Elen, Esz, (Eb j Hj). auto.
Qed.

Lemma unread_merging (es : extsort_t) (b : blk_t) (rs : list record) :
  0 < dat_size es ->
  skipn (f_pos b) (f_data b) = concat rs ->
  Forall (fun r => length r = rec_len es) rs ->
  unread es b = rs.
Proof.
  intros Hsz E Hall. unfold unread. rewrite E.
  apply chunks_concat; auto. unfold rec_len. lia.
Qed.

Lemma advance_run (es : extsort_t) (h : list nat) (i : nat) (b0 : blk_t)
      (rs : list record) :
  heap_runs f es h -> (i < nblk es)%nat -> ~ In i h ->
  fd b0 <> -1 ->
  skipn (f_pos b0) (f_data b0) = concat rs ->
  Forall (fun r => length r = rec_len es) rs ->
  StronglySorted (cmp_le f) rs ->
  (length (dat b0) <= rec_len es)%nat ->
  exists ret b',
    _blk_read es b0 = Ok (ret, b') /\
    heap_runs f (set_blk (array_set (blk es) i b') es)
      (if negb (to_int ret =? 0)
       then KHeap.khp_insert 0%nat
              (blk_is_smaller (set_blk (array_set (blk es) i b') es)) h i
       else h) /\
    Permutation
      (remaining (set_blk (array_set (blk es) i b') es)
         (if negb (to_int ret =? 0)
          then KHeap.khp_insert 0%nat
                 (blk_is_smaller (set_blk (array_set (blk es) i b') es)) h i
          else h))
      (rs ++ remaining es h) /\
    Permutation
      (if negb (to_int ret =? 0)
       then KHeap.khp_insert 0%nat
              (blk_is_smaller (set_blk (array_set (blk es) i b') es)) h i
       else h)
      (if negb (to_int ret =? 0) then i :: h else h) /\
    (to_int ret = 0 -> fd b' = -1 /\ rs = []) /\
    (to_int ret <> 0 -> rs <> []) /\
    (length (dat b') <= rec_len es)%nat.
Proof.
  intros Hruns Hi Hnot Hfd Hfile Hlen Hsorted Hdat.
  pose proof Hruns as [Hcmp Hsz Hnd Hheap Hin].
  assert (Hagree : forall b' j, In j h ->
            nth j (blk (set_blk (array_set (blk es) i b') es)) blk_null
            = nth j (blk es) blk_null).
  { intros b' j Hj. proj. apply nth_array_set_neq. congruence. }
  assert (Hruns' : forall b',
            heap_runs f (set_blk (array_set (blk es) i b') es) h).
  { intros b'.
    apply (heap_runs_agree es (set_blk (array_set (blk es) i b') es) h);
      [reflexivity | reflexivity | | apply Hagree | exact Hruns].
    proj. apply array_set_length. }
  destruct rs as [|r rs].
  - exists 0, (mk_blk (-1) (fname b0) (dat b0) (f_data b0) (f_pos b0)).
    rewrite blk_read_eof by assumption.
    change (negb (to_int 0 =? 0)) with false. cbv iota.
    split; [reflexivity|]. split; [apply Hruns'|].
    split; [|split; [reflexivity|split; [|split]]].
    + cbn [app]. rewrite (remaining_agree es); auto.
    + intros _. split; reflexivity.
    + intros C. exfalso. apply C. reflexivity.
    + exact Hdat.
  - inversion Hlen as [|? ? Hr Hrs]; subst.
    inversion Hsorted as [|? ? Hs Hfa]; subst.
    cbn [concat] in Hfile.
    exists (dat_size es),
           (mk_blk (fd b0) (fname b0) r (f_data b0) (f_pos b0 + rec_len es)).
    rewrite blk_read_record with (r := r) (rest := concat rs);
      auto; try lia.
    assert (Eint : to_int (dat_size es) = dat_size es)
      by (apply to_int_small; lia).
    rewrite Eint.
    destruct (Z.eqb_spec (dat_size es) 0) as [?|_]; [lia|].
    cbn [negb].
    set (b' := mk_blk (fd b0) (fname b0) r (f_data b0)
                      (f_pos b0 + rec_len es)) in *.
    set (es2 := set_blk (array_set (blk es) i b') es) in *.
    assert (Hcmp2 : cmp es2 = Some f) by exact Hcmp.
    assert (Hb' : nth i (blk es2) blk_null = b').
    { subst es2. proj. apply nth_array_set_eq. exact Hi. }
    assert (Hrest : skipn (f_pos b') (f_data b') = concat rs).
    { subst b'. proj. rewrite Nat.add_comm, <- skipn_skipn, Hfile.
      rewrite <- Hr, skipn_app, Nat.sub_diag, skipn_all. reflexivity. }
    pose proof (KHeapFacts.khp_insert_perm 0%nat (blk_is_smaller es2) h i)
      as Hperm.
    split; [reflexivity|]. split; [|split; [|split; [exact Hperm|split; [|split]]]].
    + constructor; auto.
      * eapply Permutation_NoDup; [symmetry; exact Hperm|].
        constructor; assumption.
      * apply KHeapFacts.khp_insert_ordered.
        -- apply smaller_not_after; exact Hcmp2.
        -- apply not_after_trans; exact Hcmp2.
        -- apply (hr_heap _ _ _ (Hruns' b')).
      * intros j Hj.
        apply (Permutation_in _ Hperm) in Hj. destruct Hj as [<-|Hj].
        -- split; [unfold nblk; subst es2; proj;
                   rewrite array_set_length; exact Hi|].
           rewrite Hb'. split; [exact Hfd|].
           exists rs. split; [exact Hrest|]. split; [exact Hrs|].
           subst b'. proj. constructor; assumption.
        -- apply (hr_in _ _ _ (Hruns' b')). exact Hj.
    + unfold remaining at 1. rewrite (Permutation_flat_map _ Hperm).
      cbn [flat_map]. fold (remaining es2 h).
      unfold es2 at 2. rewrite (remaining_agree es) by auto.
      unfold run_rest. rewrite Hb'.
      rewrite (unread_merging es2 b' rs);
        [reflexivity | exact (proj1 Hsz) | exact Hrest | exact Hrs].
    + intros C. lia.
    + intros _. discriminate.
    + subst b'. proj. lia.
Qed.

(** The records that [extsort_sort] still has to reach from round [k]. *)
Lemma sort_step_merging (es : extsort_t) (h : list nat) (k : nat) :
  merging f es h k -> bhp es = Some h -> (k < nblk es)%nat ->
  exists es' h',
    sort_step es k = Ok es' /\ bhp es' = Some h' /\
    merging f es' h' (S k) /\ nblk es' = nblk es /\
    dat_size es' = dat_size es /\
    Permutation
      (remaining es' h' ++ flat_map (stored es') (skipn (S k) (blk es')))
      (remaining es h ++ flat_map (stored es) (skipn k (blk es))).
Proof.
  intros [Hruns Hlt Hout Hlater Hbound Hdat Htmp] Hbhp Hk.
  pose proof Hruns as [Hcmp Hsz Hnd Hheap Hin].
  destruct (Hlater k ltac:(lia)) as (Hfd & Hpos & Hlen & rs & Hne & Hdata & Hall & Hsorted).
  set (b := nth k (blk es) blk_null) in *.
  assert (Hnot : ~ In k h) by (intros C; apply Hlt in C; lia).
  destruct (advance_run es h k
              (mk_blk (fd b) (fname b) (dat b) (f_data b) 0) rs)
    as (ret & b' & Eread & Hruns2 & Hperm2 & Hperm & Hzero & _ & Hdat');
    auto.
  assert (Hret : to_int ret <> 0).
  { intros C. apply Hzero in C. destruct C as [_ C]. contradiction. }
  unfold sort_step, sys_rewind. fold b.
  destruct (Z.eqb_spec (fd b) (-1)) as [?|_]; [contradiction|].
  cbn [negb Z.eqb]. rewrite Eread. proj.
  destruct (Z.eqb_spec (to_int ret) 0) as [?|_]; [contradiction|].
  cbn [negb] in *. rewrite Hbhp.
  set (es2 := set_blk (array_set (blk es) k b') es) in *.
  set (h2 := KHeap.khp_insert 0%nat (blk_is_smaller es2) h k) in *.
  assert (Hnth : forall j, j <> k ->
            nth j (blk es2) blk_null = nth j (blk es) blk_null).
  { intros j Hj. subst es2. proj. apply nth_array_set_neq. congruence. }
  assert (Hnblk : nblk es2 = nblk es).
  { unfold nblk. subst es2. proj. apply array_set_length. }
  exists (set_bhp (Some h2) es2), h2.
  split; [reflexivity|]. split; [reflexivity|].
  split; [|split; [exact Hnblk|split; [reflexivity|]]].
  - constructor.
    + apply (heap_runs_agree es2); auto.
    + intros j Hj. apply (Permutation_in _ Hperm) in Hj.
      destruct Hj as [<-|Hj]; [lia|]. apply Hlt in Hj. lia.
    + intros j Hj Hnin.
      assert (j <> k).
      { intros ->. apply Hnin. apply (Permutation_in _ (Permutation_sym Hperm)).
        now left. }
      change (blk (set_bhp (Some h2) es2)) with (blk es2).
      rewrite Hnth by assumption. apply Hout; [lia|].
      intros C. apply Hnin.
      apply (Permutation_in _ (Permutation_sym Hperm)). now right.
    + intros j Hj.
      change (blk (set_bhp (Some h2) es2)) with (blk es2).
      change (nblk (set_bhp (Some h2) es2)) with (nblk es2) in Hj.
      rewrite Hnth by lia. apply Hlater. lia.
    + change (nblk (set_bhp (Some h2) es2)) with (nblk es2). lia.
    + intros j Hj.
      change (blk (set_bhp (Some h2) es2)) with (blk es2).
      change (nblk (set_bhp (Some h2) es2)) with (nblk es2) in Hj.
      destruct (Nat.eq_dec j k) as [->|Hjk].
      * subst es2. proj. rewrite nth_array_set_eq by exact Hk. exact Hdat'.
      * rewrite Hnth by assumption. apply Hdat. lia.
    + exact Htmp.
  - rewrite (remaining_agree es2) by auto.
    change (blk (set_bhp (Some h2) es2)) with (blk es2).
    rewrite (stored_same_size es) by reflexivity.
    subst es2. proj. rewrite skipn_array_set by lia.
    rewrite (skipn_nth_cons blk_null (blk es) k) by exact Hk.
    cbn [flat_map]. fold b.
    rewrite (stored_written es b rs) by (auto; lia).
    rewrite Hperm2. rewrite <- !app_assoc.
    apply Permutation_app_swap_app.
Qed.

Lemma sort_loop_merging (n : nat) : forall (es : extsort_t) h k,
  merging f es h k -> bhp es = Some h -> (k + n = nblk es)%nat ->
  exists es' h',
    sort_loop es (seq k n) = Ok es' /\ bhp es' = Some h' /\
    merging f es' h' (nblk es') /\
    Permutation (remaining es' h')
      (remaining es h ++ flat_map (stored es) (skipn k (blk es))).
Proof.
  induction n as [|n IH]; intros es h k Hm Hbhp Hk.
  - exists es, h. cbn [seq sort_loop].
    replace (nblk es) with k by lia.
    split; [reflexivity|]. split; [exact Hbhp|]. split; [exact Hm|].
    unfold nblk in Hk. rewrite skipn_all2 by lia. cbn [flat_map].
    rewrite app_nil_r. reflexivity.
  - destruct (sort_step_merging es h k Hm Hbhp ltac:(lia))
      as (es1 & h1 & E1 & Hbhp1 & Hm1 & Hn1 & Hsz1 & Hperm1).
    destruct (IH es1 h1 (S k) Hm1 Hbhp1 ltac:(lia))
      as (es2 & h2 & E2 & Hbhp2 & Hm2 & Hperm2).
    exists es2, h2. cbn [seq sort_loop]. rewrite E1. proj.
    split; [exact E2|]. split; [exact Hbhp2|]. split; [exact Hm2|].
    rewrite Hperm2. exact Hperm1.
Qed.

Lemma sort_merging (es : extsort_t) :
  ingesting f es ->
  exists es' h',
    extsort_sort qsort es = Ok es' /\ bhp es' = Some h' /\
    merging f es' h' (nblk es') /\
    Permutation (remaining es' h')
                (flat_map (stored es) (blk es) ++ buffered es).
Proof.
  intros Hing.
  destruct (flush_ingesting es Hing)
    as (es1 & E1 & [Hcmp Hpre Hsz Hbuf Hroom Hblk Htmp] & Ebuf & Esz & Hperm).
  unfold extsort_sort. rewrite E1. proj.
  set (es2 := set_bhp (Some KHeap.khp_init) (set_buf None es1)).
  assert (Hm : merging f es2 [] 0).
  { constructor.
    - constructor; auto.
      + constructor.
      + intros j Hj. cbn in Hj. lia.
      + intros j [].
    - intros j [].
    - intros j Hj. lia.
    - intros j Hj. rewrite Forall_forall in Hblk.
      apply Hblk. apply nth_In. apply Hj.
    - lia.
    - intros j Hj. rewrite Forall_forall in Hblk.
      assert (Hw : run_written f (rec_len es1) (nth j (blk es1) blk_null))
        by (apply Hblk; apply nth_In; exact Hj).
      apply Hw.
    - exact Htmp. }
  destruct (sort_loop_merging (nblk es2) es2 [] 0 Hm eq_refl eq_refl)
    as (es3 & h3 & E3 & Hbhp3 & Hm3 & Hperm3).
  exists es3, h3. split; [exact E3|]. split; [exact Hbhp3|].
  split; [exact Hm3|].
  rewrite Hperm3. cbn [remaining flat_map app skipn].
  change (blk es2) with (blk es1).
  rewrite (stored_same_size es1) by reflexivity. exact Hperm.
Qed.

Lemma heap_min_least (es : extsort_t) (h : list nat) :
  heap_runs f es h ->
  Forall (cmp_le f (heap_min es h)) (remaining es h).
Proof.
  intros [Hcmp Hsz Hnd Hheap Hin].
  unfold remaining. rewrite Forall_forall. intros r Hr.
  apply in_flat_map in Hr. destruct Hr as (j & Hj & Hr).
  destruct (In_nth h j 0%nat Hj) as (n & Hn & En).
  pose proof (KHeapFacts.root_minimal 0%nat (blk_is_smaller es)
                (smaller_not_after es Hcmp) (not_after_trans es Hcmp)
                h Hheap n Hn) as Hroot.
  rewrite En in Hroot. apply not_after_cmp_le in Hroot; [|exact Hcmp].
  fold (heap_min es h) in Hroot.
  destruct (Hin j Hj) as (_ & _ & rs & Hfile & Hall & Hsorted).
  unfold run_rest in Hr. rewrite (unread_merging es _ rs) in Hr;
    [|lia | exact Hfile | exact Hall].
  destruct Hr as [<-|Hr]; [exact Hroot|].
  inversion Hsorted as [|? ? _ Hfa]; subst.
  rewrite Forall_forall in Hfa.
  eapply (cmp_trans f f_order); [exact Hroot | apply Hfa; exact Hr].
Qed.

Lemma shift_merging (es : extsort_t) (h : list nat) :
  merging f es h (nblk es) -> bhp es = Some h -> h <> [] ->
  exists es' h',
    extsort_shift es = Ok (Some (heap_min es h), es') /\
    bhp es' = Some h' /\ merging f es' h' (nblk es') /\
    Permutation (remaining es h) (heap_min es h :: remaining es' h').
Proof.
  intros [Hruns Hlt Hout Hlater Hbound Hdat Htmp] Hbhp Hne.
  pose proof Hruns as [Hcmp Hsz Hnd Hheap Hin].
  set (i := nth 0 h 0%nat).
  assert (Hi : In i h).
  { subst i. destruct h; [congruence | now left]. }
  set (b := nth i (blk es) blk_null).
  destruct (Hin i Hi) as (Hik & Hfd & rs & Hfile & Hall & Hsorted).
  fold b in Hfd, Hfile, Hsorted.
  set (es1 := set_blk (array_set (blk (set_tmp_dat (dat b) es)) i
                                 (set_dat (tmp_dat es) b))
                      (set_tmp_dat (dat b) es)).
  set (h1 := KHeap.khp_delete 0%nat (blk_is_smaller es1) h).
  assert (Hcmp1 : cmp es1 = Some f) by exact Hcmp.
  assert (Hnth1 : forall j, j <> i ->
            nth j (blk es1) blk_null = nth j (blk es) blk_null).
  { intros j Hj. subst es1. proj. apply nth_array_set_neq. congruence. }
  assert (Hnblk1 : nblk es1 = nblk es).
  { unfold nblk. subst es1. proj. apply array_set_length. }
  pose proof (KHeapFacts.khp_delete_perm 0%nat (blk_is_smaller es1) h Hne)
    as Hp1.
  fold i h1 in Hp1.
  assert (Hnd1 : NoDup (i :: h1))
    by (eapply Permutation_NoDup; [symmetry; exact Hp1 | exact Hnd]).
  inversion Hnd1 as [|? ? Hi1 Hnd1']; subst.
  assert (Hsub : forall j, In j h1 -> In j h /\ j <> i).
  { intros j Hj. split.
    - apply (Permutation_in _ Hp1). now right.
    - intros ->. contradiction. }
  assert (Hheap1 : KHeap.heap_ordered 0%nat (blk_is_smaller es1) h1).
  { apply KHeapFacts.khp_delete_ordered_from.
    - apply smaller_not_after; exact Hcmp1.
    - apply not_after_trans; exact Hcmp1.
    - eapply KHeapFacts.ordered_below_agree;
        [|apply (KHeapFacts.delete_start 0%nat (blk_is_smaller es));
          exact Hheap].
      pose proof (root_moved_perm 0%nat h Hne) as Hp0. fold i in Hp0.
      assert (Hnd0 : NoDup (i :: array_set (removelast h) 0 (last h 0%nat)))
        by (eapply Permutation_NoDup; [symmetry; exact Hp0 | exact Hnd]).
      inversion Hnd0 as [|? ? Hi0 _]; subst.
      apply smaller_agree; [reflexivity|].
      intros j Hj. apply Hnth1. intros ->. contradiction. }
  assert (Hruns1 : heap_runs f es1 h1).
  { constructor; auto.
    intros j Hj. destruct (Hsub j Hj) as [Hjh Hji].
    rewrite Hnblk1, (Hnth1 j Hji). apply Hin. exact Hjh. }
  assert (Hb0 : nth i (blk es1) blk_null = set_dat (tmp_dat es) b).
  { subst es1. proj. apply nth_array_set_eq. exact Hik. }
  inversion Hsorted as [|? ? Hsorted' Hfa]; subst.
  destruct (advance_run es1 h1 i (set_dat (tmp_dat es) b) rs)
    as (ret & b' & Eread & Hruns2 & Hperm2 & Hperm & Hzero & Hnz & Hdat');
    auto; try (rewrite Hnblk1; exact Hik).
  assert (Hnd0 : (KHeap.ndat h =? 0)%nat = false).
  { destruct h; [congruence | reflexivity]. }
  unfold extsort_shift. rewrite Hbhp, Hnd0.
  fold i. fold b. fold es1. fold h1. rewrite Hb0, Eread.
  cbn [bind].
  set (es2 := set_blk (array_set (blk es1) i b') es1) in *.
  set (h2 := if negb (to_int ret =? 0)
             then KHeap.khp_insert 0%nat (blk_is_smaller es2) h1 i
             else h1) in *.
  assert (Hnth2 : forall j, j <> i ->
            nth j (blk es2) blk_null = nth j (blk es) blk_null).
  { intros j Hj. subst es2. proj. rewrite nth_array_set_neq by congruence.
    apply Hnth1. exact Hj. }
  assert (Hnblk2 : nblk es2 = nblk es).
  { unfold nblk. subst es2. proj. rewrite array_set_length. exact Hnblk1. }
  assert (Hb2 : nth i (blk es2) blk_null = b').
  { subst es2. proj. apply nth_array_set_eq. change (i < nblk es1)%nat.
    rewrite Hnblk1. exact Hik. }
  assert (Hh1h2 : forall j, In j h1 -> In j h2).
  { intros j Hj. apply (Permutation_in _ (Permutation_sym Hperm)).
    destruct (negb (to_int ret =? 0)); [now right | exact Hj]. }
  exists (set_bhp (Some h2) es2), h2.
  split; [reflexivity|]. split; [reflexivity|]. split.
  - change (nblk (set_bhp (Some h2) es2)) with (nblk es2).
    constructor.
    + apply (heap_runs_agree es2); auto.
    + intros j Hj. rewrite <- Hnblk2 in *.
      apply (hr_in _ _ _ Hruns2). exact Hj.
    + intros j Hj Hnin.
      change (blk (set_bhp (Some h2) es2)) with (blk es2).
      destruct (Nat.eq_dec j i) as [->|Hji].
      * rewrite Hb2. apply Hzero.
        destruct (Z.eqb_spec (to_int ret) 0) as [E|N]; [exact E|].
        exfalso. apply Hnin.
        apply (Permutation_in _ (Permutation_sym Hperm)). now left.
      * rewrite Hnth2 by exact Hji. apply Hout; [lia|].
        intros C. apply Hnin. apply Hh1h2.
        apply (Permutation_in _ (Permutation_sym Hp1)) in C.
        destruct C as [C|C]; [congruence | exact C].
    + intros j Hj.
      change (nblk (set_bhp (Some h2) es2)) with (nblk es2) in Hj. lia.
    + change (nblk (set_bhp (Some h2) es2)) with (nblk es2). lia.
    + intros j Hj.
      change (blk (set_bhp (Some h2) es2)) with (blk es2).
      change (nblk (set_bhp (Some h2) es2)) with (nblk es2) in Hj.
      destruct (Nat.eq_dec j i) as [->|Hji].
      * rewrite Hb2. exact Hdat'.
      * rewrite Hnth2 by exact Hji. apply Hdat. lia.
    + apply (Hdat i Hik).
  - rewrite (remaining_agree es2 (set_bhp (Some h2) es2) h2)
      by (intros; reflexivity).
    rewrite Hperm2.
    rewrite (remaining_agree es es1 h1);
      [|reflexivity | intros j Hj; apply Hnth1; apply Hsub; exact Hj].
    unfold remaining at 1. rewrite <- (Permutation_flat_map _ Hp1).
    cbn [flat_map]. unfold run_rest at 1. fold b.
    rewrite (unread_merging es b rs); [|lia | exact Hfile | exact Hall].
    reflexivity.
Qed.

Lemma shift_empty (es : extsort_t) :
  bhp es = Some [] -> extsort_shift es = Ok (None, es).
Proof. intros H. unfold extsort_shift. rewrite H. reflexivity. Qed.

Lemma remaining_nil (es : extsort_t) (h : list nat) :
  remaining es h = [] -> h = [].
Proof. destruct h; [reflexivity | discriminate]. Qed.

Lemma pull_n_merging (n : nat) : forall (es : extsort_t) h,
  merging f es h (nblk es) -> bhp es = Some h ->
  (length (remaining es h) <= n)%nat ->
  exists out es',
    pull_n n es = Ok (out, es') /\
    Permutation out (remaining es h) /\
    StronglySorted (cmp_le f) out /\
    bhp es' = Some [] /\ merging f es' [] (nblk es').
Proof.
  induction n as [|n IH]; intros es h Hm Hbhp Hlen.
  - assert (h = []).
    { apply (remaining_nil es). destruct (remaining es h); [reflexivity|].
      simpl in Hlen. lia. }
    subst h. exists [], es. cbn [pull_n remaining flat_map].
    split; [reflexivity|]. split; [constructor|]. split; [constructor|].
    split; assumption.
  - destruct h as [|i0 h0] eqn:Eh.
    + exists [], es. cbn [pull_n]. rewrite (shift_empty es Hbhp). proj.
      cbn [remaining flat_map].
      split; [reflexivity|]. split; [constructor|]. split; [constructor|].
      split; assumption.
    + rewrite <- Eh in *.
      destruct (shift_merging es h Hm Hbhp ltac:(congruence))
        as (es1 & h1 & E1 & Hbhp1 & Hm1 & Hperm1).
      pose proof (heap_min_least es h (mrg_runs _ _ _ _ Hm)) as Hleast.
      destruct (IH es1 h1 Hm1 Hbhp1) as (out & es2 & E2 & Hp2 & Hs2 & Hb2 & Hm2).
      { apply Permutation_length in Hperm1. simpl in Hperm1. lia. }
      exists (heap_min es h :: out), es2.
      cbn [pull_n]. rewrite E1. proj. rewrite E2. proj.
      split; [reflexivity|]. split; [|split; [|split; assumption]].
      * rewrite Hperm1. apply perm_skip. exact Hp2.
      * constructor; [exact Hs2|].
        eapply Permutation_Forall; [symmetry; exact Hp2|].
        eapply Permutation_Forall in Hleast; [|exact Hperm1].
        inversion Hleast; assumption.
Qed.

Lemma fresh_ingesting (es : extsort_t) : fresh f es -> ingesting f es.
Proof.
  intros [Hcmp Hpre Hsz Hbuf Hroom Hblk Hmem Htmp].
  constructor; auto; [rewrite Hbuf | rewrite Hblk | rewrite Htmp];
    constructor.
Qed.

Lemma session_runs (es0 : extsort_t) (l : list record) :
  fresh f es0 -> Forall (fun r => length r = rec_len es0) l ->
  exists es1 es2 h,
    push_all qsort es0 l = Ok es1 /\
    extsort_sort qsort es1 = Ok es2 /\
    bhp es2 = Some h /\ merging f es2 h (nblk es2) /\
    Permutation (remaining es2 h) l.
Proof.
  intros Hfresh Hall.
  destruct (push_all_ingesting l es0 (fresh_ingesting es0 Hfresh) Hall)
    as (es1 & E1 & Hing1 & Esz1 & Hperm1).
  destruct (sort_merging es1 Hing1) as (es2 & h & E2 & Hbhp & Hm & Hperm2).
  exists es1, es2, h.
  split; [exact E1|]. split; [exact E2|]. split; [exact Hbhp|].
  split; [exact Hm|].
  rewrite Hperm2, Hperm1.
  rewrite (fresh_buf _ _ Hfresh), (fresh_blk _ _ Hfresh).
  cbn [flat_map app]. rewrite app_nil_r. reflexivity.
Qed.

Lemma session_pulls (es0 : extsort_t) (l : list record) :
  fresh f es0 -> Forall (fun r => length r = rec_len es0) l ->
  exists es1 es2,
    push_all qsort es0 l = Ok es1 /\
    extsort_sort qsort es1 = Ok es2 /\
    forall n, (length l <= n)%nat ->
      exists out es3,
        pull_n n es2 = Ok (out, es3) /\
        Permutation out l /\
        StronglySorted (cmp_le f) out /\
        extsort_shift es3 = Ok (None, es3).
Proof.
  intros Hfresh Hall.
  destruct (session_runs es0 l Hfresh Hall)
    as (es1 & es2 & h & E1 & E2 & Hbhp & Hm & Hperm).
  exists es1, es2. split; [exact E1|]. split; [exact E2|].
  intros n Hn.
  destruct (pull_n_merging n es2 h Hm Hbhp) as (out & es3 & E3 & Hp & Hs & Hb & _).
  { rewrite (Permutation_length Hperm). exact Hn. }
  exists out, es3. split; [exact E3|]. split; [|split; [exact Hs|]].
  - rewrite Hp. exact Hperm.
  - apply shift_empty. exact Hb.
Qed.

Lemma pulled_merging (es2 : extsort_t) (h2 : list nat) (es : extsort_t) :
  merging f es2 h2 (nblk es2) -> bhp es2 = Some h2 -> pulled es2 es ->
  exists h, bhp es = Some h /\ merging f es h (nblk es).
Proof.
  intros Hm Hbhp Hp. induction Hp as [|es1 es' r Hp IH Hshift].
  - exists h2. split; assumption.
  - destruct IH as (h1 & Hb1 & Hm1).
    destruct h1 as [|i0 h0] eqn:Eh.
    + rewrite (shift_empty es1 Hb1) in Hshift.
      inversion Hshift; subst. exists []. split; assumption.
    + rewrite <- Eh in *.
      destruct (shift_merging es1 h1 Hm1 Hb1 ltac:(congruence))
        as (es3 & h3 & E3 & Hb3 & Hm3 & _).
      rewrite E3 in Hshift. inversion Hshift; subst.
      exists h3. split; assumption.
Qed.

Lemma open_runs_in_heap (es : extsort_t) (h : list nat) :
  merging f es h (nblk es) ->
  forall r, In r (not_yet_returned es) -> In r (remaining es h).
Proof.
  intros Hm r Hr. unfold not_yet_returned in Hr.
  apply in_flat_map in Hr. destruct Hr as (b & Hb & Hr).
  apply filter_In in Hb. destruct Hb as [Hb Hopen].
  destruct (In_nth _ _ blk_null Hb) as (j & Hj & Ej).
  assert (Hjh : In j h).
  { destruct (in_dec Nat.eq_dec j h) as [?|Hn]; [assumption|].
    pose proof (mrg_out _ _ _ _ Hm j Hj Hn) as C. rewrite Ej in C.
    unfold is_open in Hopen. rewrite C in Hopen. discriminate. }
  unfold remaining. apply in_flat_map. exists j. split; [exact Hjh|].
  unfold run_rest. rewrite Ej. exact Hr.
Qed.

Lemma heap_min_pending (es : extsort_t) (h : list nat) :
  merging f es h (nblk es) -> h <> [] ->
  In (heap_min es h) (not_yet_returned es).
Proof.
  intros Hm Hne. unfold not_yet_returned, heap_min.
  set (i := nth 0 h 0%nat).
  assert (Hi : In i h) by (subst i; destruct h; [congruence | now left]).
  destruct (hr_in _ _ _ (mrg_runs _ _ _ _ Hm) i Hi) as (Hlt & Hfd & _).
  apply in_flat_map. exists (nth i (blk es) blk_null). split.
  - apply filter_In. split; [apply nth_In; exact Hlt|].
    unfold is_open. destruct (Z.eqb_spec (fd (nth i (blk es) blk_null)) (-1));
      [contradiction | reflexivity].
  - now left.
Qed.
End EngineFacts.

(** ** The concrete comparator and sort *)

Lemma by_key_total_order : total_order Sample.by_key.
Proof.
  constructor; unfold Sample.by_key; intros.
  - destruct (Z.sgn_spec (Sample.key b - Sample.key a)) as [[? ?]|[[? ?]|[? ?]]];
      destruct (Z.sgn_spec (Sample.key a - Sample.key b)) as [[? ?]|[[? ?]|[? ?]]];
      lia.
  - lia.
Qed.

Lemma place_perm (f : extsort_cmp_f) (x : record) (l : list record) :
  Permutation (Sample.place f x l) (x :: l).
Proof.
  induction l as [|y t IH]; cbn [Sample.place]; [reflexivity|].
  destruct (f x y <=? 0); [reflexivity|].
  rewrite IH. apply perm_swap.
Qed.

Lemma place_sorted (f : extsort_cmp_f) (x : record) (l : list record) :
  total_order f -> StronglySorted (cmp_le f) l ->
  StronglySorted (cmp_le f) (Sample.place f x l).
Proof.
  intros Hf. induction l as [|y t IH]; intros Hs; cbn [Sample.place].
  - repeat constructor.
  - inversion Hs as [|? ? Ht Hy]; subst.
    destruct (Z.leb_spec (f x y) 0) as [L|L].
    + constructor; [exact Hs|]. constructor; [exact L|].
      rewrite Forall_forall in *. intros z Hz.
      apply (cmp_trans f Hf x y z); [exact L | apply Hy; exact Hz].
    + constructor; [apply IH; exact Ht|].
      eapply Permutation_Forall; [symmetry; apply place_perm|].
      constructor; [|exact Hy].
      apply cmp_le_flip; [exact Hf | lia].
Qed.

Lemma insertion_sort_sorts : sorts Sample.insertion_sort.
Proof.
  intros f l Hf. induction l as [|x t [IHp IHs]]; cbn [Sample.insertion_sort].
  - split; constructor.
  - split.
    + rewrite place_perm. apply perm_skip. exact IHp.
    + apply place_sorted; assumption.
Qed.

Lemma session_fresh (budget : Z) : fresh Sample.by_key (Sample.session budget).
Proof.
  constructor; cbn; try reflexivity; try discriminate; lia.
Qed.

(** ** From the interface to a fresh session *)

(** alloc, DAT_SIZE, FUNC_CMP, init: the session is fresh, with the default
    budget and the default prefix. *)
Lemma configured_session_fresh (parse : string -> Z) (sz : Z)
      (f : extsort_cmp_f) :
  0 < sz <= INT_MAX ->
  exists es1 es2 es3,
    extsort_set parse extsort_alloc DAT_SIZE (VSize sz) = Ok es1 /\
    extsort_set parse es1 FUNC_CMP (VCmp (Some f)) = Ok es2 /\
    extsort_init es2 = Ok es3 /\
    fresh f es3 /\ dat_size es3 = sz /\ max_mem es3 = 100000000.
Proof.
  intros Hsz.
  assert (Ew : wrap_size sz = sz)
    by (apply wrap_size_small; unfold INT_MAX in Hsz; lia).
  do 3 eexists. split; [reflexivity|]. split; [reflexivity|].
  unfold extsort_init. proj. rewrite Ew.
  destruct (Z.eqb_spec sz 0) as [?|_]; [lia|].
  split; [reflexivity|]. proj. split; [|split; reflexivity].
  constructor; proj; try reflexivity; try discriminate; try exact Hsz.
  unfold malloc, rec_len. proj. rewrite repeat_length. lia.
Qed.

(** Scenario A of the specification, on two-byte records ordered by their
    first byte: one Run, pulled back in order. *)
Example scenario_A :
  (es <- push_all Sample.insertion_sort (Sample.session 100000000)
           [Sample.r5; Sample.r3; Sample.r4; Sample.r1; Sample.r2] ;;
   es <- extsort_sort Sample.insertion_sort es ;;
   '(out, es) <- pull_n 6 es ;;
   Ok (out, map (stored es) (blk es)))
  = Ok ([Sample.r1; Sample.r2; Sample.r3; Sample.r4; Sample.r5],
        [[Sample.r1; Sample.r2; Sample.r3; Sample.r4; Sample.r5]]).
Proof. vm_compute. reflexivity. Qed.

(** The same input under a budget of two records: three Runs, merged. *)
Example scenario_three_runs :
  (es <- push_all Sample.insertion_sort (Sample.session 20)
           [Sample.r5; Sample.r3; Sample.r4; Sample.r1; Sample.r2] ;;
   es <- extsort_sort Sample.insertion_sort es ;;
   '(out, es) <- pull_n 6 es ;;
   Ok (out, map (stored es) (blk es)))
  = Ok ([Sample.r1; Sample.r2; Sample.r3; Sample.r4; Sample.r5],
        [[Sample.r3; Sample.r5]; [Sample.r1; Sample.r4]; [Sample.r2]]).
Proof. vm_compute. reflexivity. Qed.

(** ** What a push does *)

Lemma buf_flush_inv (qsort : extsort_cmp_f -> list record -> list record)
      (es es' : extsort_t) :
  _buf_flush qsort es = Ok es' -> buffered es <> [] ->
  exists b, es' = set_mem 0 (set_buf (Some []) (set_blk (blk es ++ [b]) es)).
Proof.
  intros E Hne. unfold _buf_flush, nbuf in E.
  destruct (buffered es) as [|r0 l0] eqn:Ebuf; [congruence|].
  cbn [length Nat.eqb] in E.
  destruct (cmp es) as [f|] eqn:Ecmp; [|discriminate].
  destruct (tmp_prefix es) as [p|] eqn:Epre; [|discriminate].
  proj. change (nblk (set_buf _ es)) with (nblk es) in E.
  destruct (write_loop (dat_size es)
              (mk_blk (mkstemp_fd (nblk es)) p (malloc (dat_size es)) [] 0)
              (qsort f (r0 :: l0))) as [b1| |] eqn:Ew; proj; try discriminate.
  unfold sys_rewind in E.
  destruct (fd b1 =? -1); cbn [negb Z.eqb] in E; [discriminate|].
  inversion E; subst es'; clear E.
  eexists. reflexivity.
Qed.

Lemma push_shape (qsort : extsort_cmp_f -> list record -> list record)
      (es es' : extsort_t) (r : record) :
  extsort_push qsort es r = Ok es' ->
  dat_size es' = dat_size es /\ max_mem es' = max_mem es /\
  ((over_budget es = true /\ buffered es' = [r] /\
    mem es' = wrap_size (wrap_size (delta_of es)) /\
    exists b, blk es' = blk es ++ [b]) \/
   (over_budget es = false /\ buffered es' = buffered es ++ [r] /\
    mem es' = wrap_size (mem es + wrap_size (delta_of es)) /\
    blk es' = blk es)).
Proof.
  intros E. destruct (push_inv qsort es es' r E) as (es1 & c & Ef & ->).
  clear E. destruct (over_budget es) eqn:Eover.
  - assert (Hne : buffered es <> []).
    { unfold over_budget, nbuf in Eover. destruct (buffered es); [discriminate|].
      discriminate. }
    destruct (buf_flush_inv qsort es es1 Ef Hne) as (b & ->).
    proj. split; [reflexivity|]. split; [reflexivity|]. left.
    split; [reflexivity|]. split; [reflexivity|]. split; [reflexivity|].
    exists b. reflexivity.
  - inversion Ef; subst es1. proj.
    split; [reflexivity|]. split; [reflexivity|]. right.
    repeat split; reflexivity.
Qed.

Lemma push_all_app (qsort : extsort_cmp_f -> list record -> list record)
      (l : list record) (r : record) : forall es es',
  push_all qsort es (l ++ [r]) = Ok es' ->
  exists es1, push_all qsort es l = Ok es1 /\
              extsort_push qsort es1 r = Ok es'.
Proof.
  induction l as [|x l IH]; intros es es' E; cbn [push_all app] in *.
  - destruct (extsort_push qsort es r) as [e| |] eqn:Er; proj;
      try discriminate.
    inversion E; subst. exists es. split; [reflexivity | exact Er].
  - destruct (extsort_push qsort es x) as [e| |] eqn:Ex; proj;
      try discriminate.
    apply IH. exact E.
Qed.

Lemma push_all_invariant (qsort : extsort_cmp_f -> list record -> list record)
      (P : extsort_t -> Prop) :
  (forall es r es', P es -> extsort_push qsort es r = Ok es' -> P es') ->
  forall l es es', P es -> push_all qsort es l = Ok es' -> P es'.
Proof.
  intros Hstep. induction l as [|x l IH]; intros es es' HP E;
    cbn [push_all] in E.
  - inversion E; subst. exact HP.
  - destruct (extsort_push qsort es x) as [e| |] eqn:Ex; proj;
      try discriminate.
    apply (IH e es'); [|exact E]. apply (Hstep es x e HP Ex).
Qed.

Lemma wrap_size_idem (x : Z) : wrap_size (wrap_size x) = wrap_size x.
Proof. unfold wrap_size. apply Z.mod_mod. lia. Qed.

Lemma delta_of_small (es : extsort_t) :
  0 <= dat_size es -> dat_size es + sizeof_voidp <= INT_MAX ->
  delta_of es = dat_size es + sizeof_voidp.
Proof.
  intros H0 H1. unfold delta_of, sizeof_voidp, INT_MAX in *.
  rewrite wrap_size_small by lia. rewrite to_int_small; unfold INT_MAX; lia.
Qed.

Lemma flushed_run_stored (qsort : extsort_cmp_f -> list record -> list record)
      (f : extsort_cmp_f) (es : extsort_t) :
  sorts qsort -> total_order f ->
  cmp es = Some f -> tmp_prefix es <> None -> 0 < dat_size es ->
  buffered es <> [] -> Forall (fun r => length r = rec_len es) (buffered es) ->
  exists es' b,
    _buf_flush qsort es = Ok es' /\
    blk es' = blk es ++ [b] /\
    stored es' b = qsort f (buffered es) /\
    buffered es' = [] /\ dat_size es' = dat_size es /\ buf es' = Some [].
Proof.
  intros Hq Hf Hcmp Hpre Hsz Hne Hall.
  destruct (tmp_prefix es) as [p|] eqn:Epre; [|congruence].
  destruct (Hq f (buffered es) Hf) as [Hperm Hsorted].
  eexists. eexists.
  split; [apply (buf_flush_run qsort Hq f Hf es p); auto; lia|].
  proj. split; [reflexivity|].
  split; [|split; [reflexivity | split; reflexivity]].
  apply stored_written; [exact Hsz | reflexivity|].
  eapply Permutation_Forall; [symmetry; exact Hperm | exact Hall].
Qed.

(** * The claims *)

(** C1.  Sortedness.  For a session set up with a comparator that orders
    the records, and any finite list of records of the session's size
    pushed into it: the pushes and the finalisation succeed, and the pulls
    that follow return, up to the end-of-data signal, a sequence that is
    non-decreasing under the comparator. *)
Theorem pulls_nondecreasing
    (qsort : extsort_cmp_f -> list record -> list record)
    (f : extsort_cmp_f) (es0 : extsort_t) (l : list record) :
  sorts qsort -> total_order f -> fresh f es0 ->
  Forall (fun r => length r = rec_len es0) l ->
  exists es1 es2,
    push_all qsort es0 l = Ok es1 /\
    extsort_sort qsort es1 = Ok es2 /\
    forall n, (length l <= n)%nat ->
      exists out es3,
        pull_n n es2 = Ok (out, es3) /\
        extsort_shift es3 = Ok (None, es3) /\
        StronglySorted (cmp_le f) out.
Proof.
  intros Hq Hf Hfresh Hall.
  destruct (session_pulls qsort Hq f Hf es0 l Hfresh Hall)
    as (es1 & es2 & E1 & E2 & Hpull).
  exists es1, es2. split; [exact E1|]. split; [exact E2|].
  intros n Hn. destruct (Hpull n Hn) as (out & es3 & E3 & _ & Hs & Hend).
  exists out, es3. split; [exact E3|]. split; [exact Hend | exact Hs].
Qed.

Lemma pulls_nondecreasing_witness :
  exists es1 es2,
    push_all Sample.insertion_sort (Sample.session 1000)
      [Sample.r5; Sample.r3; Sample.r4; Sample.r1; Sample.r2] = Ok es1 /\
    extsort_sort Sample.insertion_sort es1 = Ok es2 /\
    forall n, (5 <= n)%nat ->
      exists out es3,
        pull_n n es2 = Ok (out, es3) /\
        extsort_shift es3 = Ok (None, es3) /\
        StronglySorted (cmp_le Sample.by_key) out.
Proof.
  apply (pulls_nondecreasing Sample.insertion_sort Sample.by_key
           (Sample.session 1000)
           [Sample.r5; Sample.r3; Sample.r4; Sample.r1; Sample.r2]).
  - exact insertion_sort_sorts.
  - exact by_key_total_order.
  - exact (session_fresh 1000).
  - repeat constructor.
Defined.

(** C2.  Conservation and content fidelity.  Under the same conditions the
    records returned by the pulls before end-of-data are a permutation of
    the records pushed: as many, and each one byte for byte a pushed
    record. *)
Theorem pulls_permute_pushes
    (qsort : extsort_cmp_f -> list record -> list record)
    (f : extsort_cmp_f) (es0 : extsort_t) (l : list record) :
  sorts qsort -> total_order f -> fresh f es0 ->
  Forall (fun r => length r = rec_len es0) l ->
  exists es1 es2,
    push_all qsort es0 l = Ok es1 /\
    extsort_sort qsort es1 = Ok es2 /\
    forall n, (length l <= n)%nat ->
      exists out es3,
        pull_n n es2 = Ok (out, es3) /\
        extsort_shift es3 = Ok (None, es3) /\
        Permutation out l /\
        length out = length l /\
        (forall r, In r out -> In r l).
Proof.
  intros Hq Hf Hfresh Hall.
  destruct (session_pulls qsort Hq f Hf es0 l Hfresh Hall)
    as (es1 & es2 & E1 & E2 & Hpull).
  exists es1, es2. split; [exact E1|]. split; [exact E2|].
  intros n Hn. destruct (Hpull n Hn) as (out & es3 & E3 & Hp & _ & Hend).
  exists out, es3. split; [exact E3|]. split; [exact Hend|].
  split; [exact Hp|]. split.
  - apply Permutation_length. exact Hp.
  - intros r Hr. apply (Permutation_in _ Hp). exact Hr.
Qed.

Lemma pulls_permute_pushes_witness :
  exists es1 es2,
    push_all Sample.insertion_sort (Sample.session 20)
      [Sample.r5; Sample.r3; Sample.r4; Sample.r1; Sample.r2] = Ok es1 /\
    extsort_sort Sample.insertion_sort es1 = Ok es2 /\
    forall n, (5 <= n)%nat ->
      exists out es3,
        pull_n n es2 = Ok (out, es3) /\
        extsort_shift es3 = Ok (None, es3) /\
        Permutation out
          [Sample.r5; Sample.r3; Sample.r4; Sample.r1; Sample.r2] /\
        length out = 5%nat /\
        (forall r, In r out ->
           In r [Sample.r5; Sample.r3; Sample.r4; Sample.r1; Sample.r2]).
Proof.
  apply (pulls_permute_pushes Sample.insertion_sort Sample.by_key
           (Sample.session 20)
           [Sample.r5; Sample.r3; Sample.r4; Sample.r1; Sample.r2]).
  - exact insertion_sort_sorts.
  - exact by_key_total_order.
  - exact (session_fresh 20).
  - repeat constructor.
Defined.

(** C3.  The budget after a push.  In a session that starts with an empty
    buffer and a zero estimate, after every push that returns, the
    estimate [mem] is within [max_mem], or the buffer holds just the
    record pushed, whose estimate alone is over the budget.  As long as
    the record size with the pointer overhead fits an [int] and the budget
    plus one record fits a [size_t], the estimate is the number of
    buffered records times the record size plus the overhead. *)
Theorem push_respects_budget
    (qsort : extsort_cmp_f -> list record -> list record)
    (es0 es' : extsort_t) (l : list record) (r : record) :
  buffered es0 = [] -> mem es0 = 0 ->
  push_all qsort es0 (l ++ [r]) = Ok es' ->
  (mem es' <= max_mem es' \/
   (buffered es' = [r] /\ mem es' = wrap_size (delta_of es') /\
    max_mem es' < mem es')) /\
  (0 <= dat_size es0 -> dat_size es0 + sizeof_voidp <= INT_MAX ->
   max_mem es0 + dat_size es0 + sizeof_voidp < 2 ^ 64 ->
   mem es' = Z.of_nat (nbuf es') * (dat_size es' + sizeof_voidp)).
Proof.
  intros Hbuf Hmem E.
  destruct (push_all_app qsort l r es0 es' E) as (es1 & E1 & E2).
  split.
  - assert (H1 : buffered es1 = [] -> mem es1 = 0).
    { apply (push_all_invariant qsort (fun es => buffered es = [] -> mem es = 0))
        with (l := l) (es := es0); auto.
      intros es x e _ Ex Hnil.
      destruct (push_shape qsort es e x Ex) as (_ & _ & [(_ & C & _)|(_ & C & _)]);
        rewrite C in Hnil; [discriminate|].
      destruct (buffered es); discriminate. }
    destruct (push_shape qsort es1 es' r E2)
      as (Esz & Emax & [(Hover & Eb & Em & _)|(Hover & Eb & Em & _)]).
    + destruct (Z.le_gt_cases (mem es') (max_mem es')) as [L|G]; [now left|].
      right. split; [exact Eb|]. split; [|lia].
      rewrite Em, wrap_size_idem. unfold delta_of. now rewrite Esz.
    + destruct (buffered es1) as [|x t] eqn:Ebuf1.
      * destruct (Z.le_gt_cases (mem es') (max_mem es')) as [L|G];
          [now left|].
        right. split; [exact Eb|]. split; [|lia].
        rewrite Em, (H1 eq_refl), Z.add_0_l, wrap_size_idem.
        unfold delta_of. now rewrite Esz.
      * left. unfold over_budget, nbuf in Hover. rewrite Ebuf1 in Hover.
        cbn [length Nat.eqb negb andb] in Hover.
        rewrite Em, Emax. lia.
  - intros H0 Hint Hmax.
    set (D := dat_size es0 + sizeof_voidp) in *.
    assert (HD : 0 < D) by (unfold D, sizeof_voidp; lia).
    assert (HD' : D <= INT_MAX) by exact Hint.
    set (K := fun es : extsort_t =>
                dat_size es = dat_size es0 /\ max_mem es = max_mem es0 /\
                mem es = Z.of_nat (nbuf es) * D /\
                (mem es <= max_mem es0 \/ (nbuf es <= 1)%nat)).
    assert (Hstep : forall es x e, K es -> extsort_push qsort es x = Ok e -> K e).
    { intros es x e (Ks & Km & Kmem & Kb) Ex.
      assert (Ed : delta_of es = D).
      { unfold D. rewrite <- Ks. apply delta_of_small; rewrite Ks; auto. }
      assert (Ew : wrap_size (delta_of es) = D).
      { rewrite Ed. apply wrap_size_small. unfold INT_MAX in HD'. lia. }
      destruct (push_shape qsort es e x Ex)
        as (Esz & Emax & [(Hover & Eb & Em & _)|(Hover & Eb & Em & _)]).
      - unfold K, nbuf. rewrite Eb, Em, Ew. cbn [length].
        rewrite wrap_size_small by (unfold INT_MAX in HD'; lia).
        repeat split; try congruence; try lia.
      - assert (Esum : wrap_size (mem es + D) = mem es + D).
        { apply wrap_size_small. unfold INT_MAX in HD'.
          destruct Kb as [Kb|Kb]; [lia|]. nia. }
        unfold K, nbuf in *. rewrite Eb, Em, Ew, Esum, length_app.
        cbn [length]. repeat split; try congruence; try lia.
        unfold over_budget, nbuf in Hover. rewrite Ew, Esum in Hover.
        destruct (buffered es) as [|y t]; cbn [length Nat.eqb negb andb] in *.
        + right. lia.
        + left. rewrite Km in Hover. lia. }
    assert (K0 : K es0).
    { unfold K, nbuf. rewrite Hbuf, Hmem. cbn. repeat split; lia. }
    pose proof (push_all_invariant qsort K Hstep (l ++ [r]) es0 es' K0 E)
      as (Ks & _ & Kmem & _).
    rewrite Kmem. unfold D. now rewrite Ks.
Qed.

Lemma push_respects_budget_witness :
  push_all Sample.insertion_sort (Sample.session 20)
    ([Sample.r5; Sample.r3] ++ [Sample.r4]) = Ok Sample.after_three /\
  (mem Sample.after_three <= max_mem Sample.after_three \/
   (buffered Sample.after_three = [Sample.r4] /\
    mem Sample.after_three = wrap_size (delta_of Sample.after_three) /\
    max_mem Sample.after_three < mem Sample.after_three)) /\
  mem Sample.after_three
  = Z.of_nat (nbuf Sample.after_three)
    * (dat_size Sample.after_three + sizeof_voidp).
Proof.
  assert (E : push_all Sample.insertion_sort (Sample.session 20)
                ([Sample.r5; Sample.r3] ++ [Sample.r4])
              = Ok Sample.after_three) by (vm_compute; reflexivity).
  split; [exact E|].
  destruct (push_respects_budget Sample.insertion_sort (Sample.session 20)
              Sample.after_three [Sample.r5; Sample.r3] Sample.r4
              eq_refl eq_refl E) as [H1 H2].
  split; [exact H1|].
  apply H2; vm_compute; congruence.
Defined.

(** C4.  The minimum of the heap.  In every session reached from the
    finalisation by pulls, if the heap is not empty then the record at its
    root is one of the records not yet returned by the open Runs, and it
    is not after any of them under the comparator. *)
Theorem heap_min_globally_smallest
    (qsort : extsort_cmp_f -> list record -> list record)
    (f : extsort_cmp_f) (es0 es1 es2 es : extsort_t) (l : list record)
    (h : list nat) :
  sorts qsort -> total_order f -> fresh f es0 ->
  Forall (fun r => length r = rec_len es0) l ->
  push_all qsort es0 l = Ok es1 ->
  extsort_sort qsort es1 = Ok es2 ->
  pulled es2 es ->
  bhp es = Some h -> h <> [] ->
  In (heap_min es h) (not_yet_returned es) /\
  Forall (cmp_le f (heap_min es h)) (not_yet_returned es).
Proof.
  intros Hq Hf Hfresh Hall E1 E2 Hp Hbhp Hne.
  destruct (session_runs qsort Hq f Hf es0 l Hfresh Hall)
    as (es1' & es2' & h2 & E1' & E2' & Hbhp2 & Hm2 & _).
  rewrite E1 in E1'. inversion E1'; subst es1'.
  rewrite E2 in E2'. inversion E2'; subst es2'.
  destruct (pulled_merging f Hf es2 h2 es Hm2 Hbhp2 Hp) as (h' & Hbhp' & Hm).
  rewrite Hbhp in Hbhp'. inversion Hbhp'; subst h'.
  split.
  - apply (heap_min_pending f es h Hm Hne).
  - rewrite Forall_forall. intros r Hr.
    pose proof (heap_min_least f Hf es h (mrg_runs _ _ _ _ Hm)) as Hleast.
    rewrite Forall_forall in Hleast. apply Hleast.
    apply (open_runs_in_heap f es h Hm). exact Hr.
Qed.

Lemma heap_min_globally_smallest_witness :
  exists es1 es2 es h,
    push_all Sample.insertion_sort (Sample.session 20)
      [Sample.r5; Sample.r3; Sample.r4; Sample.r1; Sample.r2] = Ok es1 /\
    extsort_sort Sample.insertion_sort es1 = Ok es2 /\
    extsort_shift es2 = Ok (Some Sample.r1, es) /\
    bhp es = Some h /\ h <> [] /\
    heap_min es h = Sample.r2 /\
    In (heap_min es h) (not_yet_returned es) /\
    Forall (cmp_le Sample.by_key (heap_min es h)) (not_yet_returned es).
Proof.
  do 4 eexists.
  split; [cbv; reflexivity|].
  split; [cbv; reflexivity|].
  split; [cbv; reflexivity|].
  split; [cbv; reflexivity|].
  split; [discriminate|].
  split; [reflexivity|].
  eapply (heap_min_globally_smallest Sample.insertion_sort Sample.by_key
            (Sample.session 20) _ _ _
            [Sample.r5; Sample.r3; Sample.r4; Sample.r1; Sample.r2]).
  - exact insertion_sort_sorts.
  - exact by_key_total_order.
  - exact (session_fresh 20).
  - repeat constructor.
  - cbv; reflexivity.
  - cbv; reflexivity.
  - eapply pulled_more; [apply pulled_none | cbv; reflexivity].
  - reflexivity.
  - discriminate.
Defined.

(** C5.  The Run of a flush.  When a non-empty buffer of whole records is
    flushed, one block is added; the records stored in its file are the
    buffered records as [qsort] arranged them, so a permutation of the
    buffer that is non-decreasing under the comparator. *)
Theorem flushed_run_nondecreasing
    (qsort : extsort_cmp_f -> list record -> list record)
    (f : extsort_cmp_f) (es : extsort_t) :
  sorts qsort -> total_order f ->
  cmp es = Some f -> tmp_prefix es <> None -> 0 < dat_size es ->
  buffered es <> [] -> Forall (fun r => length r = rec_len es) (buffered es) ->
  exists es' b,
    _buf_flush qsort es = Ok es' /\
    blk es' = blk es ++ [b] /\
    f_pos b = 0%nat /\
    stored es' b = qsort f (buffered es) /\
    Permutation (stored es' b) (buffered es) /\
    StronglySorted (cmp_le f) (stored es' b).
Proof.
  intros Hq Hf Hcmp Hpre Hsz Hne Hall.
  destruct (tmp_prefix es) as [p|] eqn:Epre; [|congruence].
  destruct (Hq f (buffered es) Hf) as [Hperm Hsorted].
  eexists. eexists.
  split; [apply (buf_flush_run qsort Hq f Hf es p); auto; lia|].
  proj. split; [reflexivity|]. split; [reflexivity|].
  assert (E : stored (set_mem 0 (set_buf (Some []) (set_blk
                (blk es ++ [mk_blk (mkstemp_fd (nblk es)) p
                                   (malloc (dat_size es))
                                   (concat (qsort f (buffered es))) 0]) es)))
                (mk_blk (mkstemp_fd (nblk es)) p (malloc (dat_size es))
                        (concat (qsort f (buffered es))) 0)
              = qsort f (buffered es)).
  { apply stored_written; [exact Hsz | reflexivity|].
    eapply Permutation_Forall; [symmetry; exact Hperm | exact Hall]. }
  rewrite E. split; [reflexivity|]. split; assumption.
Qed.

Lemma flushed_run_nondecreasing_witness :
  exists es' b,
    _buf_flush Sample.insertion_sort
      (set_buf (Some [Sample.r5; Sample.r3; Sample.r4]) (Sample.session 1000))
      = Ok es' /\
    blk es' = [] ++ [b] /\
    f_pos b = 0%nat /\
    stored es' b = [Sample.r3; Sample.r4; Sample.r5] /\
    Permutation (stored es' b) [Sample.r5; Sample.r3; Sample.r4] /\
    StronglySorted (cmp_le Sample.by_key) (stored es' b).
Proof.
  apply (flushed_run_nondecreasing Sample.insertion_sort Sample.by_key
           (set_buf (Some [Sample.r5; Sample.r3; Sample.r4]) (Sample.session 1000))).
  - exact insertion_sort_sorts.
  - exact by_key_total_order.
  - reflexivity.
  - discriminate.
  - reflexivity.
  - discriminate.
  - repeat constructor.
Defined.

(** C6.  What a push does.  Take a session with a comparator and a prefix
    configured and whole records in the buffer, whose buffer is allocated
    or, if it is still NULL, has no capacity recorded, as is the case
    until [extsort_sort] frees it.  A push returns, and the record pushed
    is the last of the buffer.  If the buffer is not empty and the estimate
    with this record is over [max_mem], the buffer went first into one new
    block, holding its records as [qsort] arranged them, and the buffer is
    the record alone; otherwise no block is added and the record follows
    the buffer.  The test is made in [size_t]; while the sizes fit, it is
    the comparison of the integers. *)
Theorem push_flushes_when_over_budget
    (qsort : extsort_cmp_f -> list record -> list record)
    (f : extsort_cmp_f) (es : extsort_t) (r : record) :
  sorts qsort -> total_order f ->
  cmp es = Some f -> tmp_prefix es <> None -> 0 < dat_size es ->
  Forall (fun x => length x = rec_len es) (buffered es) ->
  (buf es = None -> mbuf es = 0) ->
  exists es',
    extsort_push qsort es r = Ok es' /\
    last (buffered es') [] = r /\
    (if over_budget es
     then exists b, blk es' = blk es ++ [b] /\
                    stored es' b = qsort f (buffered es) /\ buffered es' = [r]
     else blk es' = blk es /\ buffered es' = buffered es ++ [r]) /\
    (0 <= mem es -> dat_size es + sizeof_voidp <= INT_MAX ->
     mem es + dat_size es + sizeof_voidp < 2 ^ 64 ->
     (over_budget es = true <->
      buffered es <> [] /\ max_mem es < mem es + (dat_size es + sizeof_voidp))).
Proof.
  intros Hq Hf Hcmp Hpre Hsz Hall Hroom.
  assert (Hrange : 0 <= mem es -> dat_size es + sizeof_voidp <= INT_MAX ->
            mem es + dat_size es + sizeof_voidp < 2 ^ 64 ->
            (over_budget es = true <->
             buffered es <> [] /\
             max_mem es < mem es + (dat_size es + sizeof_voidp))).
  { intros H0 H1 H2. unfold over_budget, nbuf.
    rewrite delta_of_small by lia.
    rewrite (wrap_size_small (dat_size es + sizeof_voidp))
      by (unfold sizeof_voidp in *; lia).
    rewrite wrap_size_small by (unfold sizeof_voidp in *; lia).
    destruct (buffered es) as [|x t]; cbn [length Nat.eqb negb andb].
    - split; [discriminate | intros [C _]; congruence].
    - split.
      + intros H. split; [discriminate | lia].
      + intros [_ H]. apply Z.gtb_lt. lia. }
  destruct (over_budget es) eqn:Eover.
  - assert (Hne : buffered es <> []).
    { unfold over_budget, nbuf in Eover. destruct (buffered es); discriminate. }
    destruct (flushed_run_stored qsort f es Hq Hf Hcmp Hpre Hsz Hne Hall)
      as (es1 & b & E1 & Eblk & Est & Ebuf & Esz & Hcells).
    destruct (push_run qsort es es1 r) as (c & ->);
      [rewrite Eover; exact E1 | rewrite Hcells; discriminate |].
    eexists. split; [reflexivity|]. proj.
    rewrite Ebuf. cbn [app last].
    split; [reflexivity|]. split; [|exact Hrange].
    exists b. split; [exact Eblk|]. split; [|reflexivity].
    rewrite <- Est. unfold stored, rec_len. proj. now rewrite Esz.
  - destruct (push_run qsort es es r) as (c & ->);
      [rewrite Eover; reflexivity | exact Hroom |].
    eexists. split; [reflexivity|]. proj.
    split; [apply last_last|]. split; [|exact Hrange].
    split; reflexivity.
Qed.

Lemma push_flushes_when_over_budget_witness :
  exists es',
    extsort_push Sample.insertion_sort Sample.after_two Sample.r4 = Ok es' /\
    last (buffered es') [] = Sample.r4 /\
    (exists b, blk es' = blk Sample.after_two ++ [b] /\
               stored es' b = [Sample.r3; Sample.r5] /\
               buffered es' = [Sample.r4]) /\
    (over_budget Sample.after_two = true <->
     buffered Sample.after_two <> [] /\
     max_mem Sample.after_two
     < mem Sample.after_two + (dat_size Sample.after_two + sizeof_voidp)).
Proof.
  destruct (push_flushes_when_over_budget Sample.insertion_sort Sample.by_key
              Sample.after_two Sample.r4 insertion_sort_sorts
              by_key_total_order eq_refl)
    as (es' & E & Hlast & Hif & Hrange).
  - discriminate.
  - reflexivity.
  - repeat constructor.
  - discriminate.
  - exists es'. split; [exact E|]. split; [exact Hlast|].
    split; [exact Hif|].
    refine (Hrange _ _ _);
      [vm_compute; discriminate | vm_compute; discriminate
       | vm_compute; reflexivity].
Defined.

(** C7.  The read step of a Run.  On a closed Run [_blk_read] reads
    nothing and returns 0.  On an open Run of a session with a positive
    record size there are three outcomes, by the number of bytes the file
    holds past the offset: at least [dat_size], the record is read into
    the head, the offset advances, the Run stays open and the non-zero
    count [dat_size] comes back; none, the descriptor is closed ([fd] is
    -1), the head is untouched and 0 comes back; some but fewer than
    [dat_size], the call is fatal. *)
Theorem blk_read_outcomes (es : extsort_t) (b : blk_t) :
  0 < dat_size es ->
  (fd b = -1 -> _blk_read es b = Ok (0, b)) /\
  (fd b <> -1 ->
   ((rec_len es <= length (skipn (f_pos b) (f_data b)))%nat ->
    exists b',
      _blk_read es b = Ok (dat_size es, b') /\ dat_size es <> 0 /\
      fd b' = fd b /\ f_data b' = f_data b /\
      f_pos b' = (f_pos b + rec_len es)%nat /\
      firstn (rec_len es) (dat b')
      = firstn (rec_len es) (skipn (f_pos b) (f_data b))) /\
   (length (skipn (f_pos b) (f_data b)) = 0%nat ->
    exists b',
      _blk_read es b = Ok (0, b') /\ fd b' = -1 /\ dat b' = dat b /\
      f_data b' = f_data b /\ f_pos b' = f_pos b) /\
   ((0 < length (skipn (f_pos b) (f_data b)) < rec_len es)%nat ->
    exists msg, _blk_read es b = Fatal msg)).
Proof.
  intros Hsz. split.
  - intros Hfd. unfold _blk_read. rewrite Hfd. reflexivity.
  - intros Hfd. unfold _blk_read, sys_read.
    destruct (Z.eqb_spec (fd b) (-1)) as [?|_]; [contradiction|].
    fold (rec_len es).
    set (rest := skipn (f_pos b) (f_data b)).
    assert (Hn : length (firstn (rec_len es) rest)
                 = Nat.min (rec_len es) (length rest))
      by apply length_firstn.
    assert (Hrl : Z.of_nat (rec_len es) = dat_size es)
      by (unfold rec_len; lia).
    split; [|split].
    + intros Hfull. rewrite Hn, Nat.min_l by exact Hfull. rewrite Hrl.
      destruct (Z.ltb_spec (dat_size es) 0); [lia|].
      destruct (Z.eqb_spec (dat_size es) 0); [lia|].
      rewrite Z.ltb_irrefl. eexists. split; [reflexivity|]. proj.
      split; [lia|]. split; [reflexivity|]. split; [reflexivity|].
      split; [reflexivity|].
      rewrite firstn_app.
      replace (rec_len es - length (firstn (rec_len es) rest))%nat with 0%nat
        by (rewrite Hn; lia).
      rewrite firstn_O, app_nil_r, firstn_firstn, Nat.min_id. reflexivity.
    + intros Hnone. apply length_zero_iff_nil in Hnone. rewrite Hnone.
      rewrite firstn_nil. cbn [length Z.of_nat Z.ltb Z.eqb Z.compare].
      eexists. split; [reflexivity|]. proj.
      split; [reflexivity|]. split; [reflexivity|]. split; [reflexivity|].
      apply Nat.add_0_r.
    + intros Hpart. rewrite Hn, Nat.min_r by lia.
      destruct (Z.ltb_spec (Z.of_nat (length rest)) 0); [lia|].
      destruct (Z.eqb_spec (Z.of_nat (length rest)) 0); [lia|].
      destruct (Z.ltb_spec (Z.of_nat (length rest)) (dat_size es)); [|lia].
      eexists. reflexivity.
Qed.

Lemma blk_read_outcomes_witness :
  (exists b',
     _blk_read (Sample.session 20) Sample.torn_run
     = Ok (dat_size (Sample.session 20), b') /\
     fd b' = fd Sample.torn_run /\ f_pos b' = 2%nat) /\
  (exists msg, _blk_read (Sample.session 20) Sample.torn_next = Fatal msg).
Proof.
  split.
  - destruct (blk_read_outcomes (Sample.session 20) Sample.torn_run)
      as [_ Hopen]; [reflexivity|].
    destruct Hopen as (Hfull & _ & _); [discriminate|].
    destruct Hfull as (b' & E & _ & Hfd' & _ & Hpos & _);
      [vm_compute; lia|].
    exists b'. split; [exact E|]. split; [exact Hfd' | exact Hpos].
  - destruct (blk_read_outcomes (Sample.session 20) Sample.torn_next)
      as [_ Hopen]; [reflexivity|].
    destruct Hopen as (_ & _ & Hpart); [discriminate|].
    apply Hpart. vm_compute. lia.
Defined.

(** C8, as the code has it.  The configuration is checked by
    [extsort_init]: on a session whose comparator or record size is not
    set, it fails fatally, on an assertion.  [extsort_push] makes no such
    check: into the empty buffer of such a session it takes the record,
    the buffer being allocated or, if NULL, without capacity recorded (as
    it is until [extsort_sort] frees it). *)
Theorem init_rejects_unconfigured (es : extsort_t) :
  cmp es = None \/ dat_size es = 0 ->
  (exists msg, extsort_init es = Fatal msg) /\
  (forall qsort r,
     buffered es = [] -> (buf es = None -> mbuf es = 0) ->
     exists es', extsort_push qsort es r = Ok es' /\ buffered es' = [r]).
Proof.
  intros Hun. split.
  - unfold extsort_init. destruct (cmp es) as [f|].
    + destruct Hun as [?|Hz]; [discriminate|]. rewrite Hz.
      eexists. reflexivity.
    + eexists. reflexivity.
  - intros qsort r Hbuf Hroom.
    destruct (push_run qsort es es r) as (c & ->); [|exact Hroom|].
    + unfold over_budget, nbuf. rewrite Hbuf. reflexivity.
    + eexists. split; [reflexivity|]. proj. rewrite Hbuf. reflexivity.
Qed.

Lemma init_rejects_unconfigured_witness :
  (exists msg, extsort_init extsort_alloc = Fatal msg) /\
  (forall qsort r,
     buffered extsort_alloc = [] ->
     (buf extsort_alloc = None -> mbuf extsort_alloc = 0) ->
     exists es', extsort_push qsort extsort_alloc r = Ok es' /\
                 buffered es' = [r]).
Proof.
  apply (init_rejects_unconfigured extsort_alloc). left. reflexivity.
Defined.

(** C8, as stated, fails: on the session [extsort_alloc] returns, with no
    comparator and no record size, a push, the finalisation and a pull all
    return normally. *)
Lemma unconfigured_calls_return :
  cmp extsort_alloc = None /\ dat_size extsort_alloc = 0 /\
  extsort_push Sample.insertion_sort extsort_alloc Sample.r1
  = Ok (mk_es 0 8 100000000 None None 1 [] (Some [Sample.r1]) [] None) /\
  extsort_sort Sample.insertion_sort extsort_alloc
  = Ok (mk_es 0 0 100000000 None None 0 [] None [] (Some [])) /\
  extsort_shift (mk_es 0 0 100000000 None None 0 [] None [] (Some []))
  = Ok (None, mk_es 0 0 100000000 None None 0 [] None [] (Some [])).
Proof.
  split; [reflexivity|]. split; [reflexivity|].
  split; [vm_compute; reflexivity|].
  split; [vm_compute; reflexivity|].
  vm_compute; reflexivity.
Qed.

(** C9.  No record.  In a session with an empty buffer and no block, zero
    pushes leave the session as it is, the finalisation succeeds and
    creates no Run, and the first pull returns the end-of-data signal. *)
Theorem empty_session_ends_at_once
    (qsort : extsort_cmp_f -> list record -> list record) (es : extsort_t) :
  buffered es = [] -> blk es = [] ->
  push_all qsort es [] = Ok es /\
  exists es',
    extsort_sort qsort es = Ok es' /\ blk es' = [] /\
    extsort_shift es' = Ok (None, es').
Proof.
  intros Hbuf Hblk. split; [reflexivity|].
  unfold extsort_sort, _buf_flush, nbuf. rewrite Hbuf.
  cbn [length Nat.eqb]. proj. unfold nblk. proj. rewrite Hblk.
  cbn [length seq sort_loop].
  eexists. split; [reflexivity|]. proj. split; [exact Hblk|].
  reflexivity.
Qed.

Lemma empty_session_ends_at_once_witness :
  push_all Sample.insertion_sort (Sample.session 1000) []
  = Ok (Sample.session 1000) /\
  exists es',
    extsort_sort Sample.insertion_sort (Sample.session 1000) = Ok es' /\
    blk es' = [] /\ extsort_shift es' = Ok (None, es').
Proof.
  apply (empty_session_ends_at_once Sample.insertion_sort
           (Sample.session 1000)); reflexivity.
Defined.

(** C10.  Pulls after the end.  When a pull returns the end-of-data signal
    the session is unchanged, and every pull after it returns the signal
    again and leaves the session as it is. *)
Theorem pull_after_end (es es' : extsort_t) :
  extsort_shift es = Ok (None, es') ->
  es' = es /\
  forall n, shift_times n es' = Ok (repeat None n, es').
Proof.
  intros E.
  assert (Hsame : es' = es).
  { unfold extsort_shift in E. destruct (bhp es) as [h|]; [|discriminate].
    destruct (KHeap.ndat h =? 0)%nat; [inversion E; reflexivity|].
    match type of E with
    | bind ?m _ = _ => destruct m as [[ret b]| |]
    end; proj; discriminate. }
  split; [exact Hsame|]. subst es'.
  induction n as [|n IH]; [reflexivity|].
  cbn [shift_times repeat]. rewrite E. proj. rewrite IH. reflexivity.
Qed.

Lemma pull_after_end_witness :
  set_bhp (Some []) (Sample.session 20) = set_bhp (Some []) (Sample.session 20) /\
  forall n,
    shift_times n (set_bhp (Some []) (Sample.session 20))
    = Ok (repeat None n, set_bhp (Some []) (Sample.session 20)).
Proof.
  apply (pull_after_end (set_bhp (Some []) (Sample.session 20))
           (set_bhp (Some []) (Sample.session 20))).
  reflexivity.
Defined.

(** * Further properties of the code *)

(** ** What the calls leave alone *)

Lemma array_set_beyond {A : Type} (l : list A) (i : nat) (x : A) :
  (length l <= i)%nat -> array_set l i x = l.
Proof.
  revert i; induction l as [|a l IH]; intros [|i] H; simpl in *;
    try lia; auto.
  rewrite IH by lia. reflexivity.
Qed.

Lemma nth_array_set_blk (l : list blk_t) (i j : nat) (x : blk_t) :
  nth j (array_set l i x) blk_null = nth j l blk_null \/
  (j = i /\ (i < length l)%nat /\ nth j (array_set l i x) blk_null = x).
Proof.
  destruct (Nat.eq_dec i j) as [->|Hne].
  - destruct (Nat.lt_ge_cases j (length l)) as [L|G].
    + right. split; [reflexivity|]. split; [exact L|].
      apply nth_array_set_eq. exact L.
    + left. rewrite array_set_beyond by exact G. reflexivity.
  - left. apply nth_array_set_neq. exact Hne.
Qed.

Lemma same_files_refl (es : extsort_t) : same_files es es.
Proof. split; [reflexivity|]. intros i. split; [reflexivity | now left]. Qed.

Lemma same_files_trans (es1 es2 es3 : extsort_t) :
  same_files es1 es2 -> same_files es2 es3 -> same_files es1 es3.
Proof.
  intros [N12 F12] [N23 F23]. split; [congruence|].
  intros i. destruct (F12 i) as [D12 C12]. destruct (F23 i) as [D23 C23].
  split; [congruence|].
  destruct C23 as [C23|C23]; [|now right].
  destruct C12 as [C12|C12]; [left | right]; congruence.
Qed.

Lemma same_config_refl (es : extsort_t) : same_config es es.
Proof. repeat split. Qed.

Lemma same_config_trans (es1 es2 es3 : extsort_t) :
  same_config es1 es2 -> same_config es2 es3 -> same_config es1 es3.
Proof.
  intros (A1 & B1 & C1 & D1) (A2 & B2 & C2 & D2).
  repeat split; congruence.
Qed.

Lemma blk_read_frame (es : extsort_t) (b b' : blk_t) (ret : Z) :
  _blk_read es b = Ok (ret, b') ->
  f_data b' = f_data b /\ fname b' = fname b /\
  (fd b' = fd b \/ fd b' = -1).
Proof.
  unfold _blk_read, sys_read.
  destruct (fd b =? -1).
  - intros E. inversion E; subst. auto.
  - match goal with
    | |- context [Z.of_nat ?n <? 0] => destruct (Z.of_nat n <? 0)
    end; [discriminate|].
    match goal with
    | |- context [Z.of_nat ?n =? 0] => destruct (Z.of_nat n =? 0)
    end.
    + intros E. inversion E; subst. proj. auto.
    + match goal with
      | |- context [Z.of_nat ?n <? ?m] => destruct (Z.of_nat n <? m)
      end; [discriminate|].
      intros E. inversion E; subst. proj. auto.
Qed.

Lemma block_update_same_files (es es' : extsort_t) (i : nat) (b' : blk_t) :
  blk es' = array_set (blk es) i b' ->
  f_data b' = f_data (nth i (blk es) blk_null) ->
  (fd b' = fd (nth i (blk es) blk_null) \/ fd b' = -1) ->
  same_files es es'.
Proof.
  intros Eb Hd Hf. split.
  - unfold nblk. rewrite Eb. apply array_set_length.
  - intros j. rewrite Eb.
    destruct (nth_array_set_blk (blk es) i j b') as [E|(-> & _ & E)];
      rewrite E; [split; [reflexivity | now left]|].
    split; assumption.
Qed.

Lemma shift_frame (es es' : extsort_t) (r : option record) :
  extsort_shift es = Ok (r, es') ->
  same_files es es' /\ same_config es es' /\
  buf es' = buf es /\ mem es' = mem es.
Proof.
  unfold extsort_shift. destruct (bhp es) as [h|]; [|discriminate].
  destruct (KHeap.ndat h =? 0)%nat.
  - intros E. inversion E; subst.
    split; [apply same_files_refl|]. split; [apply same_config_refl|].
    split; reflexivity.
  - set (i := nth 0 h 0%nat). set (b := nth i (blk es) blk_null).
    proj.
    destruct (_blk_read _ (nth i (array_set (blk es) i (set_dat (tmp_dat es) b))
                               blk_null)) as [[ret b']| |] eqn:Er;
      proj; try discriminate.
    intros E. inversion E; subst; clear E.
    split; [|split; [repeat split|split; reflexivity]].
    apply blk_read_frame in Er. destruct Er as (Hd & _ & Hf).
    apply (block_update_same_files es _ i b').
    + proj. apply array_set_twice.
    + rewrite Hd.
      destruct (nth_array_set_blk (blk es) i i (set_dat (tmp_dat es) b))
        as [E|(_ & _ & E)]; rewrite E; reflexivity.
    + destruct (nth_array_set_blk (blk es) i i (set_dat (tmp_dat es) b))
        as [E|(_ & _ & E)]; rewrite E in Hf; exact Hf.
Qed.

Lemma pulled_frame (es es' : extsort_t) :
  pulled es es' ->
  same_files es es' /\ same_config es es' /\
  buf es' = buf es /\ mem es' = mem es.
Proof.
  induction 1 as [|es1 es2 r Hp IH Hs].
  - split; [apply same_files_refl|]. split; [apply same_config_refl|].
    split; reflexivity.
  - destruct IH as (F1 & C1 & B1 & M1).
    destruct (shift_frame es1 es2 r Hs) as (F2 & C2 & B2 & M2).
    split; [eapply same_files_trans; eassumption|].
    split; [eapply same_config_trans; eassumption|].
    split; congruence.
Qed.

Lemma pull_n_pulled (n : nat) : forall es out es',
  pull_n n es = Ok (out, es') -> pulled es es'.
Proof.
  induction n as [|n IH]; intros es out es' E; cbn [pull_n] in E.
  - inversion E; subst. apply pulled_none.
  - destruct (extsort_shift es) as [[r es1]| |] eqn:Es; proj;
      try discriminate.
    assert (Hstep : pulled es es1)
      by (eapply pulled_more; [apply pulled_none | exact Es]).
    destruct r as [x|].
    + destruct (pull_n n es1) as [[out1 es2]| |] eqn:En; proj;
        try discriminate.
      inversion E; subst.
      specialize (IH es1 out1 es' En).
      clear - Hstep IH. induction IH as [|e1 e2 r Hp IHp Hs];
        [exact Hstep | eapply pulled_more; eassumption].
    + inversion E; subst. exact Hstep.
Qed.

Lemma sort_step_frame (es es' : extsort_t) (i : nat) :
  sort_step es i = Ok es' ->
  same_files es es' /\ same_config es es' /\
  buf es' = buf es /\ mem es' = mem es.
Proof.
  unfold sort_step, sys_rewind.
  set (b := nth i (blk es) blk_null).
  destruct (fd b =? -1); cbn [negb Z.eqb]; [discriminate|].
  destruct (_blk_read es (mk_blk (fd b) (fname b) (dat b) (f_data b) 0))
    as [[ret b']| |] eqn:Er; proj; try discriminate.
  apply blk_read_frame in Er. proj. destruct Er as (Hd & _ & Hf).
  assert (Hfiles : forall e, blk e = array_set (blk es) i b' ->
                             same_files es e).
  { intros e Ee. apply (block_update_same_files es e i b'); assumption. }
  destruct (negb (to_int ret =? 0)).
  - destruct (bhp es) as [h|]; [|discriminate].
    intros E. inversion E; subst; clear E.
    split; [apply Hfiles; reflexivity|].
    split; [repeat split | split; reflexivity].
  - intros E. inversion E; subst; clear E.
    split; [apply Hfiles; reflexivity|].
    split; [repeat split | split; reflexivity].
Qed.

Lemma sort_loop_frame (idx : list nat) : forall es es',
  sort_loop es idx = Ok es' ->
  same_files es es' /\ same_config es es' /\
  buf es' = buf es /\ mem es' = mem es.
Proof.
  induction idx as [|i idx IH]; intros es es' E; cbn [sort_loop] in E.
  - inversion E; subst.
    split; [apply same_files_refl|]. split; [apply same_config_refl|].
    split; reflexivity.
  - destruct (sort_step es i) as [es1| |] eqn:Es; proj; try discriminate.
    destruct (sort_step_frame es es1 i Es) as (F1 & C1 & B1 & M1).
    destruct (IH es1 es' E) as (F2 & C2 & B2 & M2).
    split; [eapply same_files_trans; eassumption|].
    split; [eapply same_config_trans; eassumption|].
    split; congruence.
Qed.

Lemma write_loop_frame (sz : Z) (rs : list record) : forall b b',
  write_loop sz b rs = Ok b' ->
  fd b' = fd b /\ fname b' = fname b /\ dat b' = dat b.
Proof.
  induction rs as [|r rs IH]; intros b b' E; cbn [write_loop] in E.
  - inversion E; subst. auto.
  - unfold sys_write in E.
    destruct (negb (Z.of_nat (length (firstn (Z.to_nat sz) r)) =? sz));
      [discriminate|].
    apply IH in E. proj. exact E.
Qed.

(** A flush that returns leaves the blocks in place and adds at most one,
    open on the descriptor [mkstemp] gives the next block. *)
Lemma buf_flush_frame (qsort : extsort_cmp_f -> list record -> list record)
      (es es' : extsort_t) :
  _buf_flush qsort es = Ok es' ->
  same_config es es' /\ bhp es' = bhp es /\ tmp_dat es' = tmp_dat es /\
  buffered es' = [] /\
  ((buffered es = [] /\ es' = es) \/
   (buffered es <> [] /\ mem es' = 0 /\
    exists b, blk es' = blk es ++ [b] /\ fd b = mkstemp_fd (nblk es))).
Proof.
  intros E. unfold _buf_flush, nbuf in E.
  destruct (buffered es) as [|r0 l0] eqn:Ebuf.
  - cbn [length Nat.eqb] in E. inversion E; subst es'.
    split; [apply same_config_refl|]. split; [reflexivity|].
    split; [reflexivity|]. split; [exact Ebuf|]. left. split; reflexivity.
  - cbn [length Nat.eqb] in E.
    destruct (cmp es) as [f|] eqn:Ecmp; [|discriminate].
    destruct (tmp_prefix es) as [p|] eqn:Epre; [|discriminate].
    proj. change (nblk (set_buf _ es)) with (nblk es) in E.
    destruct (write_loop (dat_size es)
                (mk_blk (mkstemp_fd (nblk es)) p (malloc (dat_size es)) [] 0)
                (qsort f (r0 :: l0))) as [b1| |] eqn:Ew; proj;
      try discriminate.
    apply write_loop_frame in Ew. proj. destruct Ew as (Hfd & _ & _).
    unfold sys_rewind in E.
    destruct (fd b1 =? -1); cbn [negb Z.eqb] in E; [discriminate|].
    inversion E; subst es'; clear E. proj.
    split; [repeat split; assumption|]. split; [reflexivity|].
    split; [reflexivity|]. split; [reflexivity|]. right.
    split; [discriminate|]. split; [reflexivity|].
    eexists. split; [reflexivity|]. proj. exact Hfd.
Qed.

Lemma push_frame (qsort : extsort_cmp_f -> list record -> list record)
      (es es' : extsort_t) (r : record) :
  extsort_push qsort es r = Ok es' ->
  same_config es es' /\ bhp es' = bhp es /\ tmp_dat es' = tmp_dat es /\
  (blk es' = blk es \/
   exists b, blk es' = blk es ++ [b] /\ fd b = mkstemp_fd (nblk es)).
Proof.
  intros E. destruct (push_inv qsort es es' r E) as (es1 & c & Ef & ->).
  clear E. destruct (over_budget es).
  - destruct (buf_flush_frame qsort es es1 Ef)
      as ((A & B & C & D) & Hb & Ht & _ & Hcase).
    split; [repeat split; proj; assumption|].
    split; [proj; exact Hb|]. split; [proj; exact Ht|]. proj.
    destruct Hcase as [(_ & E1)|(_ & _ & b & Eb & Hfd)].
    + left. rewrite E1. reflexivity.
    + right. exists b. split; assumption.
  - inversion Ef; subst es1.
    split; [repeat split|]. split; [reflexivity|].
    split; [reflexivity|]. now left.
Qed.

(** *** The descriptors of the blocks *)

Lemma in_place_append (es es' : extsort_t) (b : blk_t) :
  descriptors_in_place es ->
  blk es' = blk es ++ [b] -> fd b = mkstemp_fd (nblk es) ->
  descriptors_in_place es'.
Proof.
  intros Hin Eb Hfd i Hi. unfold nblk in *. rewrite Eb in *.
  rewrite length_app in Hi. cbn [length] in Hi.
  destruct (Nat.lt_ge_cases i (length (blk es))) as [L|G].
  - rewrite app_nth1 by exact L. apply Hin. exact L.
  - assert (i = length (blk es)) by lia. subst i.
    rewrite app_nth2, Nat.sub_diag by lia. cbn [nth]. left. exact Hfd.
Qed.

Lemma in_place_same_files (es es' : extsort_t) :
  descriptors_in_place es -> same_files es es' -> descriptors_in_place es'.
Proof.
  intros Hin [Hn Hf] i Hi. rewrite Hn in Hi.
  destruct (Hf i) as [_ [E|E]]; [rewrite E; apply Hin; exact Hi | now right].
Qed.

Lemma in_place_push (qsort : extsort_cmp_f -> list record -> list record)
      (es es' : extsort_t) (r : record) :
  descriptors_in_place es -> extsort_push qsort es r = Ok es' ->
  descriptors_in_place es'.
Proof.
  intros Hin E.
  destruct (push_frame qsort es es' r E) as (_ & _ & _ & [Eb|(b & Eb & Hfd)]).
  - intros i Hi. unfold nblk in Hi. rewrite Eb in *. apply Hin. exact Hi.
  - eapply in_place_append; eassumption.
Qed.

Lemma in_place_sort (qsort : extsort_cmp_f -> list record -> list record)
      (es es' : extsort_t) :
  descriptors_in_place es -> extsort_sort qsort es = Ok es' ->
  descriptors_in_place es'.
Proof.
  intros Hin E. unfold extsort_sort in E.
  destruct (_buf_flush qsort es) as [es1| |] eqn:Ef; proj; try discriminate.
  apply sort_loop_frame in E. destruct E as (Hf & _).
  apply (in_place_same_files (set_bhp (Some KHeap.khp_init) (set_buf None es1)));
    [|exact Hf].
  destruct (buf_flush_frame qsort es es1 Ef)
    as (_ & _ & _ & _ & [(_ & ->)|(_ & _ & b & Eb & Hfd)]).
  - exact Hin.
  - apply (in_place_append es _ b); assumption.
Qed.

Lemma mkstemp_fd_inj (i j : nat) : mkstemp_fd i = mkstemp_fd j -> i = j.
Proof. unfold mkstemp_fd. lia. Qed.

Lemma destroy_loop_in (bs : list blk_t) (z : Z) :
  In z (destroy_loop bs) <->
  exists j, (j < length bs)%nat /\ fd (nth j bs blk_null) = z /\ z <> -1.
Proof.
  induction bs as [|b bs IH]; cbn [destroy_loop].
  - split; [intros [] | intros (j & Hj & _); simpl in Hj; lia].
  - rewrite in_app_iff, IH. split.
    + intros [Hz|(j & Hj & E & N)].
      * destruct (Z.eqb_spec (fd b) (-1)) as [?|Hn]; cbn [negb] in Hz;
          [destruct Hz|].
        destruct Hz as [<-|[]]. exists 0%nat. cbn. split; [lia | auto].
      * exists (S j). cbn. split; [lia | auto].
    + intros ([|j] & Hj & E & N); cbn in *.
      * left. destruct (Z.eqb_spec (fd b) (-1)) as [?|Hn]; [congruence|].
        cbn. now left.
      * right. exists j. split; [lia | auto].
Qed.

Lemma destroy_loop_nodup (bs : list blk_t) : forall k,
  (forall j, (j < length bs)%nat ->
     fd (nth j bs blk_null) = mkstemp_fd (k + j) \/
     fd (nth j bs blk_null) = -1) ->
  NoDup (destroy_loop bs).
Proof.
  induction bs as [|b bs IH]; intros k Hin; cbn [destroy_loop].
  - constructor.
  - assert (Hrest : NoDup (destroy_loop bs)).
    { apply (IH (S k)). intros j Hj.
      specialize (Hin (S j) ltac:(simpl; lia)). cbn [nth] in Hin.
      replace (S k + j)%nat with (k + S j)%nat by lia. exact Hin. }
    destruct (Z.eqb_spec (fd b) (-1)) as [?|Hn]; cbn [negb app];
      [exact Hrest|].
    constructor; [|exact Hrest].
    intros C. apply destroy_loop_in in C. destruct C as (j & Hj & E & _).
    destruct (Hin 0%nat ltac:(simpl; lia)) as [E0|E0]; cbn [nth] in E0;
      [|contradiction].
    destruct (Hin (S j) ltac:(simpl; lia)) as [E1|E1]; cbn [nth] in E1.
    + rewrite E, E0 in E1. apply mkstemp_fd_inj in E1. lia.
    + congruence.
Qed.

(** X1.  [extsort_destroy] closes no descriptor twice.  In a session
    that started without blocks and went through pushes, the finalisation
    and any number of pulls, the calls of [close] made by
    [extsort_destroy] are on pairwise different descriptors, never on -1,
    and every block still open is closed by one of them. *)
Theorem destroy_closes_each_open_run_once
    (qsort : extsort_cmp_f -> list record -> list record)
    (es0 es1 es2 es : extsort_t) (l : list record) :
  blk es0 = [] ->
  push_all qsort es0 l = Ok es1 ->
  extsort_sort qsort es1 = Ok es2 ->
  pulled es2 es ->
  NoDup (extsort_destroy es) /\
  ~ In (-1) (extsort_destroy es) /\
  (forall i, (i < nblk es)%nat ->
     fd (nth i (blk es) blk_null) <> -1 ->
     In (fd (nth i (blk es) blk_null)) (extsort_destroy es)).
Proof.
  intros Hblk E1 E2 Hp.
  assert (H0 : descriptors_in_place es0).
  { intros i Hi. unfold nblk in Hi. rewrite Hblk in Hi. simpl in Hi. lia. }
  assert (H1 : descriptors_in_place es1).
  { apply (push_all_invariant qsort descriptors_in_place) with (l := l)
      (es := es0); [|exact H0 | exact E1].
    intros e r e' He Ee. apply (in_place_push qsort e e' r He Ee). }
  assert (H2 : descriptors_in_place es2)
    by (apply (in_place_sort qsort es1 es2 H1 E2)).
  assert (H : descriptors_in_place es).
  { apply (in_place_same_files es2 es H2). apply pulled_frame. exact Hp. }
  unfold extsort_destroy. split; [|split].
  - apply (destroy_loop_nodup (blk es) 0). exact H.
  - intros C. apply destroy_loop_in in C. destruct C as (_ & _ & _ & C).
    apply C. reflexivity.
  - intros i Hi Hopen. apply destroy_loop_in. exists i. auto.
Qed.

Lemma destroy_closes_each_open_run_once_witness :
  exists es1 es2 es,
    push_all Sample.insertion_sort (Sample.session 20)
      [Sample.r5; Sample.r3; Sample.r4; Sample.r1; Sample.r2] = Ok es1 /\
    extsort_sort Sample.insertion_sort es1 = Ok es2 /\
    pull_n 2 es2 = Ok ([Sample.r1; Sample.r2], es) /\
    extsort_destroy es = [3; 4] /\
    NoDup (extsort_destroy es) /\
    ~ In (-1) (extsort_destroy es) /\
    (forall i, (i < nblk es)%nat ->
       fd (nth i (blk es) blk_null) <> -1 ->
       In (fd (nth i (blk es) blk_null)) (extsort_destroy es)).
Proof.
  do 3 eexists.
  split; [cbv; reflexivity|].
  split; [cbv; reflexivity|].
  split; [cbv; reflexivity|].
  split; [reflexivity|].
  eapply (destroy_closes_each_open_run_once Sample.insertion_sort
            (Sample.session 20) _ _ _
            [Sample.r5; Sample.r3; Sample.r4; Sample.r1; Sample.r2]).
  - reflexivity.
  - cbv; reflexivity.
  - cbv; reflexivity.
  - eapply (pull_n_pulled 2). cbv; reflexivity.
Defined.

(** The state of a session between pulls. *)
Lemma retrieval_state
    (qsort : extsort_cmp_f -> list record -> list record)
    (f : extsort_cmp_f) (es0 es1 es2 es : extsort_t) (l : list record) :
  sorts qsort -> total_order f -> fresh f es0 ->
  Forall (fun r => length r = rec_len es0) l ->
  push_all qsort es0 l = Ok es1 ->
  extsort_sort qsort es1 = Ok es2 ->
  pulled es2 es ->
  exists h, bhp es = Some h /\ merging f es h (nblk es) /\
            descriptors_in_place es.
Proof.
  intros Hq Hf Hfresh Hall E1 E2 Hp.
  destruct (session_runs qsort Hq f Hf es0 l Hfresh Hall)
    as (es1' & es2' & h2 & E1' & E2' & Hbhp2 & Hm2 & _).
  rewrite E1 in E1'. inversion E1'; subst es1'.
  rewrite E2 in E2'. inversion E2'; subst es2'.
  destruct (pulled_merging f Hf es2 h2 es Hm2 Hbhp2 Hp) as (h & Hbhp & Hm).
  exists h. split; [exact Hbhp|]. split; [exact Hm|].
  apply (in_place_same_files es2 es); [|apply pulled_frame; exact Hp].
  apply (in_place_sort qsort es1 es2); [|exact E2].
  apply (push_all_invariant qsort descriptors_in_place) with (l := l)
    (es := es0); [| |exact E1].
  - intros e r e' He Ee. apply (in_place_push qsort e e' r He Ee).
  - intros i Hi. unfold nblk in Hi. rewrite (fresh_blk _ _ Hfresh) in Hi.
    simpl in Hi. lia.
Qed.

Lemma merging_open_iff (f : extsort_cmp_f) (es : extsort_t) (h : list nat) :
  merging f es h (nblk es) ->
  forall i, In i h <->
            (i < nblk es)%nat /\ fd (nth i (blk es) blk_null) <> -1.
Proof.
  intros Hm i. split.
  - intros Hi. destruct (hr_in _ _ _ (mrg_runs _ _ _ _ Hm) i Hi)
      as (Hlt & Hfd & _). split; assumption.
  - intros [Hlt Hfd]. destruct (in_dec Nat.eq_dec i h) as [?|Hn];
      [assumption|].
    exfalso. apply Hfd. apply (mrg_out _ _ _ _ Hm i Hlt Hn).
Qed.

(** X2.  The heap and the open Runs.  Between pulls the heap holds each
    block whose descriptor is open exactly once, and no block that is
    closed: a Run leaves the heap at the call that closes it. *)
Theorem heap_holds_exactly_the_open_runs
    (qsort : extsort_cmp_f -> list record -> list record)
    (f : extsort_cmp_f) (es0 es1 es2 es : extsort_t) (l : list record) :
  sorts qsort -> total_order f -> fresh f es0 ->
  Forall (fun r => length r = rec_len es0) l ->
  push_all qsort es0 l = Ok es1 ->
  extsort_sort qsort es1 = Ok es2 ->
  pulled es2 es ->
  exists h,
    bhp es = Some h /\ NoDup h /\
    forall i, In i h <->
              (i < nblk es)%nat /\ fd (nth i (blk es) blk_null) <> -1.
Proof.
  intros Hq Hf Hfresh Hall E1 E2 Hp.
  destruct (retrieval_state qsort f es0 es1 es2 es l Hq Hf Hfresh Hall
              E1 E2 Hp) as (h & Hbhp & Hm & _).
  exists h. split; [exact Hbhp|]. split.
  - apply (hr_nodup _ _ _ (mrg_runs _ _ _ _ Hm)).
  - apply (merging_open_iff f es h Hm).
Qed.

Lemma heap_holds_exactly_the_open_runs_witness :
  exists es1 es2 es h,
    push_all Sample.insertion_sort (Sample.session 20)
      [Sample.r5; Sample.r3; Sample.r4; Sample.r1; Sample.r2] = Ok es1 /\
    extsort_sort Sample.insertion_sort es1 = Ok es2 /\
    pull_n 2 es2 = Ok ([Sample.r1; Sample.r2], es) /\
    map fd (blk es) = [3; 4; -1] /\
    bhp es = Some h /\ NoDup h /\
    forall i, In i h <->
              (i < nblk es)%nat /\ fd (nth i (blk es) blk_null) <> -1.
Proof.
  do 3 eexists.
  match goal with
  | |- exists h, ?A /\ ?B /\ ?C /\ ?D /\ @?P h =>
      assert (HA : A) by (cbv; reflexivity);
      assert (HB : B) by (cbv; reflexivity);
      assert (HC : C) by (cbv; reflexivity);
      assert (HD : D) by reflexivity;
      assert (HP : exists h, P h)
  end.
  - eapply (heap_holds_exactly_the_open_runs Sample.insertion_sort
              Sample.by_key (Sample.session 20) _ _ _
              [Sample.r5; Sample.r3; Sample.r4; Sample.r1; Sample.r2]
              insertion_sort_sorts by_key_total_order (session_fresh 20)).
    + repeat constructor.
    + exact HA.
    + exact HB.
    + exact (pull_n_pulled 2 _ _ _ HC).
  - destruct HP as (h & HP). exists h. auto.
Defined.

Lemma mkstemp_fd_nodup (h : list nat) :
  NoDup h -> NoDup (map mkstemp_fd h).
Proof.
  induction 1 as [|a h Ha Hh IH]; cbn [map]; constructor; [|exact IH].
  intros C. apply in_map_iff in C. destruct C as (b & E & Hb).
  apply mkstemp_fd_inj in E. subst b. contradiction.
Qed.

(** X3.  What [extsort_destroy] closes.  Between pulls, the descriptors
    that [extsort_destroy] closes are those of the Runs still in the heap,
    one call of [close] for each: none is left open, and once the data is
    exhausted there is nothing to close. *)
Theorem destroy_closes_the_runs_of_the_heap
    (qsort : extsort_cmp_f -> list record -> list record)
    (f : extsort_cmp_f) (es0 es1 es2 es : extsort_t) (l : list record)
    (h : list nat) :
  sorts qsort -> total_order f -> fresh f es0 ->
  Forall (fun r => length r = rec_len es0) l ->
  push_all qsort es0 l = Ok es1 ->
  extsort_sort qsort es1 = Ok es2 ->
  pulled es2 es ->
  bhp es = Some h ->
  Permutation (extsort_destroy es) (map mkstemp_fd h) /\
  (h = [] -> extsort_destroy es = []).
Proof.
  intros Hq Hf Hfresh Hall E1 E2 Hp Hbhp.
  destruct (retrieval_state qsort f es0 es1 es2 es l Hq Hf Hfresh Hall
              E1 E2 Hp) as (h' & Hbhp' & Hm & Hplace).
  rewrite Hbhp in Hbhp'. inversion Hbhp'; subst h'.
  pose proof (merging_open_iff f es h Hm) as Hopen.
  assert (Hperm : Permutation (extsort_destroy es) (map mkstemp_fd h)).
  { apply NoDup_Permutation.
    - apply (destroy_loop_nodup (blk es) 0). exact Hplace.
    - apply mkstemp_fd_nodup.
      apply (hr_nodup _ _ _ (mrg_runs _ _ _ _ Hm)).
    - intros z. unfold extsort_destroy. rewrite destroy_loop_in, in_map_iff.
      split.
      + intros (j & Hj & E & N). exists j.
        destruct (Hplace j Hj) as [Ej|Ej]; [|congruence].
        split; [congruence|]. apply Hopen. split; [exact Hj | congruence].
      + intros (j & E & Hj). apply Hopen in Hj. destruct Hj as [Hlt Hfd].
        exists j. destruct (Hplace j Hlt) as [Ej|Ej]; [|contradiction].
        split; [exact Hlt|]. split; congruence. }
  split; [exact Hperm|].
  intros ->. apply Permutation_nil. symmetry. exact Hperm.
Qed.

Lemma destroy_closes_the_runs_of_the_heap_witness :
  exists es1 es2 es h,
    push_all Sample.insertion_sort (Sample.session 20)
      [Sample.r5; Sample.r3; Sample.r4; Sample.r1; Sample.r2] = Ok es1 /\
    extsort_sort Sample.insertion_sort es1 = Ok es2 /\
    pull_n 2 es2 = Ok ([Sample.r1; Sample.r2], es) /\
    bhp es = Some h /\
    Permutation (extsort_destroy es) (map mkstemp_fd h) /\
    (h = [] -> extsort_destroy es = []).
Proof.
  do 4 eexists.
  split; [cbv; reflexivity|].
  split; [cbv; reflexivity|].
  split; [cbv; reflexivity|].
  split; [cbv; reflexivity|].
  eapply (destroy_closes_the_runs_of_the_heap Sample.insertion_sort
            Sample.by_key (Sample.session 20) _ _ _
            [Sample.r5; Sample.r3; Sample.r4; Sample.r1; Sample.r2] _
            insertion_sort_sorts by_key_total_order (session_fresh 20)).
  - repeat constructor.
  - cbv; reflexivity.
  - cbv; reflexivity.
  - eapply (pull_n_pulled 2). cbv; reflexivity.
  - reflexivity.
Defined.

(** X4.  Pulls never write.  Over any number of pulls the session keeps
    its blocks; the records stored in the file of each block stay the
    same, a closed descriptor stays closed, and the configuration, the
    buffer and the estimate are untouched. *)
Theorem pulls_never_write (es es' : extsort_t) :
  pulled es es' ->
  nblk es' = nblk es /\
  (forall i,
     stored es' (nth i (blk es') blk_null)
     = stored es (nth i (blk es) blk_null) /\
     (fd (nth i (blk es) blk_null) = -1 ->
      fd (nth i (blk es') blk_null) = -1)) /\
  same_config es es' /\ buf es' = buf es /\ mem es' = mem es.
Proof.
  intros Hp. destruct (pulled_frame es es' Hp) as ([Hn Hf] & Hc & Hb & Hm).
  split; [exact Hn|]. split; [|split; [exact Hc | split; assumption]].
  intros i. destruct (Hf i) as [Hd Hfd]. split.
  - unfold stored, rec_len. destruct Hc as (-> & _). now rewrite Hd.
  - intros Hclosed. destruct Hfd as [E|E]; congruence.
Qed.

Lemma pulls_never_write_witness :
  exists es1 es2 es,
    push_all Sample.insertion_sort (Sample.session 20)
      [Sample.r5; Sample.r3; Sample.r4; Sample.r1; Sample.r2] = Ok es1 /\
    extsort_sort Sample.insertion_sort es1 = Ok es2 /\
    pull_n 2 es2 = Ok ([Sample.r1; Sample.r2], es) /\
    nblk es = nblk es2 /\
    (forall i,
       stored es (nth i (blk es) blk_null)
       = stored es2 (nth i (blk es2) blk_null) /\
       (fd (nth i (blk es2) blk_null) = -1 ->
        fd (nth i (blk es) blk_null) = -1)) /\
    same_config es2 es /\ buf es = buf es2 /\ mem es = mem es2.
Proof.
  do 3 eexists.
  split; [cbv; reflexivity|].
  split; [cbv; reflexivity|].
  split; [cbv; reflexivity|].
  eapply pulls_never_write. eapply (pull_n_pulled 2). cbv; reflexivity.
Defined.

(** X5.  Pushes only append.  Whatever is pushed, the blocks that exist
    stay as they are: new blocks come after them, at most one for each
    push, and the configuration, the heap and the scratch slot are not
    touched. *)
Theorem pushes_only_append
    (qsort : extsort_cmp_f -> list record -> list record)
    (l : list record) (es es' : extsort_t) :
  push_all qsort es l = Ok es' ->
  exists bs,
    blk es' = blk es ++ bs /\ (length bs <= length l)%nat /\
    same_config es es' /\ bhp es' = bhp es /\ tmp_dat es' = tmp_dat es.
Proof.
  revert es es'. induction l as [|r l IH]; intros es es' E;
    cbn [push_all] in E.
  - inversion E; subst. exists []. rewrite app_nil_r.
    split; [reflexivity|]. split; [simpl; lia|].
    split; [apply same_config_refl | split; reflexivity].
  - destruct (extsort_push qsort es r) as [es1| |] eqn:Er; proj;
      try discriminate.
    destruct (push_frame qsort es es1 r Er) as (C1 & B1 & T1 & Hblk).
    destruct (IH es1 es' E) as (bs & Eb & Hlen & C2 & B2 & T2).
    destruct Hblk as [E1|(b & E1 & _)]; rewrite E1 in Eb.
    + exists bs. split; [exact Eb|]. split; [simpl; lia|].
      split; [eapply same_config_trans; eassumption|]. split; congruence.
    + exists (b :: bs). rewrite <- app_assoc in Eb.
      split; [exact Eb|]. split; [simpl; lia|].
      split; [eapply same_config_trans; eassumption|]. split; congruence.
Qed.

Lemma pushes_only_append_witness :
  exists es' bs,
    push_all Sample.insertion_sort Sample.after_three
      [Sample.r1; Sample.r2] = Ok es' /\
    blk es' = blk Sample.after_three ++ bs /\ (length bs <= 2)%nat /\
    same_config Sample.after_three es' /\
    bhp es' = bhp Sample.after_three /\
    tmp_dat es' = tmp_dat Sample.after_three.
Proof.
  eexists.
  match goal with
  | |- exists bs, ?A /\ _ => assert (HA : A) by (cbv; reflexivity)
  end.
  destruct (pushes_only_append Sample.insertion_sort _ _ _ HA) as (bs & H).
  exists bs. split; [exact HA | exact H].
Defined.

(** *** Pulling part of the data *)

Lemma pull_n_partial (f : extsort_cmp_f) (n : nat) :
  total_order f ->
  forall es h,
    merging f es h (nblk es) -> bhp es = Some h ->
    (n <= length (remaining es h))%nat ->
    exists out es' h',
      pull_n n es = Ok (out, es') /\ length out = n /\
      bhp es' = Some h' /\ merging f es' h' (nblk es') /\
      Permutation (out ++ remaining es' h') (remaining es h) /\
      StronglySorted (cmp_le f) out /\
      Forall (fun a => Forall (cmp_le f a) (remaining es' h')) out.
Proof.
  intros Hf. induction n as [|n IH]; intros es h Hm Hbhp Hlen.
  - exists [], es, h. cbn [pull_n app length].
    split; [reflexivity|]. split; [reflexivity|]. split; [exact Hbhp|].
    split; [exact Hm|]. split; [reflexivity|]. split; constructor.
  - assert (Hne : h <> []).
    { intros ->. cbn in Hlen. lia. }
    destruct (shift_merging f Hf es h Hm Hbhp Hne)
      as (es1 & h1 & E1 & Hbhp1 & Hm1 & Hperm1).
    pose proof (heap_min_least f Hf es h (mrg_runs _ _ _ _ Hm)) as Hleast.
    eapply Permutation_Forall in Hleast; [|exact Hperm1].
    inversion Hleast as [|? ? _ Hleast1]; subst.
    destruct (IH es1 h1 Hm1 Hbhp1)
      as (out & es2 & h2 & E2 & Hl2 & Hbhp2 & Hm2 & Hp2 & Hs2 & Hall2).
    { apply Permutation_length in Hperm1. simpl in Hperm1. lia. }
    assert (Hboth : Forall (cmp_le f (heap_min es h))
                      (out ++ remaining es2 h2))
      by (eapply Permutation_Forall; [symmetry; exact Hp2 | exact Hleast1]).
    apply Forall_app in Hboth. destruct Hboth as [Hout Hrem].
    exists (heap_min es h :: out), es2, h2.
    cbn [pull_n]. rewrite E1. proj. rewrite E2. proj.
    split; [reflexivity|]. split; [simpl; lia|]. split; [exact Hbhp2|].
    split; [exact Hm2|]. split; [|split].
    + cbn [app]. rewrite Hperm1. apply perm_skip. exact Hp2.
    + constructor; assumption.
    + constructor; assumption.
Qed.

(** X6.  A partial retrieval.  If [n] records are pulled, [n] at most the
    number pushed, then [n] records come back, in order, each of them not
    after any record that is still to come; together with those they are
    the records pushed. *)
Theorem partial_pulls_are_the_smallest
    (qsort : extsort_cmp_f -> list record -> list record)
    (f : extsort_cmp_f) (es0 : extsort_t) (l : list record) (n : nat) :
  sorts qsort -> total_order f -> fresh f es0 ->
  Forall (fun r => length r = rec_len es0) l ->
  (n <= length l)%nat ->
  exists es1 es2 out es3 h3,
    push_all qsort es0 l = Ok es1 /\
    extsort_sort qsort es1 = Ok es2 /\
    pull_n n es2 = Ok (out, es3) /\
    length out = n /\ bhp es3 = Some h3 /\
    StronglySorted (cmp_le f) out /\
    Permutation (out ++ remaining es3 h3) l /\
    (forall a b, In a out -> In b (remaining es3 h3) -> cmp_le f a b).
Proof.
  intros Hq Hf Hfresh Hall Hn.
  destruct (session_runs qsort Hq f Hf es0 l Hfresh Hall)
    as (es1 & es2 & h & E1 & E2 & Hbhp & Hm & Hperm).
  destruct (pull_n_partial f n Hf es2 h Hm Hbhp)
    as (out & es3 & h3 & E3 & Hlen & Hbhp3 & _ & Hp3 & Hs3 & Hall3).
  { rewrite (Permutation_length Hperm). exact Hn. }
  exists es1, es2, out, es3, h3.
  split; [exact E1|]. split; [exact E2|]. split; [exact E3|].
  split; [exact Hlen|]. split; [exact Hbhp3|]. split; [exact Hs3|].
  split; [rewrite Hp3; exact Hperm|].
  intros a b Ha Hb. rewrite Forall_forall in Hall3.
  specialize (Hall3 a Ha). rewrite Forall_forall in Hall3.
  apply Hall3. exact Hb.
Qed.

Lemma partial_pulls_are_the_smallest_witness :
  exists es1 es2 out es3 h3,
    push_all Sample.insertion_sort (Sample.session 20)
      [Sample.r5; Sample.r3; Sample.r4; Sample.r1; Sample.r2] = Ok es1 /\
    extsort_sort Sample.insertion_sort es1 = Ok es2 /\
    pull_n 2 es2 = Ok (out, es3) /\
    length out = 2%nat /\ bhp es3 = Some h3 /\
    StronglySorted (cmp_le Sample.by_key) out /\
    Permutation (out ++ remaining es3 h3)
      [Sample.r5; Sample.r3; Sample.r4; Sample.r1; Sample.r2] /\
    (forall a b, In a out -> In b (remaining es3 h3) ->
                 cmp_le Sample.by_key a b).
Proof.
  apply (partial_pulls_are_the_smallest Sample.insertion_sort Sample.by_key
           (Sample.session 20)
           [Sample.r5; Sample.r3; Sample.r4; Sample.r1; Sample.r2] 2
           insertion_sort_sorts by_key_total_order (session_fresh 20)).
  - repeat constructor.
  - simpl. lia.
Defined.

(** *** The order of the output without ties *)

Lemma sorted_perm_unique (f : extsort_cmp_f) (l1 : list record) :
  total_order f ->
  forall l2,
    (forall a b, In a l1 -> In b l1 -> f a b = 0 -> a = b) ->
    StronglySorted (cmp_le f) l1 -> StronglySorted (cmp_le f) l2 ->
    Permutation l1 l2 -> l1 = l2.
Proof.
  intros Hf. induction l1 as [|a t IH]; intros l2 Htie Hs1 Hs2 Hp.
  - apply Permutation_nil in Hp. now subst.
  - destruct l2 as [|b t2].
    { apply Permutation_sym, Permutation_nil in Hp. discriminate. }
    inversion Hs1 as [|? ? Hst Hat]; subst.
    inversion Hs2 as [|? ? Hst2 Hbt]; subst.
    rewrite Forall_forall in Hat, Hbt.
    assert (Hab : cmp_le f a b).
    { assert (Hb : In b (a :: t))
        by (apply (Permutation_in _ (Permutation_sym Hp)); now left).
      destruct Hb as [<-|Hb]; [apply (cmp_le_refl f Hf) | apply Hat, Hb]. }
    assert (Hba : cmp_le f b a).
    { assert (Ha : In a (b :: t2)) by (apply (Permutation_in _ Hp); now left).
      destruct Ha as [<-|Ha]; [apply (cmp_le_refl f Hf) | apply Hbt, Ha]. }
    assert (E : a = b).
    { apply Htie; [now left | |].
      - apply (Permutation_in _ (Permutation_sym Hp)). now left.
      - apply (cmp_le_not_smaller f Hf) in Hba. unfold cmp_le in Hab. lia. }
    subst b. f_equal. apply IH; auto.
    + intros x y Hx Hy. apply Htie; now right.
    + apply Permutation_cons_inv in Hp. exact Hp.
Qed.

(** X7.  The merge is the one-pass sort.  If no two different records
    pushed tie under the comparator, the records pulled are, in order,
    the list that [qsort] makes of the whole input: the budget, and with
    it the number of Runs, does not show in the result. *)
Theorem pulls_equal_one_pass_sort
    (qsort : extsort_cmp_f -> list record -> list record)
    (f : extsort_cmp_f) (es0 : extsort_t) (l : list record) :
  sorts qsort -> total_order f -> tie_free f l -> fresh f es0 ->
  Forall (fun r => length r = rec_len es0) l ->
  exists es1 es2,
    push_all qsort es0 l = Ok es1 /\
    extsort_sort qsort es1 = Ok es2 /\
    forall n, (length l <= n)%nat ->
      exists es3, pull_n n es2 = Ok (qsort f l, es3).
Proof.
  intros Hq Hf Htie Hfresh Hall.
  destruct (session_pulls qsort Hq f Hf es0 l Hfresh Hall)
    as (es1 & es2 & E1 & E2 & Hpull).
  exists es1, es2. split; [exact E1|]. split; [exact E2|].
  intros n Hn. destruct (Hpull n Hn) as (out & es3 & E3 & Hp & Hs & _).
  destruct (Hq f l Hf) as [Hqp Hqs].
  exists es3. rewrite E3.
  replace (qsort f l) with out; [reflexivity|].
  apply (sorted_perm_unique f out Hf); auto.
  - intros a b Ha Hb. apply Htie; apply (Permutation_in _ Hp); assumption.
  - rewrite Hp. symmetry. exact Hqp.
Qed.

Lemma pulls_equal_one_pass_sort_witness :
  exists es1 es2,
    push_all Sample.insertion_sort (Sample.session 20)
      [Sample.r5; Sample.r3; Sample.r4; Sample.r1; Sample.r2] = Ok es1 /\
    extsort_sort Sample.insertion_sort es1 = Ok es2 /\
    forall n, (5 <= n)%nat ->
      exists es3,
        pull_n n es2
        = Ok (Sample.insertion_sort Sample.by_key
                [Sample.r5; Sample.r3; Sample.r4; Sample.r1; Sample.r2],
              es3).
Proof.
  apply (pulls_equal_one_pass_sort Sample.insertion_sort Sample.by_key
           (Sample.session 20)
           [Sample.r5; Sample.r3; Sample.r4; Sample.r1; Sample.r2]
           insertion_sort_sorts by_key_total_order).
  - intros a b Ha Hb.
    cbn [In] in Ha, Hb.
    repeat match goal with
           | H : _ \/ _ |- _ => destruct H
           | H : False |- _ => destruct H
           end; subst; vm_compute; congruence.
  - exact (session_fresh 20).
  - repeat constructor.
Defined.

(** *** Reading a Run back *)

Lemma read_run_all (es : extsort_t) (rs : list record) :
  0 < dat_size es ->
  Forall (fun r => length r = rec_len es) rs ->
  forall b n,
    fd b <> -1 ->
    skipn (f_pos b) (f_data b) = concat rs ->
    (length (dat b) <= rec_len es)%nat ->
    (length rs < n)%nat ->
    exists b', read_run n es b = Ok (rs, b') /\ fd b' = -1 /\
               f_data b' = f_data b.
Proof.
  intros Hsz Hall. induction Hall as [|r rs Hr Hrs IH];
    intros b n Hfd Hfile Hdat Hn.
  - destruct n as [|n]; [simpl in Hn; lia|]. cbn [read_run].
    rewrite blk_read_eof by assumption. proj. cbn [Z.eqb].
    eexists. split; [reflexivity|]. proj. split; reflexivity.
  - destruct n as [|n]; [simpl in Hn; lia|]. cbn [read_run].
    cbn [concat] in Hfile.
    rewrite (blk_read_record es b r (concat rs)) by assumption. proj.
    destruct (Z.eqb_spec (dat_size es) 0) as [?|_]; [lia|].
    destruct (IH (mk_blk (fd b) (fname b) r (f_data b)
                         (f_pos b + rec_len es)) n)
      as (b' & E & Hfd' & Hd'); proj; auto.
    + rewrite Nat.add_comm, <- skipn_skipn, Hfile.
      rewrite <- Hr, skipn_app, Nat.sub_diag, skipn_all. reflexivity.
    + lia.
    + simpl in Hn. lia.
    + rewrite E. proj. exists b'. split; [reflexivity|]. split; assumption.
Qed.

(** X8.  What a flush writes is what the reads return.  After the flush
    of a non-empty buffer of whole records, successive calls of
    [_blk_read] on the new block deliver the records of the buffer as
    [qsort] arranged them, byte for byte and in that order, and the call
    after the last one closes the descriptor. *)
Theorem flushed_run_reads_back
    (qsort : extsort_cmp_f -> list record -> list record)
    (f : extsort_cmp_f) (es : extsort_t) :
  sorts qsort -> total_order f ->
  cmp es = Some f -> tmp_prefix es <> None -> 0 < dat_size es ->
  buffered es <> [] -> Forall (fun r => length r = rec_len es) (buffered es) ->
  exists es' b b',
    _buf_flush qsort es = Ok es' /\
    blk es' = blk es ++ [b] /\
    read_run (S (length (buffered es))) es' b = Ok (qsort f (buffered es), b') /\
    fd b' = -1.
Proof.
  intros Hq Hf Hcmp Hpre Hsz Hne Hall.
  destruct (tmp_prefix es) as [p|] eqn:Epre; [|congruence].
  destruct (Hq f (buffered es) Hf) as [Hperm _].
  assert (Hlen : Forall (fun r => length r = rec_len es) (qsort f (buffered es)))
    by (eapply Permutation_Forall; [symmetry; exact Hperm | exact Hall]).
  set (b := mk_blk (mkstemp_fd (nblk es)) p (malloc (dat_size es))
                   (concat (qsort f (buffered es))) 0).
  set (es' := set_mem 0 (set_buf (Some []) (set_blk (blk es ++ [b]) es))).
  destruct (read_run_all es' (qsort f (buffered es)) Hsz Hlen b
              (S (length (buffered es)))) as (b' & E & Hfd & _).
  - subst b. proj. unfold mkstemp_fd. lia.
  - reflexivity.
  - subst b. proj. unfold malloc. rewrite repeat_length. apply Nat.le_refl.
  - rewrite (Permutation_length Hperm). lia.
  - exists es', b, b'.
    split; [apply (buf_flush_run qsort Hq f Hf es p); auto; lia|].
    split; [reflexivity|]. split; assumption.
Qed.

Lemma flushed_run_reads_back_witness :
  exists es' b b',
    _buf_flush Sample.insertion_sort Sample.after_two = Ok es' /\
    blk es' = blk Sample.after_two ++ [b] /\
    read_run (S (length (buffered Sample.after_two))) es' b
    = Ok (Sample.insertion_sort Sample.by_key (buffered Sample.after_two), b') /\
    fd b' = -1.
Proof.
  apply (flushed_run_reads_back Sample.insertion_sort Sample.by_key
           Sample.after_two insertion_sort_sorts by_key_total_order).
  - reflexivity.
  - discriminate.
  - reflexivity.
  - discriminate.
  - repeat constructor.
Defined.

(** *** How many records a Run holds *)

Lemma over_budget_in_range (es : extsort_t) :
  0 <= mem es -> 0 <= dat_size es ->
  dat_size es + sizeof_voidp <= INT_MAX ->
  mem es + dat_size es + sizeof_voidp < 2 ^ 64 ->
  (over_budget es = true <->
   buffered es <> [] /\ max_mem es < mem es + (dat_size es + sizeof_voidp)).
Proof.
  intros H0 Hd H1 H2. unfold over_budget, nbuf.
  rewrite delta_of_small by lia.
  rewrite (wrap_size_small (dat_size es + sizeof_voidp))
    by (unfold sizeof_voidp in *; lia).
  rewrite wrap_size_small by (unfold sizeof_voidp in *; lia).
  destruct (buffered es) as [|x t]; cbn [length Nat.eqb negb andb].
  - split; [discriminate | intros [C _]; congruence].
  - split.
    + intros H. split; [discriminate | lia].
    + intros [_ H]. apply Z.gtb_lt. lia.
Qed.

(** The buffer is full: a flush comes with the next push. *)
Lemma capacity_reached (M D : Z) (k : nat) :
  0 <= M -> 0 < D ->
  (k <= Z.to_nat (Z.max 1 (M / D)))%nat ->
  (((1 <= k)%nat /\ M < Z.of_nat k * D + D) <->
   k = Z.to_nat (Z.max 1 (M / D))).
Proof.
  intros HM HD Hk.
  pose proof (Z.mul_div_le M D HD) as Hlo.
  pose proof (Z.mul_succ_div_gt M D HD) as Hhi.
  assert (Hq : 0 <= M / D) by (apply Z.div_pos; lia).
  set (q := M / D) in *.
  split.
  - intros [H1 H2].
    assert (q <= Z.of_nat k) by nia. lia.
  - intros ->. split; [lia|].
    assert (q <= Z.of_nat (Z.to_nat (Z.max 1 q))) by lia. nia.
Qed.

Lemma capacity_fits (M D : Z) :
  0 <= M -> 0 < D ->
  Z.of_nat (Z.to_nat (Z.max 1 (M / D))) * D <= Z.max M D.
Proof.
  intros HM HD.
  pose proof (Z.mul_div_le M D HD) as Hlo.
  assert (Hq : 0 <= M / D) by (apply Z.div_pos; lia).
  set (q := M / D) in *.
  destruct (Z.le_gt_cases 1 q) as [L|G].
  - rewrite Z.max_r by lia. rewrite Z2Nat.id by lia. lia.
  - rewrite Z.max_l by lia. cbn. lia.
Qed.


Lemma push_filling (qsort : extsort_cmp_f -> list record -> list record)
      (f : extsort_cmp_f) (es0 es : extsort_t) (n : nat) (r : record) :
  sorts qsort -> total_order f ->
  dat_size es0 + sizeof_voidp <= INT_MAX ->
  0 <= max_mem es0 ->
  max_mem es0 + dat_size es0 + sizeof_voidp < 2 ^ 64 ->
  filling f es0 es n -> length r = rec_len es ->
  exists es', extsort_push qsort es r = Ok es' /\ filling f es0 es' (S n).
Proof.
  intros Hq Hf Hint HM Hmax (Hing & Hc & Hn & Hcap & Hpos & Hmem & Hst) Hr.
  destruct Hc as (Esz & Emax & Ecmp & Epre).
  pose proof (ing_size _ _ Hing) as Hsz. rewrite Esz in Hsz.
  set (D := dat_size es0 + sizeof_voidp) in *.
  set (cap := run_capacity es0) in *.
  assert (HD : 0 < D) by (unfold D, sizeof_voidp; lia).
  assert (Hfit : Z.of_nat cap * D <= Z.max (max_mem es0) D)
    by (apply capacity_fits; assumption).
  assert (Hcap1 : (1 <= cap)%nat) by (unfold cap, run_capacity; lia).
  assert (Hmemle : mem es + D < 2 ^ 64).
  { rewrite Hmem. unfold INT_MAX in Hint.
    assert (Z.of_nat (nbuf es) * D <= Z.of_nat cap * D) by nia. lia. }
  assert (Hmem0 : 0 <= mem es) by (rewrite Hmem; nia).
  assert (Hover : over_budget es = true <-> nbuf es = cap).
  { pose proof (over_budget_in_range es) as Hr0.
    rewrite Esz, Emax in Hr0. fold D in Hr0.
    rewrite (Hr0 Hmem0 ltac:(lia) Hint ltac:(lia)).
    rewrite Hmem.
    pose proof (capacity_reached (max_mem es0) D (nbuf es) HM HD Hcap) as Hc0.
    change (Z.to_nat (Z.max 1 (max_mem es0 / D))) with cap in Hc0.
    rewrite <- Hc0.
    unfold nbuf. destruct (buffered es); cbn [length]; split;
      intros [A B]; split; try lia; try congruence; discriminate. }
  destruct (push_ingesting qsort Hq f Hf es r Hing Hr)
    as (es' & E & Hing' & Esz' & Hperm).
  exists es'. split; [exact E|].
  destruct (push_frame qsort es es' r E) as (Hc' & _).
  assert (Hold : flat_map (stored es') (blk es) = flat_map (stored es) (blk es))
    by (apply stored_same_size; exact Esz').
  assert (Hst' : Forall (fun b => length (stored es' b) = cap) (blk es)).
  { rewrite Forall_forall in *. intros b Hb. unfold stored, rec_len.
    rewrite Esz'. apply Hst. exact Hb. }
  destruct (push_shape qsort es es' r E)
    as (_ & _ & [(Ho & Eb & Em & b & Eblk)|(Ho & Eb & Em & Eblk)]).
  - apply Hover in Ho.
    assert (Hlen : length (stored es' b) = cap).
    { apply Permutation_length in Hperm.
      rewrite Eblk, Eb, flat_map_app, Hold in Hperm. cbn [flat_map] in Hperm.
      rewrite !length_app in Hperm. cbn [length] in Hperm.
      rewrite length_app in Hperm. unfold nbuf in Ho. lia. }
    split; [exact Hing'|].
    split; [destruct Hc' as (A & B & C & E0); repeat split; congruence|].
    unfold nblk, nbuf in *. rewrite Eblk, Eb, length_app. cbn [length].
    split; [lia|]. split; [lia|]. split; [lia|]. split.
    + rewrite Em, wrap_size_idem, delta_of_small by (rewrite ?Esz; lia).
      rewrite Esz. fold D. unfold INT_MAX in Hint.
      rewrite wrap_size_small by lia. lia.
    + apply Forall_app. split; [exact Hst'|]. constructor; [exact Hlen|].
      constructor.
  - assert (Hlt : (nbuf es < cap)%nat).
    { destruct (Nat.eq_dec (nbuf es) cap) as [C|C]; [|lia].
      apply Hover in C. congruence. }
    split; [exact Hing'|].
    split; [destruct Hc' as (A & B & C & E0); repeat split; congruence|].
    unfold nblk, nbuf in *. rewrite Eblk, Eb, length_app. cbn [length].
    split; [lia|]. split; [lia|]. split; [lia|]. split.
    + rewrite Em, delta_of_small by (rewrite ?Esz; lia).
      rewrite Esz. fold D. unfold INT_MAX in Hint.
      rewrite (wrap_size_small D) by lia.
      rewrite wrap_size_small by lia. lia.
    + exact Hst'.
Qed.

Lemma push_all_filling (qsort : extsort_cmp_f -> list record -> list record)
      (f : extsort_cmp_f) (es0 : extsort_t) (l : list record) :
  sorts qsort -> total_order f ->
  dat_size es0 + sizeof_voidp <= INT_MAX ->
  0 <= max_mem es0 ->
  max_mem es0 + dat_size es0 + sizeof_voidp < 2 ^ 64 ->
  forall es n,
    filling f es0 es n -> Forall (fun r => length r = rec_len es) l ->
    exists es', push_all qsort es l = Ok es' /\
                filling f es0 es' (n + length l).
Proof.
  intros Hq Hf Hint HM Hmax. induction l as [|r l IH]; intros es n Hfil Hall.
  - exists es. rewrite Nat.add_0_r. split; [reflexivity | exact Hfil].
  - inversion Hall as [|? ? Hr Hl]; subst.
    destruct (push_filling qsort f es0 es n r Hq Hf Hint HM Hmax Hfil Hr)
      as (es1 & E1 & Hfil1).
    destruct (IH es1 (S n) Hfil1) as (es2 & E2 & Hfil2).
    { destruct Hfil as (_ & (A & _) & _).
      destruct Hfil1 as (_ & (A1 & _) & _).
      unfold rec_len in *. rewrite A1, <- A. exact Hl. }
    exists es2. cbn [push_all length]. rewrite E1. proj.
    split; [exact E2|]. replace (n + S (length l))%nat
      with (S n + length l)%nat by lia. exact Hfil2.
Qed.

Lemma fresh_filling (f : extsort_cmp_f) (es0 : extsort_t) :
  fresh f es0 -> filling f es0 es0 0.
Proof.
  intros Hfresh. pose proof Hfresh as [Hcmp Hpre Hsz Hbuf Hroom Hblk Hmem Htmp].
  split; [apply fresh_ingesting; exact Hfresh|].
  split; [apply same_config_refl|].
  unfold nblk, nbuf. rewrite Hbuf, Hblk, Hmem. cbn [length].
  split; [reflexivity|]. split; [lia|]. split; [lia|].
  split; [lia | constructor].
Qed.

(** X9.  The size of the Runs.  While the sizes fit, the records pushed
    go into Runs of [run_capacity] records each, which is the number of
    records the budget holds and one at least; the buffer holds the rest,
    never more than that number and, once a record is pushed, never
    none. *)
Theorem pushes_fill_runs_to_capacity
    (qsort : extsort_cmp_f -> list record -> list record)
    (f : extsort_cmp_f) (es0 : extsort_t) (l : list record) :
  sorts qsort -> total_order f -> fresh f es0 ->
  Forall (fun r => length r = rec_len es0) l ->
  dat_size es0 + sizeof_voidp <= INT_MAX ->
  0 <= max_mem es0 ->
  max_mem es0 + dat_size es0 + sizeof_voidp < 2 ^ 64 ->
  exists es1,
    push_all qsort es0 l = Ok es1 /\
    length l = (nblk es1 * run_capacity es0 + nbuf es1)%nat /\
    (nbuf es1 <= run_capacity es0)%nat /\
    (l <> [] -> (1 <= nbuf es1)%nat) /\
    Forall (fun b => length (stored es1 b) = run_capacity es0) (blk es1).
Proof.
  intros Hq Hf Hfresh Hall Hint HM Hmax.
  destruct (push_all_filling qsort f es0 l Hq Hf Hint HM Hmax es0 0%nat
              (fresh_filling f es0 Hfresh) Hall)
    as (es1 & E1 & _ & _ & Hn & Hcap & Hpos & _ & Hst).
  exists es1. split; [exact E1|]. split; [exact Hn|]. split; [exact Hcap|].
  split; [|exact Hst].
  intros Hne. apply Hpos. destruct l; [congruence | simpl; lia].
Qed.

Lemma pushes_fill_runs_to_capacity_witness :
  run_capacity (Sample.session 20) = 2%nat /\
  exists es1,
    push_all Sample.insertion_sort (Sample.session 20)
      [Sample.r5; Sample.r3; Sample.r4; Sample.r1; Sample.r2] = Ok es1 /\
    5%nat = (nblk es1 * run_capacity (Sample.session 20) + nbuf es1)%nat /\
    (nbuf es1 <= run_capacity (Sample.session 20))%nat /\
    ([Sample.r5; Sample.r3; Sample.r4; Sample.r1; Sample.r2] <> [] ->
     (1 <= nbuf es1)%nat) /\
    Forall (fun b => length (stored es1 b)
                     = run_capacity (Sample.session 20)) (blk es1).
Proof.
  split; [reflexivity|].
  apply (pushes_fill_runs_to_capacity Sample.insertion_sort Sample.by_key
           (Sample.session 20)
           [Sample.r5; Sample.r3; Sample.r4; Sample.r1; Sample.r2]
           insertion_sort_sorts by_key_total_order (session_fresh 20)).
  - repeat constructor.
  - vm_compute. discriminate.
  - vm_compute. discriminate.
  - vm_compute. reflexivity.
Defined.

(** *** What the finalisation leaves *)

Lemma sort_run_count (qsort : extsort_cmp_f -> list record -> list record)
      (es es' : extsort_t) :
  extsort_sort qsort es = Ok es' ->
  nblk es' = (nblk es + (if (nbuf es =? 0)%nat then 0 else 1))%nat /\
  buf es' = None.
Proof.
  intros E. unfold extsort_sort in E.
  destruct (_buf_flush qsort es) as [es1| |] eqn:Ef; proj; try discriminate.
  apply sort_loop_frame in E. destruct E as ([Hn _] & _ & Hb & _).
  proj. split; [|exact Hb].
  rewrite Hn. unfold nblk, nbuf. proj.
  destruct (buf_flush_frame qsort es es1 Ef)
    as (_ & _ & _ & _ & [(Eb & ->)|(Hne & _ & b & Eb & _)]).
  - rewrite Eb. cbn. lia.
  - rewrite Eb, length_app. destruct (buffered es); [congruence|]. cbn. lia.
Qed.

Lemma sort_step_heap (f : extsort_cmp_f) (es : extsort_t) (h : list nat)
      (k : nat) :
  total_order f ->
  merging f es h k -> bhp es = Some h -> (k < nblk es)%nat ->
  exists es' h',
    sort_step es k = Ok es' /\ bhp es' = Some h' /\
    Permutation h' (k :: h).
Proof.
  intros Hf [Hruns Hlt Hout Hlater Hbound Hdat Htmp] Hbhp Hk.
  destruct (Hlater k ltac:(lia))
    as (Hfd & Hpos & Hlen & rs & Hne & Hdata & Hall & Hsorted).
  set (b := nth k (blk es) blk_null) in *.
  assert (Hnot : ~ In k h) by (intros C; apply Hlt in C; lia).
  destruct (advance_run f Hf es h k
              (mk_blk (fd b) (fname b) (dat b) (f_data b) 0) rs)
    as (ret & b' & Eread & _ & _ & Hperm & Hzero & _ & _); auto.
  assert (Hret : to_int ret <> 0).
  { intros C. apply Hzero in C. destruct C as [_ C]. contradiction. }
  unfold sort_step, sys_rewind. fold b.
  destruct (Z.eqb_spec (fd b) (-1)) as [?|_]; [contradiction|].
  cbn [negb Z.eqb]. rewrite Eread. proj.
  destruct (Z.eqb_spec (to_int ret) 0) as [?|_]; [contradiction|].
  cbn [negb] in *. rewrite Hbhp.
  eexists. eexists. split; [reflexivity|]. proj.
  split; [reflexivity | exact Hperm].
Qed.

Lemma sort_loop_heap (f : extsort_cmp_f) (n : nat) :
  total_order f ->
  forall es h k,
    merging f es h k -> bhp es = Some h -> (k + n = nblk es)%nat ->
    exists es' h',
      sort_loop es (seq k n) = Ok es' /\ bhp es' = Some h' /\
      Permutation h' (seq k n ++ h) /\ merging f es' h' (nblk es').
Proof.
  intros Hf. induction n as [|n IH]; intros es h k Hm Hbhp Hk.
  - exists es, h. cbn [seq sort_loop app].
    replace (nblk es) with k by lia.
    split; [reflexivity|]. split; [exact Hbhp|].
    split; [reflexivity | exact Hm].
  - destruct (sort_step_merging f Hf es h k Hm Hbhp ltac:(lia))
      as (es1 & h1 & E1 & Hbhp1 & Hm1 & Hn1 & _).
    destruct (sort_step_heap f es h k Hf Hm Hbhp ltac:(lia))
      as (es1' & h1' & E1' & Hbhp1' & Hperm1).
    rewrite E1 in E1'. inversion E1'; subst es1'.
    rewrite Hbhp1 in Hbhp1'. inversion Hbhp1'; subst h1'.
    destruct (IH es1 h1 (S k) Hm1 Hbhp1 ltac:(lia))
      as (es2 & h2 & E2 & Hbhp2 & Hperm2 & Hm2).
    exists es2, h2. cbn [seq sort_loop]. rewrite E1. proj.
    split; [exact E2|]. split; [exact Hbhp2|]. split; [|exact Hm2].
    rewrite Hperm2, Hperm1. cbn [app]. symmetry. apply Permutation_middle.
Qed.

Lemma sort_heap (qsort : extsort_cmp_f -> list record -> list record)
      (f : extsort_cmp_f) (es : extsort_t) :
  sorts qsort -> total_order f -> ingesting f es ->
  exists es' h,
    extsort_sort qsort es = Ok es' /\ bhp es' = Some h /\
    Permutation h (seq 0 (nblk es')) /\ merging f es' h (nblk es').
Proof.
  intros Hq Hf Hing.
  destruct (flush_ingesting qsort Hq f Hf es Hing)
    as (es1 & E1 & [Hcmp Hpre Hsz Hbuf Hroom Hblk Htmp] & Ebuf & Esz & Hperm).
  unfold extsort_sort. rewrite E1. proj.
  set (es2 := set_bhp (Some KHeap.khp_init) (set_buf None es1)).
  assert (Hm : merging f es2 [] 0).
  { constructor.
    - constructor; auto.
      + constructor.
      + intros j Hj. cbn in Hj. lia.
      + intros j [].
    - intros j [].
    - intros j Hj. lia.
    - intros j Hj. rewrite Forall_forall in Hblk.
      apply Hblk. apply nth_In. apply Hj.
    - lia.
    - intros j Hj. rewrite Forall_forall in Hblk.
      assert (Hw : run_written f (rec_len es1) (nth j (blk es1) blk_null))
        by (apply Hblk; apply nth_In; exact Hj).
      apply Hw.
    - exact Htmp. }
  destruct (sort_loop_heap f (nblk es2) Hf es2 [] 0 Hm eq_refl eq_refl)
    as (es3 & h3 & E3 & Hbhp3 & Hperm3 & Hm3).
  exists es3, h3. split; [exact E3|]. split; [exact Hbhp3|].
  split; [|exact Hm3].
  rewrite app_nil_r in Hperm3.
  apply sort_loop_frame in E3. destruct E3 as ([Hn _] & _).
  rewrite Hn. exact Hperm3.
Qed.

(** X10.  The finalisation opens every Run.  After [extsort_sort] the
    buffer is gone ([buf] is NULL) and the heap holds every block of the
    session exactly once, each with its descriptor open: no Run is left
    out of the merge. *)
Theorem finalize_opens_every_run
    (qsort : extsort_cmp_f -> list record -> list record)
    (f : extsort_cmp_f) (es0 : extsort_t) (l : list record) :
  sorts qsort -> total_order f -> fresh f es0 ->
  Forall (fun r => length r = rec_len es0) l ->
  exists es1 es2 h,
    push_all qsort es0 l = Ok es1 /\
    extsort_sort qsort es1 = Ok es2 /\
    buf es2 = None /\
    bhp es2 = Some h /\ Permutation h (seq 0 (nblk es2)) /\
    (forall i, (i < nblk es2)%nat ->
               fd (nth i (blk es2) blk_null) <> -1).
Proof.
  intros Hq Hf Hfresh Hall.
  destruct (push_all_ingesting qsort Hq f Hf l es0
              (fresh_ingesting f es0 Hfresh) Hall)
    as (es1 & E1 & Hing1 & _).
  destruct (sort_heap qsort f es1 Hq Hf Hing1)
    as (es2 & h & E2 & Hbhp & Hperm & Hm).
  exists es1, es2, h. split; [exact E1|]. split; [exact E2|].
  split; [apply (sort_run_count qsort es1 es2 E2)|].
  split; [exact Hbhp|]. split; [exact Hperm|].
  intros i Hi. apply (merging_open_iff f es2 h Hm).
  apply (Permutation_in _ (Permutation_sym Hperm)).
  apply in_seq. lia.
Qed.

Lemma finalize_opens_every_run_witness :
  exists es1 es2 h,
    push_all Sample.insertion_sort (Sample.session 20)
      [Sample.r5; Sample.r3; Sample.r4; Sample.r1; Sample.r2] = Ok es1 /\
    extsort_sort Sample.insertion_sort es1 = Ok es2 /\
    buf es2 = None /\
    bhp es2 = Some h /\ Permutation h (seq 0 (nblk es2)) /\
    (forall i, (i < nblk es2)%nat ->
               fd (nth i (blk es2) blk_null) <> -1).
Proof.
  apply (finalize_opens_every_run Sample.insertion_sort Sample.by_key
           (Sample.session 20)
           [Sample.r5; Sample.r3; Sample.r4; Sample.r1; Sample.r2]
           insertion_sort_sorts by_key_total_order (session_fresh 20)).
  repeat constructor.
Defined.

(** X11.  The number of Runs.  While the sizes fit, a session into which
    [n] records were pushed has, once finalised, as many Runs as it takes
    to hold [n] records at [run_capacity] records a Run: [n] over the
    capacity, rounded up. *)
Theorem finalize_run_count
    (qsort : extsort_cmp_f -> list record -> list record)
    (f : extsort_cmp_f) (es0 : extsort_t) (l : list record) :
  sorts qsort -> total_order f -> fresh f es0 ->
  Forall (fun r => length r = rec_len es0) l ->
  dat_size es0 + sizeof_voidp <= INT_MAX ->
  0 <= max_mem es0 ->
  max_mem es0 + dat_size es0 + sizeof_voidp < 2 ^ 64 ->
  exists es1 es2,
    push_all qsort es0 l = Ok es1 /\
    extsort_sort qsort es1 = Ok es2 /\
    nblk es2
    = ((length l + run_capacity es0 - 1) / run_capacity es0)%nat.
Proof.
  intros Hq Hf Hfresh Hall Hint HM Hmax.
  destruct (push_all_filling qsort f es0 l Hq Hf Hint HM Hmax es0 0%nat
              (fresh_filling f es0 Hfresh) Hall)
    as (es1 & E1 & Hing1 & _ & Hn & Hcap & Hpos & _ & _).
  destruct (sort_merging qsort Hq f Hf es1 Hing1) as (es2 & h & E2 & _).
  exists es1, es2. split; [exact E1|]. split; [exact E2|].
  destruct (sort_run_count qsort es1 es2 E2) as [Hcount _].
  rewrite Hcount. cbn [Nat.add] in Hn.
  set (cap := run_capacity es0) in *.
  assert (Hcap1 : (1 <= cap)%nat) by (unfold cap, run_capacity; lia).
  destruct (Nat.eqb_spec (nbuf es1) 0) as [E0|N0].
  - assert (length l = 0)%nat by lia.
    assert (nblk es1 = 0)%nat by nia.
    replace (length l + cap - 1)%nat with (cap - 1)%nat by lia.
    rewrite Nat.div_small by lia. lia.
  - apply (Nat.div_unique _ _ _ (nbuf es1 - 1)%nat); [lia | nia].
Qed.

Lemma finalize_run_count_witness :
  exists es1 es2,
    push_all Sample.insertion_sort (Sample.session 20)
      [Sample.r5; Sample.r3; Sample.r4; Sample.r1; Sample.r2] = Ok es1 /\
    extsort_sort Sample.insertion_sort es1 = Ok es2 /\
    nblk es2 = ((5 + run_capacity (Sample.session 20) - 1)
                / run_capacity (Sample.session 20))%nat.
Proof.
  apply (finalize_run_count Sample.insertion_sort Sample.by_key
           (Sample.session 20)
           [Sample.r5; Sample.r3; Sample.r4; Sample.r1; Sample.r2]
           insertion_sort_sorts by_key_total_order (session_fresh 20)).
  - repeat constructor.
  - vm_compute. discriminate.
  - vm_compute. discriminate.
  - vm_compute. reflexivity.
Defined.

(** X12.  A second finalisation.  Once every record of a session that
    holds one at least has been pulled, [extsort_sort] fails fatally if
    called again: the Runs are closed and cannot be rewound. *)
Theorem finalize_after_the_end_is_fatal
    (qsort : extsort_cmp_f -> list record -> list record)
    (f : extsort_cmp_f) (es0 : extsort_t) (l : list record) (n : nat) :
  sorts qsort -> total_order f -> fresh f es0 ->
  Forall (fun r => length r = rec_len es0) l ->
  l <> [] -> (length l <= n)%nat ->
  exists es1 es2 out es3 msg,
    push_all qsort es0 l = Ok es1 /\
    extsort_sort qsort es1 = Ok es2 /\
    pull_n n es2 = Ok (out, es3) /\
    extsort_sort qsort es3 = Fatal msg.
Proof.
  intros Hq Hf Hfresh Hall Hne Hn.
  destruct (session_runs qsort Hq f Hf es0 l Hfresh Hall)
    as (es1 & es2 & h & E1 & E2 & Hbhp & Hm & Hperm).
  destruct (pull_n_merging f Hf n es2 h Hm Hbhp)
    as (out & es3 & E3 & _ & _ & Hbhp3 & Hm3).
  { rewrite (Permutation_length Hperm). exact Hn. }
  destruct (pulled_frame es2 es3 (pull_n_pulled n es2 out es3 E3))
    as ([Hnb _] & _ & Hbuf & _).
  assert (Hbuf3 : buffered es3 = []).
  { unfold buffered. rewrite Hbuf.
    now rewrite (proj2 (sort_run_count qsort es1 es2 E2)). }
  assert (Hpos : (0 < nblk es3)%nat).
  { rewrite Hnb. destruct h as [|i h'].
    - cbn in Hperm. apply Permutation_nil in Hperm. congruence.
    - destruct (hr_in _ _ _ (mrg_runs _ _ _ _ Hm) i (or_introl eq_refl))
        as [Hlt _]. lia. }
  assert (Hclosed : fd (nth 0 (blk es3) blk_null) = -1).
  { apply (mrg_out _ _ _ _ Hm3 0%nat Hpos). intros []. }
  exists es1, es2, out, es3.
  unfold extsort_sort, _buf_flush, nbuf. rewrite Hbuf3.
  cbn [length Nat.eqb]. proj.
  change (nblk (set_bhp (Some KHeap.khp_init) (set_buf None es3)))
    with (nblk es3).
  destruct (nblk es3) as [|m] eqn:Em; [lia|].
  cbn [seq sort_loop]. unfold sort_step, sys_rewind. proj.
  rewrite Hclosed. cbn [Z.eqb negb]. proj.
  eexists. split; [exact E1|]. split; [exact E2|]. split; [exact E3|].
  reflexivity.
Qed.

Lemma finalize_after_the_end_is_fatal_witness :
  exists es1 es2 out es3 msg,
    push_all Sample.insertion_sort (Sample.session 20)
      [Sample.r5; Sample.r3; Sample.r4; Sample.r1; Sample.r2] = Ok es1 /\
    extsort_sort Sample.insertion_sort es1 = Ok es2 /\
    pull_n 6 es2 = Ok (out, es3) /\
    extsort_sort Sample.insertion_sort es3 = Fatal msg.
Proof.
  apply (finalize_after_the_end_is_fatal Sample.insertion_sort Sample.by_key
           (Sample.session 20)
           [Sample.r5; Sample.r3; Sample.r4; Sample.r1; Sample.r2] 6
           insertion_sort_sorts by_key_total_order (session_fresh 20)).
  - repeat constructor.
  - discriminate.
  - simpl. lia.
Defined.

(** *** Configuring a session *)

Lemma alloc_unstarted : unstarted extsort_alloc.
Proof. unfold unstarted, extsort_alloc. cbn. repeat split; lia. Qed.

Lemma set_unstarted (parse : string -> Z) (es es' : extsort_t)
      (key : extsort_opt_t) (value : opt_value) :
  unstarted es -> extsort_set parse es key value = Ok es' -> unstarted es'.
Proof.
  intros (Hbuf & Hmbuf & Hblk & Hmem & Hbhp & Hmax & Hsz) E.
  unfold extsort_set in E.
  destruct key, value as [n|[s|]|g]; try discriminate.
  - inversion E; subst es'. unfold unstarted. proj.
    repeat split; auto; try lia; apply wrap_size_range.
  - proj.
    destruct (Z.leb_spec (wrap_size (parse s)) 0) as [?|Hpos];
      [discriminate|].
    inversion E; subst es'. unfold unstarted. proj.
    repeat split; auto; try lia; apply wrap_size_range.
  - inversion E; subst es'. unfold unstarted, _init_tmp_prefix. proj.
    repeat split; auto; lia.
  - inversion E; subst es'. unfold unstarted, _init_tmp_prefix. proj.
    repeat split; auto; lia.
  - inversion E; subst es'. unfold unstarted. proj.
    repeat split; auto; lia.
Qed.

Lemma set_all_unstarted (parse : string -> Z)
      (kvs : list (extsort_opt_t * opt_value)) : forall es es',
  unstarted es -> set_all parse es kvs = Ok es' -> unstarted es'.
Proof.
  induction kvs as [|[key value] kvs IH]; intros es es' Hun E;
    cbn [set_all] in E.
  - inversion E; subst. exact Hun.
  - destruct (extsort_set parse es key value) as [es1| |] eqn:Es; proj;
      try discriminate.
    apply (IH es1 es'); [|exact E].
    apply (set_unstarted parse es es1 key value Hun Es).
Qed.



(** X14.  The budget is never zero.  Whatever calls of [extsort_set]
    return after [extsort_alloc], the budget [max_mem] is a positive
    [size_t] (a memory string that parses to 0 stops the configuration),
    and [extsort_init] leaves it as it is. *)
Theorem configured_budget_is_positive
    (parse : string -> Z) (kvs : list (extsort_opt_t * opt_value))
    (es1 : extsort_t) :
  set_all parse extsort_alloc kvs = Ok es1 ->
  0 < max_mem es1 < 2 ^ 64 /\
  forall es2, extsort_init es1 = Ok es2 -> max_mem es2 = max_mem es1.
Proof.
  intros Eset.
  destruct (set_all_unstarted parse kvs extsort_alloc es1 alloc_unstarted
              Eset) as (_ & _ & _ & _ & _ & Hmax & _).
  split; [exact Hmax|].
  intros es2 Einit. unfold extsort_init in Einit.
  destruct (cmp es1); [|discriminate].
  destruct (dat_size es1 =? 0); [discriminate|].
  destruct (tmp_prefix es1); inversion Einit; reflexivity.
Qed.

Lemma configured_budget_is_positive_witness :
  (exists msg,
     set_all (fun _ => 0) extsort_alloc
       [(DAT_SIZE, VSize 2); (MAX_MEM, VStr (Some "0"%string))]
     = Fatal msg) /\
  exists es1,
    set_all (fun _ => 20) extsort_alloc
      [(DAT_SIZE, VSize 2); (MAX_MEM, VStr (Some "20"%string))] = Ok es1 /\
    0 < max_mem es1 < 2 ^ 64 /\
    forall es2, extsort_init es1 = Ok es2 -> max_mem es2 = max_mem es1.
Proof.
  split; [eexists; vm_compute; reflexivity|].
  eexists.
  match goal with
  | |- ?A /\ _ => assert (HA : A) by (cbv; reflexivity)
  end.
  split; [exact HA|].
  apply (configured_budget_is_positive _ _ _ HA).
Defined.

(** *** The buffer and its capacity *)

Lemma buf_flush_mbuf (qsort : extsort_cmp_f -> list record -> list record)
      (es es' : extsort_t) :
  _buf_flush qsort es = Ok es' -> mbuf es' = mbuf es.
Proof.
  intros E. destruct (buffered es) as [|r0 l0] eqn:Ebuf.
  - unfold _buf_flush, nbuf in E. rewrite Ebuf in E.
    cbn [length Nat.eqb] in E. inversion E; reflexivity.
  - destruct (buf_flush_inv qsort es es' E) as (b & ->);
      [rewrite Ebuf; discriminate | reflexivity].
Qed.

Lemma sort_step_mbuf (es es' : extsort_t) (i : nat) :
  sort_step es i = Ok es' -> mbuf es' = mbuf es.
Proof.
  unfold sort_step, sys_rewind.
  set (b := nth i (blk es) blk_null).
  destruct (fd b =? -1); cbn [negb Z.eqb]; [discriminate|].
  destruct (_blk_read es (mk_blk (fd b) (fname b) (dat b) (f_data b) 0))
    as [[ret b']| |]; proj; try discriminate.
  destruct (negb (to_int ret =? 0)).
  - destruct (bhp es) as [h|]; [|discriminate].
    intros E. inversion E; reflexivity.
  - intros E. inversion E; reflexivity.
Qed.

Lemma sort_loop_mbuf (idx : list nat) : forall es es',
  sort_loop es idx = Ok es' -> mbuf es' = mbuf es.
Proof.
  induction idx as [|i idx IH]; intros es es' E; cbn [sort_loop] in E.
  - inversion E; reflexivity.
  - destruct (sort_step es i) as [es1| |] eqn:Es; proj; try discriminate.
    rewrite (IH es1 es' E). apply (sort_step_mbuf es es1 i Es).
Qed.

Lemma sort_mbuf (qsort : extsort_cmp_f -> list record -> list record)
      (es es' : extsort_t) :
  extsort_sort qsort es = Ok es' -> mbuf es' = mbuf es.
Proof.
  intros E. unfold extsort_sort in E.
  destruct (_buf_flush qsort es) as [es1| |] eqn:Ef; proj; try discriminate.
  rewrite (sort_loop_mbuf _ _ _ E). proj.
  apply (buf_flush_mbuf qsort es es1 Ef).
Qed.

Lemma shift_mbuf (es es' : extsort_t) (r : option record) :
  extsort_shift es = Ok (r, es') -> mbuf es' = mbuf es.
Proof.
  unfold extsort_shift. destruct (bhp es) as [h|]; [|discriminate].
  destruct (KHeap.ndat h =? 0)%nat.
  - intros E. inversion E; reflexivity.
  - proj.
    match goal with
    | |- bind ?m _ = _ -> _ => destruct m as [[ret b']| |]
    end; proj; try discriminate.
    intros E. inversion E; reflexivity.
Qed.

Lemma pulled_mbuf (es es' : extsort_t) :
  pulled es es' -> mbuf es' = mbuf es.
Proof.
  induction 1 as [|es1 es2 r Hp IH Hs]; [reflexivity|].
  rewrite (shift_mbuf es1 es2 r Hs). exact IH.
Qed.

Lemma push_capacity (qsort : extsort_cmp_f -> list record -> list record)
      (es es' : extsort_t) (r : record) :
  extsort_push qsort es r = Ok es' ->
  buf es' <> None /\ (1 <= nbuf es')%nat /\
  Z.of_nat (nbuf es') <= mbuf es' /\ mbuf es <= mbuf es'.
Proof.
  unfold extsort_push. fold (delta_of es). fold (over_budget es).
  destruct (if over_budget es then _buf_flush qsort es else Ok es)
    as [es1| |] eqn:Ef; cbn [bind]; try discriminate.
  assert (Hm : mbuf es1 = mbuf es).
  { destruct (over_budget es);
      [apply (buf_flush_mbuf qsort es es1 Ef) | inversion Ef; reflexivity]. }
  unfold hts_expand. proj.
  destruct (Z.gtb_spec (Z.of_nat (nbuf es1 + 1)) (mbuf es1)) as [G|L]; proj.
  - intros E. inversion E; subst es'; clear E.
    pose proof (kroundup_ge (Z.of_nat (nbuf es1 + 1)) ltac:(lia)) as Hk.
    unfold nbuf, buffered in *. proj.
    rewrite length_app. cbn [length].
    repeat split; try discriminate; lia.
  - unfold nbuf in *. unfold buffered in *.
    destruct (buf es1) as [cells|] eqn:Eb; [|discriminate].
    intros E. inversion E; subst es'; clear E. proj.
    rewrite length_app. cbn [length].
    repeat split; try discriminate; lia.
Qed.

(** X15.  A push after the finalisation.  Once a session that took a
    record at least has been finalised, a push is undefined, also after
    any number of pulls: [extsort_sort] freed the buffer and set [buf] to
    NULL but kept the capacity [mbuf], so [hts_expand] allocates nothing
    and the record is stored through NULL. *)
Theorem push_after_finalize_is_undefined
    (qsort : extsort_cmp_f -> list record -> list record)
    (es0 es1 es2 es : extsort_t) (l : list record) (r x : record) :
  push_all qsort es0 (l ++ [r]) = Ok es1 ->
  extsort_sort qsort es1 = Ok es2 ->
  pulled es2 es ->
  buf es = None /\ 1 <= mbuf es /\
  extsort_push qsort es x = Undefined.
Proof.
  intros E1 E2 Hp.
  destruct (push_all_app qsort l r es0 es1 E1) as (e & _ & Er).
  destruct (push_capacity qsort e es1 r Er) as (_ & H1 & Hcap & _).
  pose proof (sort_mbuf qsort es1 es2 E2) as Hm2.
  pose proof (proj2 (sort_run_count qsort es1 es2 E2)) as Hb2.
  pose proof (pulled_mbuf es2 es Hp) as Hm.
  destruct (pulled_frame es2 es Hp) as (_ & _ & Hb & _).
  rewrite Hb2 in Hb.
  assert (Hcap' : 1 <= mbuf es) by lia.
  split; [exact Hb|]. split; [exact Hcap'|].
  clear - Hb Hcap'. destruct es as [d m mm tp c mb bl bf td bh].
  cbn [buf mbuf] in Hb, Hcap'. subst bf.
  unfold extsort_push, hts_expand, nbuf, buffered. proj.
  cbn [length Nat.eqb negb andb bind]. proj.
  match goal with
  | |- context [?n >? mb] =>
      destruct (Z.gtb_spec n mb) as [G|_]; [cbn in G; lia|]
  end.
  reflexivity.
Qed.

Lemma push_after_finalize_is_undefined_witness :
  exists es1 es2 es,
    push_all Sample.insertion_sort (Sample.session 20)
      ([Sample.r5; Sample.r3] ++ [Sample.r4]) = Ok es1 /\
    extsort_sort Sample.insertion_sort es1 = Ok es2 /\
    pull_n 1 es2 = Ok ([Sample.r3], es) /\
    buf es = None /\ 1 <= mbuf es /\
    extsort_push Sample.insertion_sort es Sample.r1 = Undefined.
Proof.
  do 3 eexists.
  split; [cbv; reflexivity|].
  split; [cbv; reflexivity|].
  split; [cbv; reflexivity|].
  eapply (push_after_finalize_is_undefined Sample.insertion_sort
            (Sample.session 20) _ _ _ [Sample.r5; Sample.r3] Sample.r4).
  - cbv; reflexivity.
  - cbv; reflexivity.
  - eapply (pull_n_pulled 1). cbv; reflexivity.
Defined.

(** X16.  The store of a push stays inside the array.  After every push
    that returns, the buffer is allocated, the record count [nbuf] is
    within the capacity [mbuf], and the capacity has not shrunk. *)
Theorem push_stores_within_capacity
    (qsort : extsort_cmp_f -> list record -> list record)
    (es es' : extsort_t) (r : record) :
  extsort_push qsort es r = Ok es' ->
  buf es' <> None /\ (1 <= nbuf es')%nat /\
  Z.of_nat (nbuf es') <= mbuf es' /\ mbuf es <= mbuf es'.
Proof. apply push_capacity. Qed.

Lemma push_stores_within_capacity_witness :
  extsort_push Sample.insertion_sort Sample.after_two Sample.r4
  = Ok Sample.after_three /\
  buf Sample.after_three <> None /\ (1 <= nbuf Sample.after_three)%nat /\
  Z.of_nat (nbuf Sample.after_three) <= mbuf Sample.after_three /\
  mbuf Sample.after_two <= mbuf Sample.after_three.
Proof.
  assert (E : extsort_push Sample.insertion_sort Sample.after_two Sample.r4
              = Ok Sample.after_three) by (vm_compute; reflexivity).
  split; [exact E|].
  apply (push_stores_within_capacity Sample.insertion_sort Sample.after_two
           Sample.after_three Sample.r4 E).
Defined.
